(** * PixelCloakApp (HiddenCanvas): chaos-based LSB steganography

    A shallow embedding of [steganographyService] (classes [ChaosPRNG]
    and [SteganographyService]) and of the [handleEncode] and [handleDecode]
    handlers of [App.js], followed by the properties of the embedding.

    - JavaScript numbers that hold fractions (the logistic-map state) are
      IEEE 754 binary64 values: Rocq's primitive [float], whose operations
      round to nearest-even exactly as JavaScript's do.
    - JavaScript numbers that only ever hold small integers (loop counters,
      char codes, byte offsets, the key accumulator) are [Z] or [N].
    - A JavaScript string is the list of its UTF-16 code units; a string of
      ['0']/['1'] characters is a list of booleans.
    - The [do ... while] rejection loop of [generatePixelSequence] has no
      bound in the source; the embedding gives every run of that loop a
      number of draws ([fuel]) and reports [Timeout] when it is used up. *)

From Stdlib Require Import String Ascii.
From Stdlib Require Import ZArith NArith QArith Qround Qpower List Bool Lia Lqa Floats Uint63.
From Stdlib Require DecimalString DecimalZ.
Import ListNotations.
Open Scope Z_scope.

(** ** Outcomes of a call *)

Inductive outcome (A : Type) : Type :=
| Done (a : A)            (* the call returned [a] *)
| Thrown (msg : string)   (* the call threw [new Error(msg)] *)
| Timeout.                (* a rejection loop was still running when the fuel ran out *)

Arguments Done {A} a.
Arguments Thrown {A} msg.
Arguments Timeout {A}.

Definition bind {A B : Type} (m : outcome A) (k : A -> outcome B) : outcome B :=
  match m with
  | Done a => k a
  | Thrown msg => Thrown msg
  | Timeout => Timeout
  end.

Notation "x <- m ;; k" := (bind m (fun x => k))
  (at level 61, m at next level, right associativity).
Notation "' p <- m ;; k" := (bind m (fun v => let p := v in k))
  (at level 61, p pattern, m at next level, right associativity).

(** [try { ... } catch (error) { return null; }] *)
Definition try_catch_null {A : Type} (m : outcome (option A)) : outcome (option A) :=
  match m with
  | Thrown _ => Done None
  | other => other
  end.

(** ** Strings *)

(** A UTF-16 code unit, [0 .. 65535]. *)
Definition codeunit := N.
Definition jsstring := list codeunit.

Definition wf_string (s : jsstring) : Prop := Forall (fun c => (c < 65536)%N) s.

(** An ASCII literal as a JavaScript string. *)
Fixpoint js (s : string) : jsstring :=
  match s with
  | EmptyString => []
  | String a rest => N_of_ascii a :: js rest
  end.

(** [String.fromCharCode(n)]: the code unit [n mod 2^16]. *)
Definition fromCharCode (n : N) : codeunit := (n mod 65536)%N.





(** ** Binary strings *)

(** A string over ['0'] and ['1'], most significant digit first. *)
Definition binary := list bool.

Fixpoint posDigits (p : positive) : binary :=
  match p with
  | xH => [true]
  | xO q => posDigits q ++ [false]
  | xI q => posDigits q ++ [true]
  end.

(** [n.toString(2)] for a non-negative integer. *)
Definition toString2 (n : N) : binary :=
  match n with
  | N0 => [false]
  | Npos p => posDigits p
  end.

(** [s.padStart(len, '0')] *)
Definition padStart (len : nat) (s : binary) : binary :=
  repeat false (len - length s) ++ s.

(** [parseInt(s, 2)] on a non-empty string of binary digits. *)
Definition parseInt2 (s : binary) : N :=
  fold_left (fun acc (b : bool) => (2 * acc + (if b then 1 else 0))%N) s 0%N.

(** [stringToBinary]: 16 digits per code unit. *)
Fixpoint stringToBinary (str : jsstring) : binary :=
  match str with
  | [] => []
  | charCode :: rest => padStart 16 (toString2 charCode) ++ stringToBinary rest
  end.

(** [binaryToString]: the loop [for (i = 0; i < binary.length; i += 16)] reads
    [binary.substr(i, 16)], which is shorter than 16 for a last partial
    group. The number of groups is at most [length binary]. *)
Fixpoint binaryToString_from (groups : nat) (bin : binary) : jsstring :=
  match groups with
  | O => []
  | S g =>
      match bin with
      | [] => []
      | _ => fromCharCode (parseInt2 (firstn 16 bin))
               :: binaryToString_from g (skipn 16 bin)
      end
  end.

Definition binaryToString (bin : binary) : jsstring :=
  binaryToString_from (length bin) bin.

(** ** ChaosPRNG *)

(** An integer-valued JavaScript number as a double (exact for
    [0 <= z < 2^53]; image dimensions and accumulators are far below). *)
Definition Z2F (z : Z) : float := PrimFloat.of_uint63 (Uint63.of_Z z).

(** [const r = 3.9]: the double nearest to 3.9. *)
Definition r : float := 0x1.f333333333333p+1%float.

(** [r * x * (1 - x)], evaluated left to right. *)
Definition logistic (x : float) : float := (r * x * (1 - x))%float.

(** [if (v <= 0 || v >= 1) v = 0.5;] *)
Definition clampUnit (v : float) : float :=
  if ((v <=? 0) || (1 <=? v))%float then 0.5%float else v.

(** The integer loop of [generateSeed]:
    [value += key.charCodeAt(i); value = (value * 17) % 1000]. *)
Definition accumulate (value : Z) (c : codeunit) : Z :=
  Z.rem ((value + Z.of_N c) * 17) 1000.

Definition keyAccumulator (key : jsstring) : Z := fold_left accumulate key 0.

(** The rest of [generateSeed], from the accumulated integer on. *)
Definition seedOfAccumulator (acc : Z) : float :=
  Nat.iter 100 logistic (clampUnit (Z2F acc / Z2F 1000)%float).

Definition generateSeed (key : jsstring) : float :=
  seedOfAccumulator (keyAccumulator key).

Record ChaosPRNG : Type := mkPRNG {
  prng_key : jsstring;
  prng_width : Z;
  prng_height : Z;
  prng_totalPixels : Z;
  prng_seed : float;
  prng_state : float
}.

(** [new ChaosPRNG(key, width, height)] *)
Definition newChaosPRNG (key : jsstring) (width height : Z) : ChaosPRNG :=
  let seed := generateSeed key in
  mkPRNG key width height (width * height) seed seed.

Definition with_state (p : ChaosPRNG) (s : float) : ChaosPRNG :=
  mkPRNG (prng_key p) (prng_width p) (prng_height p) (prng_totalPixels p)
         (prng_seed p) s.

(** [next()] *)
Definition next (p : ChaosPRNG) : float * ChaosPRNG :=
  let s := clampUnit (logistic (prng_state p)) in
  (s, with_state p s).

(** [Math.floor] of a double, as an integer. On every state the sequencer
    reaches, [next() * max] is a positive finite double ([floor_mul_Q] below);
    zeros, infinities and NaN are given 0 only to make the function total. *)
Definition floorSF (v : spec_float) : Z :=
  match v with
  | S754_finite sign m e =>
      let q := match e with
               | Zneg k => if sign then - ((Zpos m + 2 ^ Zpos k - 1) / 2 ^ Zpos k)
                           else Zpos m / 2 ^ Zpos k
               | _ => (if sign then - Zpos m else Zpos m) * 2 ^ e
               end in q
  | _ => 0
  end.

Definition floor (v : float) : Z := floorSF (Prim2SF v).

(** [nextInt(max)] *)
Definition nextInt (max : Z) (p : ChaosPRNG) : Z * ChaosPRNG :=
  let '(v, p') := next p in
  (floor (v * Z2F max)%float, p').

Record position : Type := mkPos { pos_x : Z; pos_y : Z; pos_channel : Z }.

Definition position_eqb (a b : position) : bool :=
  (pos_x a =? pos_x b) && (pos_y a =? pos_y b) && (pos_channel a =? pos_channel b).

(** The body of the [do ... while] loop: three draws. *)
Definition drawPosition (p : ChaosPRNG) : position * ChaosPRNG :=
  let '(x, p1) := nextInt (prng_width p) p in
  let '(y, p2) := nextInt (prng_height p1) p1 in
  let '(channel, p3) := nextInt 3 p2 in
  (mkPos x y channel, p3).

(** [usedPositions.has(positionKey)]: the key [`${x},${y},${channel}`]
    determines the three integers, so the set of keys is a set of positions. *)
Definition has (usedPositions : list position) (q : position) : bool :=
  existsb (position_eqb q) usedPositions.

(** [do { ... } while (usedPositions.has(positionKey))], at most [fuel] draws. *)
Fixpoint drawUnique (fuel : nat) (usedPositions : list position) (p : ChaosPRNG)
  : outcome (position * ChaosPRNG) :=
  match fuel with
  | O => Timeout
  | S fuel' =>
      let '(q, p') := drawPosition p in
      if has usedPositions q then drawUnique fuel' usedPositions p'
      else Done (q, p')
  end.

(** The [for] loop of [generatePixelSequence], [n] iterations left. *)
Fixpoint generateLoop (fuel n : nat) (usedPositions sequence : list position)
  (p : ChaosPRNG) : outcome (list position * ChaosPRNG) :=
  match n with
  | O => Done (sequence, p)
  | S n' =>
      '(q, p') <- drawUnique fuel usedPositions p ;;
      generateLoop fuel n' (q :: usedPositions) (sequence ++ [q]) p'
  end.

(** [generatePixelSequence(count)]: a fresh [usedPositions] and a fresh
    [sequence] on every call; the PRNG object carries only [state] over. *)
Definition generatePixelSequence (fuel : nat) (count : Z) (p : ChaosPRNG)
  : outcome (list position * ChaosPRNG) :=
  generateLoop fuel (Z.to_nat count) [] [] p.

(** ** SteganographyService *)

Record ImageData : Type := mkImage {
  img_data : list Z;     (* Uint8ClampedArray, RGBA *)
  img_width : Z;
  img_height : Z
}.

(** The bytes of a typed array are in [0 .. 255], and an image holds
    [width * height * 4] of them. Canvas dimensions are far below [2^53],
    and the offsets [(y * width + x) * 4 + channel] the program computes are
    below the length of the array, so that its index arithmetic is exact and
    is written on [Z]. *)
Definition isByte (b : Z) : bool := (0 <=? b) && (b <? 256).

Definition wf_image (im : ImageData) : Prop :=
  forallb isByte (img_data im) = true /\
  0 < img_width im < 2 ^ 53 /\ 0 < img_height im < 2 ^ 53 /\
  Z.of_nat (length (img_data im)) = img_width im * img_height im * 4.

(** [data[i]]: [undefined] outside the array. *)
Definition getIndex (data : list Z) (i : Z) : option Z :=
  if i <? 0 then None else nth_error data (Z.to_nat i).

(** [v & mask] where [undefined] converts to 0. *)
Definition bitAnd (v : option Z) (mask : Z) : Z :=
  match v with
  | Some b => Z.land b mask
  | None => 0
  end.

Fixpoint replaceNth (n : nat) (v : Z) (l : list Z) : list Z :=
  match l, n with
  | [], _ => []
  | _ :: t, O => v :: t
  | h :: t, S n' => h :: replaceNth n' v t
  end.

(** Stores into a [Uint8ClampedArray] clamp the value to [0 .. 255]. *)
Definition clamp8 (v : Z) : Z := Z.max 0 (Z.min 255 v).

(** [data[i] = v]: ignored outside the array. *)
Definition setIndex (data : list Z) (i : Z) (v : Z) : list Z :=
  if i <? 0 then data else replaceNth (Z.to_nat i) (clamp8 v) data.

Definition pixelIndex (width : Z) (q : position) : Z :=
  (pos_y q * width + pos_x q) * 4.

Definition bitOf (b : bool) : Z := if b then 1 else 0.

(** The embedding loop of [encode]: [i] runs over [fullBinary] and
    [pixelSequence] together (both have [totalBits] elements). *)
Fixpoint embed (width : Z) (pixelSequence : list position) (fullBinary : binary)
  (newData : list Z) : list Z :=
  match pixelSequence, fullBinary with
  | q :: qs, b :: bs =>
      let idx := pixelIndex width q + pos_channel q in
      let currentValue := getIndex newData idx in
      let newValue := Z.lor (bitAnd currentValue 254) (bitOf b) in
      embed width qs bs (setIndex newData idx newValue)
  | _, _ => newData
  end.

(** [encode(imageData, message, key)] *)
Definition encode (fuel : nat) (imageData : ImageData) (message key : jsstring)
  : outcome ImageData :=
  let data := img_data imageData in
  let width := img_width imageData in
  let height := img_height imageData in
  let prng := newChaosPRNG key width height in
  let messageBinary := stringToBinary message in
  let messageLength := length messageBinary in
  let lengthBinary := padStart 32 (toString2 (N.of_nat messageLength)) in
  let fullBinary := lengthBinary ++ messageBinary in
  let totalBits := length fullBinary in
  '(pixelSequence, _) <- generatePixelSequence fuel (Z.of_nat totalBits) prng ;;
  let newData := data in   (* new Uint8ClampedArray(data): a copy *)
  Done (mkImage (embed width pixelSequence fullBinary newData) width height).

(** The extraction loops of [decode]: the LSB at each position, in order. *)
Definition extract (width : Z) (data : list Z) (seq : list position) : binary :=
  map (fun q => Z.eqb (bitAnd (getIndex data (pixelIndex width q + pos_channel q)) 1) 1) seq.

(** The body of the [try] block of [decode]. *)
Definition decode_try (fuel : nat) (imageData : ImageData) (prng : ChaosPRNG)
  : outcome (option jsstring) :=
  let data := img_data imageData in
  let width := img_width imageData in
  let height := img_height imageData in
  '(lengthSequence, prng1) <- generatePixelSequence fuel 32 prng ;;
  let lengthBinary := extract width data lengthSequence in
  let messageLength := Z.of_N (parseInt2 lengthBinary) in
  if (messageLength <=? 0) || (messageLength >? width * height * 3)
  then Thrown "Invalid message length"
  else
    '(messageSequence, _) <- generatePixelSequence fuel messageLength prng1 ;;
    let messageBinary := extract width data messageSequence in
    Done (Some (binaryToString messageBinary)).

(** [decode(imageData, key)]: a string, or [null] ([None]). *)
Definition decode (fuel : nat) (imageData : ImageData) (key : jsstring)
  : outcome (option jsstring) :=
  let prng := newChaosPRNG key (img_width imageData) (img_height imageData) in
  try_catch_null (decode_try fuel imageData prng).

(** [decode(encode(imageData, message, key1), key2)] *)
Definition roundTrip (fuel : nat) (imageData : ImageData) (message key1 key2 : jsstring)
  : outcome (option jsstring) :=
  encoded <- encode fuel imageData message key1 ;;
  decode fuel encoded key2.

(** ** The typed arrays as objects

    [encode] receives a reference to the caller's array and allocates a new
    one ([new Uint8ClampedArray(data)]). The store maps addresses to array
    contents; an allocation takes the next free address. *)

Definition store := list (list Z).

Definition arrayAt (h : store) (a : nat) : list Z := nth a h [].

Fixpoint updateAt {A : Type} (n : nat) (f : A -> A) (l : list A) : list A :=
  match l, n with
  | [], _ => []
  | x :: t, O => f x :: t
  | x :: t, S n' => x :: updateAt n' f t
  end.

(** [new Uint8ClampedArray(src)]: a fresh array holding a copy of [src]. *)
Definition allocCopy (h : store) (src : nat) : nat * store :=
  (length h, h ++ [arrayAt h src]).

Record ImageRef : Type := mkImageRef {
  ref_data : nat;
  ref_width : Z;
  ref_height : Z
}.

Definition imageOf (h : store) (im : ImageRef) : ImageData :=
  mkImage (arrayAt h (ref_data im)) (ref_width im) (ref_height im).

(** The embedding loop of [encode], writing through the reference [newData]. *)
Fixpoint embedAt (width : Z) (pixelSequence : list position) (fullBinary : binary)
  (newData : nat) (h : store) : store :=
  match pixelSequence, fullBinary with
  | q :: qs, b :: bs =>
      let idx := pixelIndex width q + pos_channel q in
      let currentValue := getIndex (arrayAt h newData) idx in
      let newValue := Z.lor (bitAnd currentValue 254) (bitOf b) in
      embedAt width qs bs newData
        (updateAt newData (fun arr => setIndex arr idx newValue) h)
  | _, _ => h
  end.

(** [encode] on the store: the returned [ImageData] wraps the new array. *)
Definition encodeAt (fuel : nat) (h : store) (imageData : ImageRef)
  (message key : jsstring) : outcome (ImageRef * store) :=
  let data := ref_data imageData in
  let width := ref_width imageData in
  let height := ref_height imageData in
  let prng := newChaosPRNG key width height in
  let messageBinary := stringToBinary message in
  let messageLength := length messageBinary in
  let lengthBinary := padStart 32 (toString2 (N.of_nat messageLength)) in
  let fullBinary := lengthBinary ++ messageBinary in
  let totalBits := length fullBinary in
  '(pixelSequence, _) <- generatePixelSequence fuel (Z.of_nat totalBits) prng ;;
  let '(newData, h1) := allocCopy h data in
  Done (mkImageRef newData width height,
        embedAt width pixelSequence fullBinary newData h1).

(** ** The encode handler of the application *)





(** ** Analysis of the sequencer

    The definitions below are not part of the program: they are the
    vocabulary of the proofs about the doubles it computes. *)

(** The rational value of a double. *)
Definition B2Q (x : spec_float) : Q :=
  match x with
  | S754_finite false m e => inject_Z (Zpos m) * 2 ^ e
  | S754_finite true m e => - (inject_Z (Zpos m) * 2 ^ e)
  | _ => 0
  end.

(** The double-rounding unit used below: a relative error of [2^-52]. *)
Definition eps : Q := 1 # 4503599627370496.

(** Positive normal doubles: a 53-digit mantissa. *)
Inductive pnormal : spec_float -> Prop :=
| pnormal_intro (m : positive) (e : Z) :
    Zpos (digits2_pos m) = 53 -> -1074 <= e <= 971 ->
    pnormal (S754_finite false m e).

Definition expo (x : spec_float) : Z :=
  match x with
  | S754_finite _ _ e => e
  | _ => 0
  end.

Definition SFone : spec_float := S754_finite false 4503599627370496 (-52).

(** The value of the constant [r]. *)
Definition Rq : Q := B2Q (Prim2SF r).

(** Bounds are kept as integer multiples of [2^-24]. [RdnN] and [RupN]
    enclose [r]; [logDn a b] and [logUp a b] enclose the three-rounding
    double result of [logistic] on every double in [[a, b] * 2^-24]. *)
Definition grid : Z := 16777216.
Definition RdnN : Z := 65431142.
Definition RupN : Z := 65431143.

Definition logUp (a b : Z) : Z := Z.shiftr (RupN * b * (grid - a)) 48 + 2.
Definition logDn (a b : Z) : Z := Z.shiftr (RdnN * a * (grid - b)) 48 - 1.

Definition onGrid (n : Z) : Q := inject_Z n * (1 # 16777216).

(** The interval [[72/1024, 1003/1024]], cut into cells of width [2^-10]. *)
Definition cellW : Z := 16384.
Definition kLo : Z := 72.
Definition kHi : Z := 1003.
Definition la : Z := kLo * cellW.
Definition ub : Z := kHi * cellW.

(** The logistic map sends cell [k] into the interval. *)
Definition cellOK (k : Z) : bool :=
  (la <=? logDn (k * cellW) ((k + 1) * cellW)) &&
  (logUp (k * cellW) ((k + 1) * cellW) <=? ub).

Definition zrange (lo : Z) (n : Z) : list Z :=
  map (fun i => lo + Z.of_nat i) (seq 0 (Z.to_nat n)).

Definition cells : list Z := zrange kLo (kHi - kLo).

(** The states of the sequencer stay in the interval. *)
Definition okState (s : float) : Prop :=
  pnormal (Prim2SF s) /\
  (onGrid la <= B2Q (Prim2SF s))%Q /\ (B2Q (Prim2SF s) <= onGrid ub)%Q.

Definition okPRNG (p : ChaosPRNG) : Prop := okState (prng_state p).

Definition inAttractor (s : float) : bool :=
  match Prim2SF s with
  | S754_finite false m e =>
      (Zpos (digits2_pos m) =? 53) && (-1074 <=? e) && (e <=? 971) &&
      Qle_bool (onGrid la) (B2Q (S754_finite false m e)) &&
      Qle_bool (B2Q (S754_finite false m e)) (onGrid ub)
  | _ => false
  end.

(** [floor (s * max)] for a double [s] in [[a, b] * 2^-24]. *)
Definition idxLo (a max : Z) : Z := Z.shiftr (a * max - 1) 24.
Definition idxHi (b max : Z) : Z := Z.shiftr (b * max + 1) 24.

Record box : Type := mkBox {
  xlo : Z; xhi : Z; ylo : Z; yhi : Z; clo : Z; chi : Z
}.

(** The positions one [do ... while] iteration can draw when its first
    state lies in cell [k]: the second and third states are its images,
    and stay in the interval. *)
Definition boxOf (width height k : Z) : box :=
  let a1 := k * cellW in
  let b1 := (k + 1) * cellW in
  let a2 := Z.max la (logDn a1 b1) in
  let b2 := Z.min ub (logUp a1 b1) in
  let a3 := Z.max la (logDn a2 b2) in
  let b3 := Z.min ub (logUp a2 b2) in
  mkBox (idxLo a1 width) (idxHi b1 width) (idxLo a2 height) (idxHi b2 height)
        (idxLo a3 3) (idxHi b3 3).

Definition inBox (q : position) (b : box) : bool :=
  (xlo b <=? pos_x q) && (pos_x q <=? xhi b) &&
  (ylo b <=? pos_y q) && (pos_y q <=? yhi b) &&
  (clo b <=? pos_channel q) && (pos_channel q <=? chi b).

Definition allPositions (width height : Z) : list position :=
  flat_map (fun x =>
    flat_map (fun y => map (fun c => mkPos x y c) (zrange 0 3)) (zrange 0 height))
    (zrange 0 width).

(** The positions of the image that some cell can draw. *)
Definition reachable (width height : Z) : list position :=
  let boxes := map (boxOf width height) cells in
  filter (fun q => existsb (inBox q) boxes) (allPositions width height).

Definition dimsOK (p : ChaosPRNG) : Prop :=
  0 < prng_width p < 2 ^ 53 /\ 0 < prng_height p < 2 ^ 53.

(** A well-formed location. *)
Definition wf_position (width height : Z) (q : position) : Prop :=
  0 <= pos_x q < width /\ 0 <= pos_y q < height /\ 0 <= pos_channel q < 3.

(** The byte offset of a location. *)
Definition offsetOf (width : Z) (q : position) : Z :=
  pixelIndex width q + pos_channel q.

(** The same sequencer under another key name: [generateSeed] is the only
    reader of the key. *)
Definition rekey (k : jsstring) (p : ChaosPRNG) : ChaosPRNG :=
  mkPRNG k (prng_width p) (prng_height p) (prng_totalPixels p) (prng_seed p)
         (prng_state p).

Definition mapOutcome {A B : Type} (f : A -> B) (o : outcome A) : outcome B :=
  match o with
  | Done a => Done (f a)
  | Thrown msg => Thrown msg
  | Timeout => Timeout
  end.

(** The locations of a call, without the sequencer. *)
Definition positionsOf (o : outcome (list position * ChaosPRNG)) : outcome (list position) :=
  match o with
  | Done (sequence, _) => Done sequence
  | Thrown msg => Thrown msg
  | Timeout => Timeout
  end.

(** The two location sequences a [decode] call draws: the header's and, when
    the header is accepted, the body's. *)
Definition decodeSequences (fuel : nat) (imageData : ImageData) (key : jsstring)
  : outcome (list position * list position) :=
  let data := img_data imageData in
  let width := img_width imageData in
  let height := img_height imageData in
  let prng := newChaosPRNG key width height in
  '(lengthSequence, prng1) <- generatePixelSequence fuel 32 prng ;;
  let messageLength := Z.of_N (parseInt2 (extract width data lengthSequence)) in
  if (messageLength <=? 0) || (messageLength >? width * height * 3)
  then Thrown "Invalid message length"
  else
    '(messageSequence, _) <- generatePixelSequence fuel messageLength prng1 ;;
    Done (lengthSequence, messageSequence).

(** The payload of a message: header and body digits. *)
Definition payload (message : jsstring) : binary :=
  padStart 32 (toString2 (N.of_nat (length (stringToBinary message))))
    ++ stringToBinary message.

(** A blank image: every byte equal to [v]. *)
Definition solidImage (width height v : Z) : ImageData :=
  mkImage (repeat v (Z.to_nat (width * height * 4))) width height.

(** A 20x20 image that was never encoded: every byte is 100 except the blue
    bytes of pixels (5, 14) and (5, 15), which are 101. Under key "abc" its
    header bits read 5. *)
Definition headerFiveImage : ImageData :=
  mkImage (setIndex (setIndex (repeat 100 1600) 1142 101) 1222 101) 20 20.

(** ** The keys of the set of used positions *)

(** [`${z}`] for an integer-valued number below [10^21]: its decimal digits. *)
Definition decimal (z : Z) : string :=
  DecimalString.NilEmpty.string_of_int (Z.to_int z).

(** [positionKey = `${x},${y},${channel}`] *)
Definition positionKey (q : position) : string :=
  (decimal (pos_x q) ++ "," ++ decimal (pos_y q) ++ "," ++ decimal (pos_channel q))%string.

(** [usedPositions.has(positionKey)] on the set of keys itself. *)
Definition hasKey (usedKeys : list string) (key : string) : bool :=
  existsb (String.eqb key) usedKeys.

(** ** The decode handler of the application *)




(** ** Analysis of the payload, of the seeds and of the capacity

    As above, these definitions are the vocabulary of the proofs. *)

(** The 32 header digits of the payload of a message. *)
Definition header (message : jsstring) : binary :=
  padStart 32 (toString2 (N.of_nat (length (stringToBinary message)))).

(** The sequencer after [n] calls of [next]. *)
Definition afterNext (n : nat) (p : ChaosPRNG) : ChaosPRNG :=
  Nat.iter n (fun q => snd (next q)) p.

(** Two doubles with the same sign, mantissa and exponent. *)
Definition sameDouble (a b : float) : bool :=
  match Prim2SF a, Prim2SF b with
  | S754_finite s m e, S754_finite s' m' e' =>
      Bool.eqb s s' && Pos.eqb m m' && Z.eqb e e'
  | _, _ => false
  end.

(** A list of doubles without its repetitions. *)
Fixpoint dedupSeeds (l : list float) : list float :=
  match l with
  | [] => []
  | s :: t => if existsb (sameDouble s) t then dedupSeeds t else s :: dedupSeeds t
  end.

(** The seeds of the accumulators [0 .. 999], each value once. *)
Definition seedValues : list float :=
  dedupSeeds (map seedOfAccumulator (zrange 0 1000)).

(** A key of one code unit whose accumulator is [a]: 353 is the inverse of
    17 modulo 1000. *)
Definition keyOfAccumulator (a : Z) : jsstring := [Z.to_N ((a * 353) mod 1000)].

(** The states that can draw column [x] of an image of width [w], as a grid
    interval, and the rows that the next state can draw. *)
Definition colLo (w x : Z) : Z := Z.max la (x * grid / w - 1).
Definition colHi (w x : Z) : Z := Z.min ub (((x + 1) * grid + w - 1) / w + 1).
Definition rowLo (w h x : Z) : Z :=
  idxLo (Z.max la (logDn (colLo w x) (colHi w x))) h.
Definition rowHi (w h x : Z) : Z :=
  idxHi (Z.min ub (logUp (colLo w x) (colHi w x))) h.

(** The location [q] with its row counted from the first row of its column. *)
Definition rowInColumn (w h : Z) (q : position) : position :=
  mkPos (pos_x q) (pos_y q - rowLo w h (pos_x q)) (pos_channel q).

(** A string without a comma. *)
Fixpoint noComma (s : string) : bool :=
  match s with
  | EmptyString => true
  | String c rest => negb (Ascii.eqb c ",") && noComma rest
  end.

(** A 20x20 image that was never encoded: every byte is 100 except the
    green byte of pixel (7, 18), which is 101. Under key "abc" its header
    bits read 512. *)
Definition headerLongImage : ImageData :=
  mkImage (setIndex (repeat 100 1600) 1469 101) 20 20.

(** * Properties *)

(** ** Rounding of doubles *)

Lemma digits2_pos_bounds (m : positive) :
  2 ^ (Zpos (digits2_pos m) - 1) <= Zpos m < 2 ^ Zpos (digits2_pos m).
Proof.
  induction m as [m IH | m IH | ]; cbn [digits2_pos].
  - rewrite Pos2Z.inj_succ. replace (Z.succ (Zpos (digits2_pos m)) - 1) with (Zpos (digits2_pos m)) by lia.
    rewrite Z.pow_succ_r by lia.
    assert (0 < Zpos (digits2_pos m)) by lia.
    replace (Zpos (digits2_pos m)) with (Z.succ (Zpos (digits2_pos m) - 1)) at 1 by lia.
    rewrite Z.pow_succ_r by lia. lia.
  - rewrite Pos2Z.inj_succ. replace (Z.succ (Zpos (digits2_pos m)) - 1) with (Zpos (digits2_pos m)) by lia.
    rewrite Z.pow_succ_r by lia.
    assert (0 < Zpos (digits2_pos m)) by lia.
    replace (Zpos (digits2_pos m)) with (Z.succ (Zpos (digits2_pos m) - 1)) at 1 by lia.
    rewrite Z.pow_succ_r by lia. lia.
  - cbn. lia.
Qed.

Lemma digits2_pos_unique (m : positive) (d : Z) :
  2 ^ (d - 1) <= Zpos m < 2 ^ d -> Zpos (digits2_pos m) = d.
Proof.
  intros [Hlo Hhi]. pose proof (digits2_pos_bounds m) as [Blo Bhi].
  set (d' := Zpos (digits2_pos m)) in *.
  assert (0 < d') by (unfold d'; lia).
  assert (0 <= d).
  { destruct (Z_lt_le_dec d 0) as [Hn|]; [|lia]. rewrite Z.pow_neg_r in Hhi by lia. lia. }
  destruct (Z_lt_le_dec d' d) as [Hlt|Hge].
  - assert (2 ^ d' <= 2 ^ (d - 1)) by (apply Z.pow_le_mono_r; lia). lia.
  - destruct (Z_lt_le_dec d d') as [Hlt|]; [|lia].
    assert (2 ^ d <= 2 ^ (d' - 1)) by (apply Z.pow_le_mono_r; lia). lia.
Qed.

Lemma shr_1_m (mrs : shr_record) :
  0 <= shr_m mrs -> shr_m (shr_1 mrs) = shr_m mrs / 2.
Proof.
  destruct mrs as [m rb sb]. cbn [shr_m]. intros Hm.
  destruct m as [ | [p | p | ] | p]; cbn [shr_1 shr_m]; try lia;
    rewrite <- Z.div2_div; reflexivity.
Qed.

Lemma pow2_xO (p : positive) : 2 ^ Zpos p~0 = 2 ^ Zpos p * 2 ^ Zpos p.
Proof. rewrite Pos2Z.inj_xO, <- Z.pow_add_r by lia. f_equal. lia. Qed.

Lemma pow2_xI (p : positive) : 2 ^ Zpos p~1 = 2 * (2 ^ Zpos p * 2 ^ Zpos p).
Proof.
  rewrite Pos2Z.inj_xI, <- Z.pow_add_r by lia.
  replace (2 * Zpos p + 1) with (Z.succ (Zpos p + Zpos p)) by lia.
  rewrite Z.pow_succ_r by lia. reflexivity.
Qed.

Lemma iter_pos_shr_m (p : positive) : forall mrs,
  0 <= shr_m mrs ->
  shr_m (iter_pos shr_1 p mrs) = shr_m mrs / 2 ^ Zpos p.
Proof.
  assert (Hnn : forall mrs, 0 <= shr_m mrs -> 0 <= shr_m (shr_1 mrs)).
  { intros mrs H. rewrite shr_1_m by assumption. apply Z.div_pos; lia. }
  induction p as [p IH | p IH | ]; intros mrs Hm; cbn [iter_pos].
  - assert (H1 := Hnn _ Hm).
    assert (0 < 2 ^ Zpos p) by (apply Z.pow_pos_nonneg; lia).
    assert (H2 : 0 <= shr_m (iter_pos shr_1 p (shr_1 mrs))).
    { rewrite IH by assumption. apply Z.div_pos; lia. }
    rewrite IH by assumption. rewrite IH by assumption. rewrite shr_1_m by assumption.
    rewrite pow2_xI. rewrite !Z.div_div by lia. reflexivity.
  - assert (0 < 2 ^ Zpos p) by (apply Z.pow_pos_nonneg; lia).
    assert (H2 : 0 <= shr_m (iter_pos shr_1 p mrs)).
    { rewrite IH by assumption. apply Z.div_pos; lia. }
    rewrite IH by assumption. rewrite IH by assumption.
    rewrite pow2_xO. rewrite !Z.div_div by lia. reflexivity.
  - rewrite shr_1_m by assumption. reflexivity.
Qed.

Lemma round_nearest_even_cases (mrs : shr_record) :
  round_nearest_even (shr_m mrs) (loc_of_shr_record mrs) = shr_m mrs \/
  round_nearest_even (shr_m mrs) (loc_of_shr_record mrs) = shr_m mrs + 1.
Proof.
  destruct mrs as [m [|] [|]]; cbn; try (destruct (Z.even m)); auto.
Qed.

Lemma fexp_normal (x : Z) : -1021 <= x -> fexp prec emax x = x - 53.
Proof. unfold fexp, SpecFloat.emin, prec, emax. lia. Qed.

Lemma shr_fexp_exact (m : positive) (e : Z) :
  Zpos (digits2_pos m) = 53 -> -1074 <= e ->
  shr_fexp prec emax (Zpos m) e loc_Exact = (Build_shr_record (Zpos m) false false, e).
Proof.
  intros Hd He. unfold shr_fexp. cbn [Zdigits2]. rewrite Hd.
  rewrite fexp_normal by lia. replace (53 + e - 53 - e) with 0 by lia.
  reflexivity.
Qed.

Lemma round_aux_normal (M : positive) (E : Z) :
  let d := Zpos (digits2_pos M) in
  53 <= d -> -1021 <= d + E -> d + E <= 1023 ->
  exists m2 e2,
    binary_round_aux prec emax false (Zpos M) E loc_Exact = S754_finite false m2 e2 /\
    Zpos (digits2_pos m2) = 53 /\
    E <= e2 /\ e2 <= 971 /\ -1074 <= e2 /\
    Z.abs (Zpos m2 * 2 ^ (e2 - E) - Zpos M) <= 2 ^ (d - 53) /\
    (d = 53 -> m2 = M /\ e2 = E).
Proof.
  intros d Hd Hlo Hhi. pose proof (digits2_pos_bounds M) as [Blo Bhi]. fold d in Blo, Bhi.
  destruct (Z.eq_dec d 53) as [Heq | Hne].
  - exists M, E. unfold binary_round_aux.
    rewrite shr_fexp_exact by (fold d; lia).
    cbn [loc_of_shr_record shr_m round_nearest_even].
    rewrite shr_fexp_exact by (fold d; lia).
    cbn [shr_m].
    replace (E <=? emax - prec) with true
      by (symmetry; apply Z.leb_le; unfold emax, prec; lia).
    repeat split; try lia.
    replace (E - E) with 0 by lia. rewrite Z.pow_0_r, Heq.
    change (2 ^ (53 - 53)) with 1. lia.
  - unfold binary_round_aux, shr_fexp at 1. cbn [Zdigits2]. fold d.
    rewrite fexp_normal by lia.
    replace (d + E - 53 - E) with (d - 53) by lia.
    destruct (d - 53) as [ | n | n] eqn:Hn; try lia.
    cbn [shr shr_record_of_loc].
    set (mrs := iter_pos shr_1 n {| shr_m := Zpos M; shr_r := false; shr_s := false |}).
    assert (Hm : shr_m mrs = Zpos M / 2 ^ Zpos n).
    { unfold mrs. rewrite iter_pos_shr_m; cbn [shr_m]; [reflexivity | lia]. }
    assert (Hpn : 0 < 2 ^ Zpos n) by (apply Z.pow_pos_nonneg; lia).
    assert (Hd52 : 2 ^ (d - 1) = 2 ^ 52 * 2 ^ Zpos n).
    { rewrite <- Z.pow_add_r by lia. f_equal. lia. }
    assert (Hd53 : 2 ^ d = 2 ^ 53 * 2 ^ Zpos n).
    { rewrite <- Z.pow_add_r by lia. f_equal. lia. }
    pose proof (Z.div_mod (Zpos M) (2 ^ Zpos n) ltac:(lia)) as Hdm.
    pose proof (Z.mod_pos_bound (Zpos M) (2 ^ Zpos n) Hpn) as Hmod.
    set (q := Zpos M / 2 ^ Zpos n) in *.
    set (P := 2 ^ Zpos n) in *.
    assert (Hq : 2 ^ 52 <= q < 2 ^ 53) by (split; nia).
    destruct (round_nearest_even_cases mrs) as [Hr | Hr]; rewrite Hr, Hm.
    + (* rounded down *)
      destruct q as [ | qp | qp] eqn:Hqp; try lia.
      assert (Hdq : Zpos (digits2_pos qp) = 53) by (apply digits2_pos_unique; lia).
      rewrite shr_fexp_exact by lia. cbn [shr_m].
      replace (E + Zpos n <=? emax - prec) with true
        by (symmetry; apply Z.leb_le; unfold emax, prec; lia).
      exists qp, (E + Zpos n). repeat split; try lia.
      replace (E + Zpos n - E) with (Zpos n) by lia. fold P. lia.
    + (* rounded up *)
      destruct (Z.eq_dec (q + 1) (2 ^ 53)) as [Htop | Hntop].
      * rewrite Htop. unfold shr_fexp.
        change (Zdigits2 (2 ^ 53)) with 54.
        rewrite fexp_normal by lia.
        replace (54 + (E + Zpos n) - 53 - (E + Zpos n)) with 1 by lia.
        cbn [shr shr_record_of_loc iter_pos]. 
        change (shr_1 {| shr_m := 2 ^ 53; shr_r := false; shr_s := false |})
          with {| shr_m := 2 ^ 52; shr_r := false; shr_s := false |}.
        cbn [shr_m]. change (2 ^ 52) with (Zpos (2 ^ 52)%positive) at 1.
        cbv iota beta.
        replace (E + Zpos n + 1 <=? emax - prec) with true
          by (symmetry; apply Z.leb_le; unfold emax, prec; lia).
        exists (2 ^ 52)%positive, (E + Zpos n + 1). repeat split; try lia.
        replace (E + Zpos n + 1 - E) with (Z.succ (Zpos n)) by lia.
        rewrite Z.pow_succ_r by lia. fold P.
        change (Zpos (2 ^ 52)%positive) with (2 ^ 52). change (2 ^ 53) with (2 * 2 ^ 52) in Htop.
        nia.
      * destruct (q + 1) as [ | qp | qp] eqn:Hqp; try lia.
        assert (Hdq : Zpos (digits2_pos qp) = 53) by (apply digits2_pos_unique; lia).
        rewrite shr_fexp_exact by lia. cbn [shr_m].
        replace (E + Zpos n <=? emax - prec) with true
          by (symmetry; apply Z.leb_le; unfold emax, prec; lia).
        exists qp, (E + Zpos n). repeat split; try lia.
        replace (E + Zpos n - E) with (Zpos n) by lia. fold P. nia.
Qed.

Open Scope Q_scope.




Lemma inject_Z_minus (x y : Z) : inject_Z (x - y) = inject_Z x - inject_Z y.
Proof. unfold Z.sub, Qminus. rewrite inject_Z_plus, inject_Z_opp. reflexivity. Qed.

Lemma pow2_pos (e : Z) : 0 < 2 ^ e.
Proof. apply Qpower_0_lt. reflexivity. Qed.

Lemma inject_pow2 (k : Z) : (0 <= k)%Z -> inject_Z (2 ^ k) == 2 ^ k.
Proof. intros. rewrite Zpower_Qpower by assumption. reflexivity. Qed.

Lemma pow2_add (a b : Z) : 2 ^ (a + b) == 2 ^ a * 2 ^ b.
Proof. apply Qpower_plus. discriminate. Qed.

Lemma pnormal_pos (x : spec_float) : pnormal x -> 0 < B2Q x.
Proof.
  intros [m e _ _]. cbn [B2Q].
  apply Qmult_lt_0_compat; [reflexivity | apply pow2_pos].
Qed.

(** Rounding a positive [M * 2^E] in the normal range: the relative error is
    at most [eps], and there is none when [M] has at most 53 digits. *)
Lemma round_aux_Q (M : positive) (E : Z) :
  (53 <= Zpos (digits2_pos M))%Z ->
  (-1021 <= Zpos (digits2_pos M) + E)%Z -> (Zpos (digits2_pos M) + E <= 1023)%Z ->
  exists x,
    binary_round_aux prec emax false (Zpos M) E loc_Exact = x /\ pnormal x /\
    (1 - eps) * (inject_Z (Zpos M) * 2 ^ E) <= B2Q x /\
    B2Q x <= (1 + eps) * (inject_Z (Zpos M) * 2 ^ E) /\
    (Zpos (digits2_pos M) = 53%Z -> x = S754_finite false M E).
Proof.
  intros Hd Hlo Hhi.
  destruct (round_aux_normal M E Hd Hlo Hhi) as (m2 & e2 & Hx & Hd2 & He & He971 & He1074 & Habs & Hex).
  exists (S754_finite false m2 e2). split; [exact Hx|]. split; [constructor; lia|].
  pose proof (digits2_pos_bounds M) as [Blo _].
  set (d := Zpos (digits2_pos M)) in *.
  set (T := (2 ^ (d - 53))%Z) in *.
  assert (HT : (T * 2 ^ 52 <= Zpos M)%Z).
  { unfold T. rewrite <- Z.pow_add_r by lia. replace (d - 53 + 52)%Z with (d - 1)%Z by lia. exact Blo. }
  set (A := (Zpos m2 * 2 ^ (e2 - E))%Z) in *.
  assert (HA : B2Q (S754_finite false m2 e2) == inject_Z A * 2 ^ E).
  { cbn [B2Q]. unfold A. rewrite inject_Z_mult, inject_pow2 by lia.
    replace e2 with ((e2 - E) + E)%Z at 1 by lia. rewrite pow2_add. ring. }
  pose proof (pow2_pos E) as Hw. set (w := 2 ^ E) in *.
  assert (H1 : inject_Z A - inject_Z (Zpos M) <= inject_Z T).
  { rewrite <- inject_Z_minus, <- Zle_Qle. lia. }
  assert (H2 : inject_Z (Zpos M) - inject_Z A <= inject_Z T).
  { rewrite <- inject_Z_minus, <- Zle_Qle. lia. }
  assert (H3 : inject_Z T * inject_Z (2 ^ 52) <= inject_Z (Zpos M)).
  { rewrite <- inject_Z_mult, <- Zle_Qle. exact HT. }
  change (inject_Z (2 ^ 52)) with (4503599627370496 # 1) in H3.
  set (a := inject_Z A) in *. set (mq := inject_Z (Zpos M)) in *. set (t := inject_Z T) in *.
  assert (G1 : 0 <= (a - mq + t) * w) by (apply Qmult_le_0_compat; lra).
  assert (G2 : 0 <= (mq - a + t) * w) by (apply Qmult_le_0_compat; lra).
  assert (G3 : 0 <= (mq - t * (4503599627370496 # 1)) * w) by (apply Qmult_le_0_compat; lra).
  unfold eps.
  split; [|split].
  - rewrite HA. lra.
  - rewrite HA. lra.
  - intros H53. destruct (Hex H53) as [-> ->]. reflexivity.
Qed.

Ltac qle := apply Qle_bool_imp_le; vm_compute; reflexivity.
Ltac qlt := apply Qlt_alt; vm_compute; reflexivity.

Lemma iter_xO (m d : positive) : (Zpos (Pos.iter xO m d) = Zpos m * 2 ^ Zpos d)%Z.
Proof.
  induction d as [ | d IH] using Pos.peano_ind.
  - cbn. lia.
  - rewrite Pos.iter_succ, Pos2Z.inj_succ, Z.pow_succ_r by lia.
    rewrite Pos2Z.inj_xO, IH. lia.
Qed.

Lemma binary_round_Q (D : positive) (E : Z) :
  (-1021 <= Zpos (digits2_pos D) + E)%Z -> (Zpos (digits2_pos D) + E <= 1023)%Z ->
  exists x,
    binary_round prec emax false D E = x /\ pnormal x /\
    (1 - eps) * (inject_Z (Zpos D) * 2 ^ E) <= B2Q x /\
    B2Q x <= (1 + eps) * (inject_Z (Zpos D) * 2 ^ E) /\
    ((Zpos (digits2_pos D) <= 53)%Z -> B2Q x == inject_Z (Zpos D) * 2 ^ E).
Proof.
  intros Hlo Hhi. unfold binary_round. rewrite fexp_normal by lia.
  unfold shl_align.
  pose proof (digits2_pos_bounds D) as [Blo Bhi].
  set (d := Zpos (digits2_pos D)) in *.
  assert (Hdpos : (0 < d)%Z) by (unfold d; lia).
  replace (d + E - 53 - E)%Z with (d - 53)%Z by lia.
  destruct (d - 53)%Z as [ | k | k] eqn:Hk.
  - destruct (round_aux_Q D E) as (x & Hx & Hn & H1 & H2 & H3); fold d; try lia.
    exists x. repeat split; try assumption.
    intros _. rewrite H3 by lia. reflexivity.
  - destruct (round_aux_Q D E) as (x & Hx & Hn & H1 & H2 & H3); fold d; try lia.
    exists x. repeat split; try assumption. intros; lia.
  - assert (Hmz : (Zpos (Pos.iter xO D k) = Zpos D * 2 ^ Zpos k)%Z) by apply iter_xO.
    assert (Hpk : (0 < 2 ^ Zpos k)%Z) by (apply Z.pow_pos_nonneg; lia).
    assert (Hdz : Zpos (digits2_pos (Pos.iter xO D k)) = 53%Z).
    { apply digits2_pos_unique. rewrite Hmz.
      replace (2 ^ (53 - 1))%Z with (2 ^ (d - 1) * 2 ^ Zpos k)%Z
        by (rewrite <- Z.pow_add_r by lia; f_equal; lia).
      replace (2 ^ 53)%Z with (2 ^ d * 2 ^ Zpos k)%Z
        by (rewrite <- Z.pow_add_r by lia; f_equal; lia).
      nia. }
    destruct (round_aux_Q (Pos.iter xO D k) (d + E - 53)) as (x & Hx & Hn & H1 & H2 & H3);
      try (rewrite Hdz; lia).
    exists x. split; [exact Hx|]. split; [exact Hn|].
    assert (Heq : B2Q x == inject_Z (Zpos D) * 2 ^ E).
    { rewrite (H3 Hdz). cbn [B2Q]. rewrite Hmz, inject_Z_mult, inject_pow2 by lia.
      replace E with (Zpos k + (d + E - 53))%Z at 2 by lia. rewrite pow2_add. ring. }
    assert (0 < inject_Z (Zpos D) * 2 ^ E).
    { apply Qmult_lt_0_compat; [reflexivity | apply pow2_pos]. }
    assert (0 < eps) by reflexivity.
    set (P := inject_Z (Zpos D) * 2 ^ E) in *.
    assert (0 <= eps * P) by (apply Qmult_le_0_compat; lra).
    rewrite Heq. repeat split; try lra. 
Qed.

Lemma digits_mul (a b : positive) :
  Zpos (digits2_pos a) = 53%Z -> Zpos (digits2_pos b) = 53%Z ->
  (105 <= Zpos (digits2_pos (a * b)) <= 106)%Z.
Proof.
  intros Ha Hb.
  pose proof (digits2_pos_bounds a) as [A1 A2]. pose proof (digits2_pos_bounds b) as [B1 B2].
  pose proof (digits2_pos_bounds (a * b)) as [C1 C2].
  rewrite Ha in *. rewrite Hb in *. rewrite Pos2Z.inj_mul in *.
  set (d := Zpos (digits2_pos (a * b))) in *.
  assert (0 < d)%Z by (unfold d; lia).
  change (2 ^ (53 - 1))%Z with (2 ^ 52)%Z in *.
  assert (L : (2 ^ 104 <= Zpos a * Zpos b)%Z) by (change (2 ^ 104)%Z with (2 ^ 52 * 2 ^ 52)%Z; nia).
  assert (U : (Zpos a * Zpos b < 2 ^ 106)%Z) by (change (2 ^ 106)%Z with (2 ^ 53 * 2 ^ 53)%Z; nia).
  split.
  - destruct (Z_lt_le_dec d 105); [|lia].
    assert (2 ^ d <= 2 ^ 104)%Z by (apply Z.pow_le_mono_r; lia). lia.
  - destruct (Z_lt_le_dec 106 d); [|lia].
    assert (2 ^ 106 <= 2 ^ (d - 1))%Z by (apply Z.pow_le_mono_r; lia). lia.
Qed.


Lemma SFmul_Q (x y : spec_float) :
  pnormal x -> pnormal y -> (-1126 <= expo x + expo y <= 917)%Z ->
  exists z, SF64mul x y = z /\ pnormal z /\
    (1 - eps) * (B2Q x * B2Q y) <= B2Q z /\ B2Q z <= (1 + eps) * (B2Q x * B2Q y).
Proof.
  intros [mx ex Hdx Hex] [my ey Hdy Hey] He. cbn [expo] in He.
  unfold SF64mul, SFmul. cbn [xorb].
  pose proof (digits_mul mx my Hdx Hdy) as Hd.
  destruct (round_aux_Q (mx * my) (ex + ey)) as (z & Hz & Hn & H1 & H2 & _); try lia.
  exists z. split; [exact Hz|]. split; [exact Hn|].
  assert (Heq : inject_Z (Zpos (mx * my)) * 2 ^ (ex + ey) ==
                B2Q (S754_finite false mx ex) * B2Q (S754_finite false my ey)).
  { cbn [B2Q]. rewrite Pos2Z.inj_mul, inject_Z_mult, pow2_add. ring. }
  rewrite <- Heq. split; assumption.
Qed.

Lemma pnormal_exp_le (m : positive) (e k : Z) :
  Zpos (digits2_pos m) = 53%Z ->
  B2Q (S754_finite false m e) < 2 ^ k -> (e <= k - 53)%Z.
Proof.
  intros Hd Hv. cbn [B2Q] in Hv.
  pose proof (digits2_pos_bounds m) as [Blo _]. rewrite Hd in Blo.
  assert (H : 2 ^ (52 + e) < 2 ^ k).
  { rewrite pow2_add. eapply Qle_lt_trans; [|exact Hv].
    apply Qmult_le_compat_r; [|apply Qlt_le_weak, pow2_pos].
    rewrite <- inject_pow2 by lia. rewrite <- Zle_Qle. exact Blo. }
  apply Qpower_lt_compat_l_inv in H; [lia | reflexivity].
Qed.

Lemma pnormal_exp_ge (m : positive) (e k : Z) :
  Zpos (digits2_pos m) = 53%Z ->
  2 ^ k <= B2Q (S754_finite false m e) -> (k - 52 <= e)%Z.
Proof.
  intros Hd Hv. cbn [B2Q] in Hv.
  pose proof (digits2_pos_bounds m) as [_ Bhi]. rewrite Hd in Bhi.
  assert (H : 2 ^ k < 2 ^ (53 + e)).
  { rewrite pow2_add. eapply Qle_lt_trans; [exact Hv|].
    apply Qmult_lt_compat_r; [apply pow2_pos|].
    rewrite <- inject_pow2 by lia. rewrite <- Zlt_Qlt. exact Bhi. }
  apply Qpower_lt_compat_l_inv in H; [lia | reflexivity].
Qed.

Lemma pnormal_expo_bounds (x : spec_float) (klo khi : Z) :
  pnormal x -> 2 ^ klo <= B2Q x -> B2Q x < 2 ^ khi ->
  (klo - 52 <= expo x <= khi - 53)%Z.
Proof.
  intros [m e Hd He] Hlo Hhi. cbn [expo]. split.
  - eapply pnormal_exp_ge; eassumption.
  - eapply pnormal_exp_le; eassumption.
Qed.

Lemma Qmult_le_mono_nonneg (a a' b b' : Q) :
  0 <= a -> a <= a' -> 0 <= b -> b <= b' -> a * b <= a' * b'.
Proof.
  intros Ha Haa Hb Hbb.
  apply Qle_trans with (a' * b).
  - apply Qmult_le_compat_r; assumption.
  - rewrite (Qmult_comm a' b), (Qmult_comm a' b').
    apply Qmult_le_compat_r; [assumption | lra].
Qed.

Lemma shl_align_same (m : positive) (e : Z) : shl_align m e e = (m, e).
Proof. unfold shl_align. rewrite Z.sub_diag. reflexivity. Qed.

Lemma shl_align_lt (m : positive) (e e' : Z) :
  (e' < e)%Z -> shl_align m e e' = (Pos.iter xO m (Z.to_pos (e - e')), e').
Proof.
  intros H. unfold shl_align.
  destruct (e' - e)%Z as [ | k | k] eqn:Hk; try lia.
  replace (e - e')%Z with (Zpos k) by lia. reflexivity.
Qed.


Lemma Prim2SF_one : Prim2SF 1%float = SFone.
Proof. reflexivity. Qed.

(** [1 - x] for a double [x] in [(0, 1)]. *)
Lemma SFsub_one_Q (x : spec_float) :
  pnormal x -> 2 ^ (-64) <= B2Q x -> B2Q x < 1 ->
  exists z, SF64sub SFone x = z /\ pnormal z /\
    (1 - eps) * (1 - B2Q x) <= B2Q z /\ B2Q z <= (1 + eps) * (1 - B2Q x).
Proof.
  intros Hn Hlo Hhi.
  pose proof (pnormal_expo_bounds x (-64) 0 Hn Hlo Hhi) as He.
  destruct Hn as [m e Hd Hrange]. cbn [expo] in He.
  unfold SF64sub, SFsub, SFone.
  rewrite Z.min_r by lia.
  rewrite shl_align_same, shl_align_lt by lia. cbn [fst cond_Zopp].
  pose proof (iter_xO 4503599627370496 (Z.to_pos (-52 - e))) as Hit.
  rewrite Z2Pos.id in Hit by lia.
  pose proof (digits2_pos_bounds m) as [Blo Bhi]. rewrite Hd in Blo, Bhi.
  assert (Hpow : (4503599627370496 * 2 ^ (-52 - e) = 2 ^ (- e))%Z).
  { change 4503599627370496%Z with (2 ^ 52)%Z. rewrite <- Z.pow_add_r by lia. f_equal. lia. }
  assert (H53 : (2 ^ 53 <= 2 ^ (- e))%Z) by (apply Z.pow_le_mono_r; lia).
  set (big := Pos.iter xO 4503599627370496%positive (Z.to_pos (-52 - e))) in *.
  destruct (Zpos big - Zpos m)%Z as [ | D | D] eqn:HD; try lia.
  cbn [binary_normalize].
  assert (HDv : (Zpos D = 2 ^ (- e) - Zpos m)%Z) by lia.
  pose proof (digits2_pos_bounds D) as [Dlo Dhi].
  set (d := Zpos (digits2_pos D)) in *.
  assert (Hdpos : (0 < d)%Z) by (unfold d; lia).
  assert (Hdle : (d <= - e)%Z).
  { destruct (Z_lt_le_dec (- e) d); [|lia].
    assert (2 ^ (- e) <= 2 ^ (d - 1))%Z by (apply Z.pow_le_mono_r; lia). lia. }
  destruct (binary_round_Q D e) as (z & Hz & Hnz & H1 & H2 & _); fold d; try lia.
  exists z. split; [exact Hz|]. split; [exact Hnz|].
  assert (Heq : inject_Z (Zpos D) * 2 ^ e == 1 - B2Q (S754_finite false m e)).
  { cbn [B2Q]. rewrite HDv, inject_Z_minus, inject_pow2 by lia.
    assert (Hone : 2 ^ (- e) * 2 ^ e == 1).
    { rewrite <- pow2_add. replace (- e + e)%Z with 0%Z by lia. reflexivity. }
    rewrite <- Hone. ring. }
  rewrite <- Heq. split; assumption.
Qed.

Lemma floorSF_Q (m : positive) (e : Z) :
  floorSF (S754_finite false m e) = Qfloor (B2Q (S754_finite false m e)).
Proof.
  cbn [floorSF B2Q]. destruct e as [ | k | k].
  - rewrite Z.pow_0_r, Z.mul_1_r. 
    assert (H : inject_Z (Zpos m) * 2 ^ 0 == inject_Z (Zpos m)) by (rewrite Qpower_0_r; ring).
    rewrite (Qfloor_comp _ _ H), Qfloor_Z. reflexivity.
  - assert (H : inject_Z (Zpos m) * 2 ^ Zpos k == inject_Z (Zpos m * 2 ^ Zpos k)).
    { rewrite inject_Z_mult, inject_pow2 by lia. reflexivity. }
    rewrite (Qfloor_comp _ _ H), Qfloor_Z. reflexivity.
  - rewrite Zdiv_Qdiv. apply Qfloor_comp.
    rewrite inject_pow2 by lia. change (Zneg k) with (- Zpos k)%Z.
    rewrite Qpower_opp. reflexivity.
Qed.

Lemma Z2F_Q (W : Z) :
  (0 < W < 2 ^ 53)%Z ->
  exists z, Prim2SF (Z2F W) = z /\ pnormal z /\ B2Q z == inject_Z W /\
            (-52 <= expo z <= 0)%Z.
Proof.
  intros HW. unfold Z2F. rewrite of_uint63_spec, Uint63.of_Z_spec.
  rewrite Z.mod_small by (change wB with (2 ^ 63)%Z; change (2 ^ 53)%Z with 9007199254740992%Z in HW; change (2 ^ 63)%Z with 9223372036854775808%Z; lia).
  destruct W as [ | w | w]; try lia. cbn [binary_normalize].
  pose proof (digits2_pos_bounds w) as [Dlo Dhi].
  set (d := Zpos (digits2_pos w)) in *.
  assert (Hdpos : (0 < d)%Z) by (unfold d; lia).
  assert (Hdle : (d <= 53)%Z).
  { destruct (Z_lt_le_dec 53 d); [|lia].
    assert (2 ^ 53 <= 2 ^ (d - 1))%Z by (apply Z.pow_le_mono_r; lia). lia. }
  destruct (binary_round_Q w 0) as (z & Hz & Hnz & _ & _ & Hex); fold d; try lia.
  exists z. split; [exact Hz|]. split; [exact Hnz|].
  assert (Hv : B2Q z == inject_Z (Zpos w)).
  { rewrite Hex by lia. rewrite Qpower_0_r. ring. }
  split; [exact Hv|].
  assert (H1 : 2 ^ 0 <= B2Q z).
  { rewrite Hv. change (2 ^ 0) with (inject_Z 1). rewrite <- Zle_Qle. lia. }
  assert (H2 : B2Q z < 2 ^ 53).
  { rewrite Hv. rewrite <- inject_pow2 by lia. rewrite <- Zlt_Qlt. lia. }
  pose proof (pnormal_expo_bounds z 0 53 Hnz H1 H2). lia.
Qed.


Lemma Prim2SF_r : Prim2SF r = S754_finite false 8782019273372467 (-51).
Proof. reflexivity. Qed.

Lemma pnormal_r : pnormal (Prim2SF r).
Proof. rewrite Prim2SF_r. constructor; [reflexivity | lia]. Qed.

(** One application of the logistic map to a double in [[2^-4, 1 - 2^-6]]:
    three roundings, each with relative error at most [eps]. *)
Lemma logistic_Q (s : float) :
  pnormal (Prim2SF s) ->
  2 ^ (-4) <= B2Q (Prim2SF s) -> B2Q (Prim2SF s) <= 1 - 2 ^ (-6) ->
  pnormal (Prim2SF (logistic s)) /\
  (1 - eps) * ((1 - eps) * (Rq * B2Q (Prim2SF s)) * ((1 - eps) * (1 - B2Q (Prim2SF s))))
     <= B2Q (Prim2SF (logistic s)) /\
  B2Q (Prim2SF (logistic s))
     <= (1 + eps) * ((1 + eps) * (Rq * B2Q (Prim2SF s)) * ((1 + eps) * (1 - B2Q (Prim2SF s)))).
Proof.
  intros Hn Hlo Hhi. unfold logistic.
  rewrite !FloatAxioms.mul_spec, FloatAxioms.sub_spec, Prim2SF_one.
  set (x := Prim2SF s) in *. set (v := B2Q x) in *.
  assert (E4 : 2 ^ (-4) == 1 # 16) by reflexivity.
  assert (E6 : 2 ^ (-6) == 1 # 64) by reflexivity.
  rewrite E4 in Hlo. rewrite E6 in Hhi.
  assert (Hex : (-56 <= expo x <= -53)%Z).
  { assert (2 ^ (-4) <= v) by (rewrite E4; exact Hlo).
    assert (v < 2 ^ 0) by (change (2 ^ 0) with 1; lra).
    pose proof (pnormal_expo_bounds x (-4) 0 Hn ltac:(assumption) ltac:(assumption)). lia. }
  assert (HR : 3 <= Rq <= 4) by (split; qle).
  assert (Heps : 0 < eps /\ eps <= 1 # 1024) by (split; [reflexivity | qle]).
  (* r * s *)
  destruct (SFmul_Q (Prim2SF r) x pnormal_r Hn) as (t1 & Ht1 & Hn1 & L1 & U1).
  { rewrite Prim2SF_r. cbn [expo]. lia. }
  fold Rq in L1, U1. fold v in L1, U1. rewrite Ht1.
  assert (Hrv : 3 * (1 # 16) <= Rq * v /\ Rq * v <= 4).
  { split.
    - apply Qmult_le_mono_nonneg; lra.
    - setoid_replace 4 with (4 * 1) by ring. apply Qmult_le_mono_nonneg; lra. }
  assert (Hep1 : 0 <= eps * (Rq * v) /\ eps * (Rq * v) <= (1 # 1024) * 4).
  { split; [apply Qmult_le_0_compat; lra | apply Qmult_le_mono_nonneg; lra]. }
  assert (He1 : (-55 <= expo t1 <= -50)%Z).
  { assert (2 ^ (-3) <= B2Q t1) by (change (2 ^ (-3)) with (1 # 8); lra).
    assert (B2Q t1 < 2 ^ 3) by (change (2 ^ 3) with 8; lra).
    pose proof (pnormal_expo_bounds t1 (-3) 3 Hn1 ltac:(assumption) ltac:(assumption)). lia. }
  (* 1 - s *)
  destruct (SFsub_one_Q x Hn) as (t2 & Ht2 & Hn2 & L2 & U2).
  { eapply Qle_trans; [|exact Hlo]. qle. }
  { fold v. lra. }
  fold v in L2, U2. rewrite Ht2.
  assert (Hep2 : 0 <= eps * (1 - v) /\ eps * (1 - v) <= (1 # 1024) * 1).
  { split; [apply Qmult_le_0_compat; lra | apply Qmult_le_mono_nonneg; lra]. }
  assert (He2 : (-59 <= expo t2 <= -52)%Z).
  { assert (2 ^ (-7) <= B2Q t2) by (change (2 ^ (-7)) with (1 # 128); lra).
    assert (B2Q t2 < 2 ^ 1) by (change (2 ^ 1) with 2; lra).
    pose proof (pnormal_expo_bounds t2 (-7) 1 Hn2 ltac:(assumption) ltac:(assumption)). lia. }
  (* the product *)
  destruct (SFmul_Q t1 t2 Hn1 Hn2) as (t3 & Ht3 & Hn3 & L3 & U3); [lia|].
  rewrite Ht3. split; [exact Hn3|]. split.
  - eapply Qle_trans; [|exact L3].
    apply Qmult_le_mono_nonneg; try lra.
    + apply Qmult_le_0_compat; lra.
    + apply Qmult_le_mono_nonneg; lra.
  - eapply Qle_trans; [exact U3|].
    apply Qmult_le_mono_nonneg; try lra.
    + apply Qmult_le_0_compat; lra.
    + apply Qmult_le_mono_nonneg; lra.
Qed.

Lemma clampUnit_id (v : float) :
  pnormal (Prim2SF v) -> B2Q (Prim2SF v) < 1 -> clampUnit v = v.
Proof.
  intros Hn Hv. unfold clampUnit.
  rewrite !FloatAxioms.leb_spec, Prim2SF_one.
  change (Prim2SF 0) with (S754_zero false).
  assert (Hz : 2 ^ (-1074 + 52) <= B2Q (Prim2SF v)).
  { destruct Hn as [m e Hd He]. cbn [B2Q].
    pose proof (digits2_pos_bounds m) as [Blo _]. rewrite Hd in Blo.
    rewrite pow2_add, (Qmult_comm (2 ^ (-1074))).
    apply Qmult_le_mono_nonneg.
    - apply Qlt_le_weak, pow2_pos.
    - rewrite <- inject_pow2 by lia. rewrite <- Zle_Qle. exact Blo.
    - apply Qlt_le_weak, pow2_pos.
    - apply Qpower_le_compat_l; [lia | lra]. }
  assert (Hv' : B2Q (Prim2SF v) < 2 ^ 0) by exact Hv.
  pose proof (pnormal_expo_bounds _ _ _ Hn Hz Hv') as He.
  destruct Hn as [m e Hd Hr]. cbn [expo] in He.
  unfold SFleb, SFone. cbn [SFcompare].
  destruct (Z.compare_spec (-52) e); try lia. reflexivity.
Qed.





Lemma Rq_grid : onGrid RdnN <= Rq /\ Rq <= onGrid RupN.
Proof. split; qle. Qed.

Lemma onGrid_le (a b : Z) : (a <= b)%Z -> onGrid a <= onGrid b.
Proof.
  intros H. unfold onGrid. apply Qmult_le_compat_r; [|discriminate].
  rewrite <- Zle_Qle. exact H.
Qed.

Lemma log_bounds (v : Q) (a b : Z) :
  (0 <= a)%Z -> (b <= grid)%Z -> onGrid a <= v -> v <= onGrid b ->
  onGrid (logDn a b)
    <= (1 - eps) * ((1 - eps) * (Rq * v) * ((1 - eps) * (1 - v))) /\
  (1 + eps) * ((1 + eps) * (Rq * v) * ((1 + eps) * (1 - v)))
    <= onGrid (logUp a b).
Proof.
  intros Ha Hb Hav Hvb.
  destruct Rq_grid as [RL RU].
  assert (G0 : onGrid 0 == 0) by reflexivity.
  assert (G1 : onGrid grid == 1) by reflexivity.
  assert (HA0 : 0 <= onGrid a) by (pose proof (onGrid_le 0 a Ha); lra).
  assert (HB1 : onGrid b <= 1) by (pose proof (onGrid_le b grid Hb); lra).
  assert (Hab : (a <= b)%Z).
  { destruct (Z_le_gt_dec a b); [assumption|].
    assert (onGrid (b + 1) <= onGrid a) by (apply onGrid_le; lia).
    unfold onGrid in *. rewrite inject_Z_plus in *. change (inject_Z 1) with 1 in *. lra. }
  set (X := Rq * v * (1 - v)).
  assert (HX0 : 0 <= X).
  { unfold X. apply Qmult_le_0_compat; [apply Qmult_le_0_compat|]; try lra.
    pose proof (onGrid_le 0 RdnN ltac:(unfold RdnN; lia)). lra. }
  assert (HRL0 : 0 <= onGrid RdnN) by (pose proof (onGrid_le 0 RdnN ltac:(unfold RdnN; lia)); lra).
  split.
  - (* lower bound *)
    set (N := (RdnN * a * (grid - b))%Z).
    assert (HXN : inject_Z N * (1 # 16777216) * (1 # 16777216) * (1 # 16777216) <= X).
    { unfold X, N. rewrite !inject_Z_mult.
      apply Qle_trans with (onGrid RdnN * onGrid a * (1 - onGrid b)).
      - unfold onGrid. rewrite inject_Z_minus. change (inject_Z grid) with (16777216 # 1). 
        apply Qle_lteq. right. ring.
      - apply Qmult_le_mono_nonneg; try lra.
        + apply Qmult_le_0_compat; lra.
        + apply Qmult_le_mono_nonneg; lra. }
    assert (HN0 : (0 <= N)%Z) by (unfold N, RdnN; nia).
    assert (HNup : (N <= RdnN * grid * grid)%Z) by (unfold N, RdnN, grid in *; nia).
    pose proof (Z.div_mod N (grid * grid) ltac:(unfold grid; lia)) as Hdm.
    pose proof (Z.mod_pos_bound N (grid * grid) ltac:(unfold grid; lia)) as Hmod.
    unfold logDn. fold N. rewrite Z.shiftr_div_pow2 by lia.
    change (2 ^ 48)%Z with (grid * grid)%Z. set (q := (N / (grid * grid))%Z) in *.
    assert (Hq : (0 <= q <= RdnN)%Z).
    { split; [apply Z.div_pos; unfold grid; lia|].
      unfold q. apply Z.div_le_upper_bound; [unfold grid; lia | lia]. }
    assert (HqN : inject_Z q * (16777216 # 1) * (16777216 # 1) <= inject_Z N).
    { change (16777216 # 1) with (inject_Z grid). rewrite <- !inject_Z_mult, <- Zle_Qle. lia. }
    assert (HqR : inject_Z q <= inject_Z RdnN) by (rewrite <- Zle_Qle; lia).
    assert (Hq0 : 0 <= inject_Z q) by (change 0 with (inject_Z 0); rewrite <- Zle_Qle; lia).
    unfold onGrid. rewrite inject_Z_minus. change (inject_Z 1) with 1.
    change (inject_Z RdnN) with (65431142 # 1) in HqR.
    setoid_replace ((1 - eps) * ((1 - eps) * (Rq * v) * ((1 - eps) * (1 - v))))
      with ((1 - eps) * (1 - eps) * (1 - eps) * X) by (unfold X; ring).
    unfold eps.
    lra.
  - (* upper bound *)
    set (N := (RupN * b * (grid - a))%Z).
    assert (HXN : X <= inject_Z N * (1 # 16777216) * (1 # 16777216) * (1 # 16777216)).
    { unfold X, N. rewrite !inject_Z_mult.
      apply Qle_trans with (onGrid RupN * onGrid b * (1 - onGrid a)).
      - apply Qmult_le_mono_nonneg; try lra.
        + apply Qmult_le_0_compat; lra.
        + apply Qmult_le_mono_nonneg; lra.
      - unfold onGrid. rewrite inject_Z_minus. change (inject_Z grid) with (16777216 # 1). 
        apply Qle_lteq. right. ring. }
    assert (HN0 : (0 <= N)%Z) by (unfold N, RupN, grid in *; nia).
    assert (HNup : (N <= RupN * grid * grid)%Z) by (unfold N, RupN, grid in *; nia).
    pose proof (Z.div_mod N (grid * grid) ltac:(unfold grid; lia)) as Hdm.
    pose proof (Z.mod_pos_bound N (grid * grid) ltac:(unfold grid; lia)) as Hmod.
    unfold logUp. fold N. rewrite Z.shiftr_div_pow2 by lia.
    change (2 ^ 48)%Z with (grid * grid)%Z. set (q := (N / (grid * grid))%Z) in *.
    assert (Hq : (0 <= q <= RupN)%Z).
    { split; [apply Z.div_pos; unfold grid; lia|].
      unfold q. apply Z.div_le_upper_bound; [unfold grid; lia | lia]. }
    assert (HqN : inject_Z N <= (inject_Z q + 1) * (16777216 # 1) * (16777216 # 1)).
    { change (16777216 # 1) with (inject_Z grid). change 1 with (inject_Z 1).
      rewrite <- inject_Z_plus, <- !inject_Z_mult, <- Zle_Qle. lia. }
    assert (HqR : inject_Z q <= inject_Z RupN) by (rewrite <- Zle_Qle; lia).
    assert (Hq0 : 0 <= inject_Z q) by (change 0 with (inject_Z 0); rewrite <- Zle_Qle; lia).
    unfold onGrid. rewrite inject_Z_plus. change (inject_Z 2) with 2.
    change (inject_Z RupN) with (65431143 # 1) in HqR.
    setoid_replace ((1 + eps) * ((1 + eps) * (Rq * v) * ((1 + eps) * (1 - v))))
      with ((1 + eps) * (1 + eps) * (1 + eps) * X) by (unfold X; ring).
    unfold eps.
    lra.
Qed.

(** ** The states of the sequencer *)

Lemma cells_checked : forallb cellOK cells = true.
Proof. vm_compute. reflexivity. Qed.

Lemma seeds_checked :
  forallb (fun a => inAttractor (seedOfAccumulator a)) (zrange 0 1000) = true.
Proof. vm_compute. reflexivity. Qed.

Lemma cellOK_all (k : Z) : In k cells -> cellOK k = true.
Proof. exact (proj1 (forallb_forall cellOK cells) cells_checked k). Qed.

Lemma seedOK_all (a : Z) :
  In a (zrange 0 1000) -> inAttractor (seedOfAccumulator a) = true.
Proof.
  exact (proj1 (forallb_forall (fun a => inAttractor (seedOfAccumulator a))
                               (zrange 0 1000)) seeds_checked a).
Qed.

Lemma in_zrange (lo n k : Z) : In k (zrange lo n) <-> (lo <= k < lo + n)%Z.
Proof.
  unfold zrange. rewrite in_map_iff. split.
  - intros (i & <- & Hi). apply in_seq in Hi. lia.
  - intros H. exists (Z.to_nat (k - lo)). split; [lia|]. apply in_seq. lia.
Qed.

Lemma onGrid_cell (k : Z) : onGrid (k * cellW) == inject_Z k * (1 # 1024).
Proof.
  unfold onGrid, cellW. rewrite inject_Z_mult.
  change (inject_Z 16384) with (16384 # 1). ring.
Qed.

Lemma cell_of (v : Q) :
  onGrid la <= v -> v <= onGrid ub ->
  exists k, In k cells /\ onGrid (k * cellW) <= v /\ v <= onGrid ((k + 1) * cellW).
Proof.
  intros Hlo Hhi.
  unfold la in Hlo. unfold ub in Hhi. rewrite onGrid_cell in Hlo, Hhi.
  change (inject_Z kLo) with 72 in Hlo. change (inject_Z kHi) with 1003 in Hhi.
  pose proof (Qfloor_le (v * 1024)) as F1. pose proof (Qlt_floor (v * 1024)) as F2.
  set (t := Qfloor (v * 1024)) in *.
  rewrite inject_Z_plus in F2. change (inject_Z 1) with 1 in F2.
  assert (Ht : (72 <= t <= 1003)%Z).
  { split.
    - assert (H : (72 < t + 1)%Z); [|lia].
      rewrite Zlt_Qlt, inject_Z_plus.
      change (inject_Z 72) with 72. change (inject_Z 1) with 1. lra.
    - rewrite Zle_Qle. change (inject_Z 1003) with 1003. lra. }
  exists (Z.min t 1002). split; [|split].
  - unfold cells. apply in_zrange. unfold kLo, kHi. lia.
  - rewrite onGrid_cell.
    assert (inject_Z (Z.min t 1002) <= inject_Z t) by (rewrite <- Zle_Qle; lia). lra.
  - rewrite onGrid_cell, inject_Z_plus. change (inject_Z 1) with 1.
    destruct (Z_le_gt_dec t 1002).
    + rewrite Z.min_l by lia. lra.
    + rewrite Z.min_r by lia. change (inject_Z 1002) with 1002. lra.
Qed.

Lemma cells_range (k : Z) : In k cells -> (72 <= k < 1003)%Z.
Proof. unfold cells. rewrite in_zrange. unfold kLo, kHi. lia. Qed.

Lemma okState_bounds (s : float) :
  okState s ->
  2 ^ (-4) <= B2Q (Prim2SF s) /\ B2Q (Prim2SF s) <= 1 - 2 ^ (-6) /\ B2Q (Prim2SF s) < 1.
Proof.
  intros (_ & Hlo & Hhi).
  assert (2 ^ (-4) <= onGrid la) by qle.
  assert (onGrid ub <= 1 - 2 ^ (-6)) by qle.
  assert (onGrid ub < 1) by qlt.
  repeat split; lra.
Qed.

(** The double result of [logistic] on a state of cell [[a, b]]. *)
Lemma logistic_enclosed (s : float) (a b : Z) :
  okState s -> (0 <= a)%Z -> (b <= grid)%Z ->
  onGrid a <= B2Q (Prim2SF s) -> B2Q (Prim2SF s) <= onGrid b ->
  pnormal (Prim2SF (logistic s)) /\
  onGrid (logDn a b) <= B2Q (Prim2SF (logistic s)) /\
  B2Q (Prim2SF (logistic s)) <= onGrid (logUp a b).
Proof.
  intros Hok Ha Hb Hav Hvb.
  destruct (okState_bounds s Hok) as (B1 & B2 & _).
  destruct Hok as (Hn & _ & _).
  destruct (logistic_Q s Hn B1 B2) as (Hn' & L & U).
  destruct (log_bounds (B2Q (Prim2SF s)) a b Ha Hb Hav Hvb) as (L' & U').
  split; [exact Hn'|]. split; lra.
Qed.

Lemma logistic_ok (s : float) : okState s -> okState (logistic s).
Proof.
  intros Hok. pose proof Hok as (Hn & Hlo & Hhi).
  destruct (cell_of _ Hlo Hhi) as (k & Hk & Hka & Hkb).
  pose proof (cells_range k Hk) as Hr.
  pose proof (cellOK_all k Hk) as HOK.
  unfold cellOK in HOK. apply andb_true_iff in HOK. destruct HOK as [H1 H2].
  apply Z.leb_le in H1, H2.
  destruct (logistic_enclosed s (k * cellW) ((k + 1) * cellW) Hok) as (Hn' & L & U);
    try assumption; try (unfold cellW, grid; lia).
  split; [exact Hn'|].
  pose proof (onGrid_le _ _ H1). pose proof (onGrid_le _ _ H2). split; lra.
Qed.

Lemma next_ok (p : ChaosPRNG) :
  okPRNG p ->
  next p = (logistic (prng_state p), with_state p (logistic (prng_state p))) /\
  okState (logistic (prng_state p)).
Proof.
  intros Hok. pose proof (logistic_ok _ Hok) as Hok'.
  split; [|exact Hok'].
  unfold next. rewrite clampUnit_id; [reflexivity | apply Hok' | apply okState_bounds, Hok'].
Qed.

Lemma inAttractor_ok (s : float) : inAttractor s = true -> okState s.
Proof.
  unfold inAttractor, okState. destruct (Prim2SF s) as [ | | | [|] m e]; try discriminate.
  rewrite !andb_true_iff. intros ((((Hd & He1) & He2) & Hlo) & Hhi).
  apply Z.eqb_eq in Hd. apply Z.leb_le in He1, He2.
  apply Qle_bool_iff in Hlo, Hhi.
  split; [constructor; [exact Hd | lia] | split; assumption].
Qed.

Lemma accumulate_range (v : Z) (c : codeunit) :
  (0 <= v)%Z -> (0 <= accumulate v c < 1000)%Z.
Proof.
  intros Hv. unfold accumulate.
  apply Z.rem_bound_pos; lia.
Qed.

Lemma keyAccumulator_range (key : jsstring) : (0 <= keyAccumulator key < 1000)%Z.
Proof.
  unfold keyAccumulator.
  assert (H : forall v, (0 <= v < 1000)%Z -> (0 <= fold_left accumulate key v < 1000)%Z).
  { induction key as [ | c key IH]; intros v Hv; cbn [fold_left]; [exact Hv|].
    apply IH. apply accumulate_range. lia. }
  apply H. lia.
Qed.

Lemma seed_ok (key : jsstring) : okState (generateSeed key).
Proof.
  unfold generateSeed. apply inAttractor_ok.
  apply seedOK_all. apply in_zrange.
  pose proof (keyAccumulator_range key). lia.
Qed.

Lemma newChaosPRNG_ok (key : jsstring) (width height : Z) :
  okPRNG (newChaosPRNG key width height).
Proof. unfold okPRNG, newChaosPRNG. cbn [prng_state]. apply seed_ok. Qed.

(** [Math.floor(s * max)] is the floor of a rational within [eps] of the
    exact product. *)
Lemma floor_mul_Q (s : float) (max : Z) :
  okState s -> (0 < max < 2 ^ 53)%Z ->
  exists y : Q,
    floor (s * Z2F max)%float = Qfloor y /\
    (1 - eps) * (B2Q (Prim2SF s) * inject_Z max) <= y /\
    y <= (1 + eps) * (B2Q (Prim2SF s) * inject_Z max).
Proof.
  intros Hok Hmax.
  destruct (okState_bounds s Hok) as (B1 & _ & B3).
  destruct Hok as (Hn & _ & _).
  destruct (Z2F_Q max Hmax) as (w & Hw & Hnw & Hvw & Hew).
  assert (Hes : (-56 <= expo (Prim2SF s) <= -53)%Z).
  { assert (B2Q (Prim2SF s) < 2 ^ 0) by exact B3.
    pose proof (pnormal_expo_bounds _ (-4) 0 Hn B1 ltac:(assumption)). lia. }
  unfold floor. rewrite FloatAxioms.mul_spec, Hw.
  destruct (SFmul_Q (Prim2SF s) w Hn Hnw) as (z & Hz & Hnz & L & U); [lia|].
  rewrite Hz. exists (B2Q z). split.
  - destruct Hnz as [m e _ _]. apply floorSF_Q.
  - rewrite Hvw in L, U. split; assumption.
Qed.

Lemma floor_mul_range (s : float) (max : Z) :
  okState s -> (0 < max < 2 ^ 53)%Z ->
  (0 <= floor (s * Z2F max)%float < max)%Z.
Proof.
  intros Hok Hmax.
  destruct (floor_mul_Q s max Hok Hmax) as (y & Hy & L & U). rewrite Hy.
  destruct (okState_bounds s Hok) as (B1 & _ & _).
  destruct Hok as (_ & _ & Hub).
  assert (E4 : 2 ^ (-4) == 1 # 16) by reflexivity. rewrite E4 in B1.
  assert (Hubq : onGrid ub == 1003 # 1024) by reflexivity. rewrite Hubq in Hub.
  assert (HM : 1 <= inject_Z max).
  { change 1 with (inject_Z 1). rewrite <- Zle_Qle. lia. }
  set (v := B2Q (Prim2SF s)) in *. set (M := inject_Z max) in *.
  assert (P1 : (1 # 16) * 1 <= v * M) by (apply Qmult_le_mono_nonneg; lra).
  assert (P2 : v * M <= (1003 # 1024) * M).
  { apply Qmult_le_compat_r; lra. }
  unfold eps in *.
  split.
  - change 0%Z with (Qfloor 0). apply Qfloor_resp_le. lra.
  - pose proof (Qfloor_le y) as F. rewrite Zlt_Qlt. fold M. lra.
Qed.

(** The same floor, from an enclosure of the state on the grid. *)
Lemma floor_mul_box (s : float) (max a b : Z) :
  okState s -> (0 < max <= 2 ^ 27)%Z -> (0 <= a)%Z -> (b <= grid)%Z ->
  onGrid a <= B2Q (Prim2SF s) -> B2Q (Prim2SF s) <= onGrid b ->
  (idxLo a max <= floor (s * Z2F max)%float <= idxHi b max)%Z.
Proof.
  intros Hok Hmax Ha Hb Hav Hvb.
  assert (Hmax' : (0 < max < 2 ^ 53)%Z).
  { split; [lia|]. eapply Z.le_lt_trans; [apply Hmax|]. reflexivity. }
  destruct (floor_mul_Q s max Hok Hmax') as (y & Hy & L & U). rewrite Hy.
  destruct (okState_bounds s Hok) as (B1 & _ & B3).
  assert (E4 : 2 ^ (-4) == 1 # 16) by reflexivity. rewrite E4 in B1.
  assert (HM : 1 <= inject_Z max).
  { change 1 with (inject_Z 1). rewrite <- Zle_Qle. lia. }
  assert (HMu : inject_Z max <= 134217728).
  { change 134217728 with (inject_Z (2 ^ 27)). rewrite <- Zle_Qle. lia. }
  set (v := B2Q (Prim2SF s)) in *. set (M := inject_Z max) in *.
  assert (P0 : 0 <= v * M) by (apply Qmult_le_0_compat; lra).
  assert (P1 : v * M <= 1 * M) by (apply Qmult_le_compat_r; lra).
  assert (P2 : onGrid a * M <= v * M) by (apply Qmult_le_compat_r; lra).
  assert (P3 : v * M <= onGrid b * M) by (apply Qmult_le_compat_r; lra).
  unfold idxLo, idxHi. rewrite !Z.shiftr_div_pow2 by lia.
  change (2 ^ 24)%Z with grid. rewrite !Zdiv_Qdiv.
  unfold eps in *. unfold onGrid in P2, P3.
  split; apply Qfloor_resp_le.
  - rewrite inject_Z_minus, inject_Z_mult. fold M.
    change (inject_Z 1) with 1. change (inject_Z grid) with 16777216.
    unfold Qdiv. change (/ 16777216) with (1 # 16777216). lra.
  - rewrite inject_Z_plus, inject_Z_mult. fold M.
    change (inject_Z 1) with 1. change (inject_Z grid) with 16777216.
    unfold Qdiv. change (/ 16777216) with (1 # 16777216). lra.
Qed.

Lemma nextInt_ok (max : Z) (p : ChaosPRNG) :
  okPRNG p ->
  nextInt max p = (floor (logistic (prng_state p) * Z2F max)%float,
                   with_state p (logistic (prng_state p))).
Proof.
  intros Hok. unfold nextInt. destruct (next_ok p Hok) as [-> _]. reflexivity.
Qed.

(** The three draws of one iteration, on a state of the interval. *)
Lemma drawPosition_eq (p : ChaosPRNG) :
  okPRNG p ->
  let s1 := logistic (prng_state p) in
  let s2 := logistic s1 in
  let s3 := logistic s2 in
  drawPosition p =
    (mkPos (floor (s1 * Z2F (prng_width p))%float)
           (floor (s2 * Z2F (prng_height p))%float)
           (floor (s3 * Z2F 3)%float),
     with_state p s3) /\
  okState s1 /\ okState s2 /\ okState s3.
Proof.
  intros Hok s1 s2 s3.
  assert (H1 : okState s1) by (apply logistic_ok; exact Hok).
  assert (H2 : okState s2) by (apply logistic_ok; exact H1).
  assert (H3 : okState s3) by (apply logistic_ok; exact H2).
  split; [|auto].
  unfold drawPosition.
  rewrite (nextInt_ok _ p Hok).
  rewrite (nextInt_ok _ (with_state p s1) H1).
  rewrite (nextInt_ok _ (with_state (with_state p s1) s2) H2).
  reflexivity.
Qed.

Lemma drawPosition_wf (p : ChaosPRNG) :
  okPRNG p ->
  (0 < prng_width p < 2 ^ 53)%Z -> (0 < prng_height p < 2 ^ 53)%Z ->
  wf_position (prng_width p) (prng_height p) (fst (drawPosition p)) /\
  okPRNG (snd (drawPosition p)) /\
  prng_width (snd (drawPosition p)) = prng_width p /\
  prng_height (snd (drawPosition p)) = prng_height p.
Proof.
  intros Hok HW HH.
  destruct (drawPosition_eq p Hok) as (-> & H1 & H2 & H3). cbn [fst snd].
  split; [|split; [exact H3 | split; reflexivity]].
  unfold wf_position. cbn [pos_x pos_y pos_channel].
  split; [|split]; apply floor_mul_range; try assumption. split; reflexivity.
Qed.

Lemma onGrid_max (a b : Z) (v : Q) : onGrid a <= v -> onGrid b <= v -> onGrid (Z.max a b) <= v.
Proof. intros Ha Hb. destruct (Z.max_spec a b) as [[_ ->] | [_ ->]]; assumption. Qed.

Lemma onGrid_min (a b : Z) (v : Q) : v <= onGrid a -> v <= onGrid b -> v <= onGrid (Z.min a b).
Proof. intros Ha Hb. destruct (Z.min_spec a b) as [[_ ->] | [_ ->]]; assumption. Qed.

Lemma in_allPositions (width height : Z) (q : position) :
  wf_position width height q -> In q (allPositions width height).
Proof.
  intros (Hx & Hy & Hc). unfold allPositions.
  apply in_flat_map. exists (pos_x q). split; [apply in_zrange; lia|].
  apply in_flat_map. exists (pos_y q). split; [apply in_zrange; lia|].
  apply in_map_iff. exists (pos_channel q). split; [destruct q; reflexivity | apply in_zrange; lia].
Qed.

Lemma drawPosition_reachable (p : ChaosPRNG) :
  okPRNG p ->
  (0 < prng_width p <= 2 ^ 27)%Z -> (0 < prng_height p <= 2 ^ 27)%Z ->
  In (fst (drawPosition p)) (reachable (prng_width p) (prng_height p)).
Proof.
  intros Hok HW HH.
  assert (HW' : (0 < prng_width p < 2 ^ 53)%Z).
  { split; [lia|]. eapply Z.le_lt_trans; [apply HW | reflexivity]. }
  assert (HH' : (0 < prng_height p < 2 ^ 53)%Z).
  { split; [lia|]. eapply Z.le_lt_trans; [apply HH | reflexivity]. }
  destruct (drawPosition_wf p Hok HW' HH') as (Hwf & _).
  destruct (drawPosition_eq p Hok) as (Heq & H1 & H2 & H3).
  rewrite Heq in *. cbn [fst] in *. clear Heq.
  set (s1 := logistic (prng_state p)) in *.
  set (s2 := logistic s1) in *. set (s3 := logistic s2) in *.
  unfold reachable. apply filter_In. split; [apply in_allPositions; exact Hwf|].
  apply existsb_exists.
  pose proof H1 as (_ & L1 & U1).
  destruct (cell_of _ L1 U1) as (k & Hk & Hka & Hkb).
  pose proof (cells_range k Hk) as Hr.
  exists (boxOf (prng_width p) (prng_height p) k). split; [apply in_map; exact Hk|].
  unfold boxOf.
  set (a1 := (k * cellW)%Z) in *. set (b1 := ((k + 1) * cellW)%Z) in *.
  assert (Ha1 : (0 <= a1)%Z) by (unfold a1, cellW; lia).
  assert (Hb1 : (b1 <= grid)%Z) by (unfold b1, cellW, grid; lia).
  destruct (logistic_enclosed s1 a1 b1 H1 Ha1 Hb1 Hka Hkb) as (_ & L2 & U2). fold s2 in L2, U2.
  set (a2 := Z.max la (logDn a1 b1)). set (b2 := Z.min ub (logUp a1 b1)).
  pose proof H2 as (_ & L2' & U2').
  assert (Ha2v : onGrid a2 <= B2Q (Prim2SF s2)) by (apply onGrid_max; assumption).
  assert (Hb2v : B2Q (Prim2SF s2) <= onGrid b2) by (apply onGrid_min; assumption).
  assert (Ha2 : (0 <= a2)%Z) by (unfold a2, la, kLo, cellW; lia).
  assert (Hb2 : (b2 <= grid)%Z) by (unfold b2, ub, kHi, cellW, grid; lia).
  destruct (logistic_enclosed s2 a2 b2 H2 Ha2 Hb2 Ha2v Hb2v) as (_ & L3 & U3). fold s3 in L3, U3.
  set (a3 := Z.max la (logDn a2 b2)). set (b3 := Z.min ub (logUp a2 b2)).
  pose proof H3 as (_ & L3' & U3').
  assert (Ha3v : onGrid a3 <= B2Q (Prim2SF s3)) by (apply onGrid_max; assumption).
  assert (Hb3v : B2Q (Prim2SF s3) <= onGrid b3) by (apply onGrid_min; assumption).
  assert (Ha3 : (0 <= a3)%Z) by (unfold a3, la, kLo, cellW; lia).
  assert (Hb3 : (b3 <= grid)%Z) by (unfold b3, ub, kHi, cellW, grid; lia).
  pose proof (floor_mul_box s1 (prng_width p) a1 b1 H1 HW Ha1 Hb1 Hka Hkb) as Bx.
  pose proof (floor_mul_box s2 (prng_height p) a2 b2 H2 HH Ha2 Hb2 Ha2v Hb2v) as By.
  assert (H3r : (0 < 3 <= 2 ^ 27)%Z) by (split; [lia | discriminate]).
  pose proof (floor_mul_box s3 3 a3 b3 H3 H3r Ha3 Hb3 Ha3v Hb3v) as Bc.
  unfold inBox. cbn [xlo xhi ylo yhi clo chi pos_x pos_y pos_channel].
  rewrite !andb_true_iff, !Z.leb_le. lia.
Qed.

Close Scope Q_scope.

(** ** The rejection loop *)

Lemma position_eqb_eq (a b : position) : position_eqb a b = true <-> a = b.
Proof.
  unfold position_eqb. rewrite !andb_true_iff, !Z.eqb_eq.
  destruct a, b; cbn. split.
  - intros [[-> ->] ->]. reflexivity.
  - intros H. inversion H. auto.
Qed.

Lemma has_In (usedPositions : list position) (q : position) :
  has usedPositions q = true <-> In q usedPositions.
Proof.
  unfold has. rewrite existsb_exists. split.
  - intros (x & Hx & Heq). apply position_eqb_eq in Heq. subst. exact Hx.
  - intros H. exists q. split; [exact H | apply position_eqb_eq; reflexivity].
Qed.

Lemma has_false (usedPositions : list position) (q : position) :
  has usedPositions q = false <-> ~ In q usedPositions.
Proof.
  rewrite <- has_In. destruct (has usedPositions q); split; intros; congruence.
Qed.

(** *** Invariants of the rejection loop *)

Section SequencerInvariant.
Variable Inv : ChaosPRNG -> Prop.
Variable Good : position -> Prop.
Hypothesis step :
  forall p, Inv p -> Good (fst (drawPosition p)) /\ Inv (snd (drawPosition p)).

Lemma drawUnique_inv (fuel : nat) (usedPositions : list position) :
  forall p q p', Inv p ->
    drawUnique fuel usedPositions p = Done (q, p') ->
    Good q /\ Inv p' /\ ~ In q usedPositions.
Proof.
  induction fuel as [ | fuel IH]; intros p q p' Hp Hd; cbn [drawUnique] in Hd.
  - discriminate.
  - destruct (step p Hp) as [Hg Hi].
    destruct (drawPosition p) as [q0 p0] eqn:Hdraw. cbn [fst snd] in *.
    destruct (has usedPositions q0) eqn:Hhas.
    + eapply IH; eassumption.
    + inversion Hd; subst. apply has_false in Hhas. auto.
Qed.

Lemma generateLoop_inv (fuel n : nat) :
  forall usedPositions sequence p sequence' p', Inv p ->
    generateLoop fuel n usedPositions sequence p = Done (sequence', p') ->
    exists fresh,
      sequence' = sequence ++ fresh /\ length fresh = n /\ NoDup fresh /\
      Forall Good fresh /\ (forall q, In q fresh -> ~ In q usedPositions) /\
      Inv p'.
Proof.
  induction n as [ | n IH]; intros used sequence p sequence' p' Hp Hg;
    cbn [generateLoop] in Hg.
  - inversion Hg; subst. exists []. rewrite app_nil_r.
    repeat split; auto using NoDup_nil.
  - unfold bind in Hg.
    destruct (drawUnique fuel used p) as [[q p1] | | ] eqn:Hd; try discriminate.
    destruct (drawUnique_inv _ _ _ _ _ Hp Hd) as (Hgq & Hp1 & Hnin).
    destruct (IH _ _ _ _ _ Hp1 Hg) as (fresh & -> & Hlen & Hnd & Hall & Hnew & Hp').
    exists (q :: fresh). rewrite <- app_assoc. cbn [app length].
    repeat split; auto.
    + constructor; [|exact Hnd]. intros Hin. apply (Hnew q Hin). left. reflexivity.
    + intros q' [<- | Hin]; [exact Hnin|].
      intros Hu. apply (Hnew q' Hin). right. exact Hu.
Qed.
End SequencerInvariant.

(** No part of the sequencer throws. *)
Lemma drawUnique_no_throw (fuel : nat) (usedPositions : list position) :
  forall p msg, drawUnique fuel usedPositions p <> Thrown msg.
Proof.
  induction fuel as [ | fuel IH]; intros p msg; cbn [drawUnique]; [discriminate|].
  destruct (drawPosition p) as [q p']. destruct (has usedPositions q); [apply IH | discriminate].
Qed.

Lemma generateLoop_no_throw (fuel n : nat) :
  forall usedPositions sequence p msg,
    generateLoop fuel n usedPositions sequence p <> Thrown msg.
Proof.
  induction n as [ | n IH]; intros used sequence p msg; cbn [generateLoop]; [discriminate|].
  unfold bind. destruct (drawUnique fuel used p) as [[q p1] | m | ] eqn:Hd.
  - apply IH.
  - exfalso. exact (drawUnique_no_throw _ _ _ _ Hd).
  - discriminate.
Qed.

Lemma generatePixelSequence_no_throw (fuel : nat) (count : Z) (p : ChaosPRNG) (msg : string) :
  generatePixelSequence fuel count p <> Thrown msg.
Proof. apply generateLoop_no_throw. Qed.

(** *** More fuel never changes a result *)

Lemma drawUnique_mono (fuel fuel' : nat) (usedPositions : list position) :
  (fuel <= fuel')%nat ->
  forall p r, drawUnique fuel usedPositions p = Done r ->
              drawUnique fuel' usedPositions p = Done r.
Proof.
  revert fuel'. induction fuel as [ | fuel IH]; intros fuel' Hle p r Hd; cbn [drawUnique] in Hd.
  - discriminate.
  - destruct fuel' as [ | fuel']; [lia|]. cbn [drawUnique].
    destruct (drawPosition p) as [q p']. destruct (has usedPositions q).
    + apply IH; [lia | exact Hd].
    + exact Hd.
Qed.

Lemma generateLoop_mono (fuel fuel' n : nat) :
  (fuel <= fuel')%nat ->
  forall usedPositions sequence p r,
    generateLoop fuel n usedPositions sequence p = Done r ->
    generateLoop fuel' n usedPositions sequence p = Done r.
Proof.
  intros Hle. induction n as [ | n IH]; intros used sequence p r Hg; cbn [generateLoop] in *.
  - exact Hg.
  - unfold bind in *.
    destruct (drawUnique fuel used p) as [[q p1] | | ] eqn:Hd; try discriminate.
    rewrite (drawUnique_mono _ _ _ Hle _ _ Hd). apply IH. exact Hg.
Qed.

Lemma generatePixelSequence_mono (fuel fuel' : nat) (count : Z) (p : ChaosPRNG) r :
  (fuel <= fuel')%nat ->
  generatePixelSequence fuel count p = Done r ->
  generatePixelSequence fuel' count p = Done r.
Proof. intros Hle. apply generateLoop_mono. exact Hle. Qed.

(** *** What a returned sequence looks like *)

Lemma generatePixelSequence_sound (fuel : nat) (count : Z) (p : ChaosPRNG)
  (sequence : list position) (p' : ChaosPRNG) :
  okPRNG p -> dimsOK p ->
  generatePixelSequence fuel count p = Done (sequence, p') ->
  length sequence = Z.to_nat count /\ NoDup sequence /\
  Forall (wf_position (prng_width p) (prng_height p)) sequence /\
  okPRNG p' /\ prng_width p' = prng_width p /\ prng_height p' = prng_height p.
Proof.
  intros Hok [HW HH] Hg. unfold generatePixelSequence in Hg.
  destruct (generateLoop_inv
              (fun p0 => okPRNG p0 /\ prng_width p0 = prng_width p /\
                         prng_height p0 = prng_height p)
              (wf_position (prng_width p) (prng_height p))) 
    with (fuel := fuel) (n := Z.to_nat count) (usedPositions := @nil position)
         (sequence := @nil position) (p := p) (sequence' := sequence) (p' := p')
    as (fresh & Heq & Hlen & Hnd & Hall & _ & Hinv); auto.
  - intros p0 (Hok0 & Hw0 & Hh0).
    destruct (drawPosition_wf p0 Hok0) as (Hwf & Hok1 & Hw1 & Hh1);
      try (rewrite ?Hw0, ?Hh0; assumption).
    rewrite Hw0, Hh0 in Hwf. rewrite Hw1, Hh1. auto.
  - cbn [app] in Heq. subst fresh. tauto.
Qed.

Lemma generatePixelSequence_reachable (fuel : nat) (count : Z) (p : ChaosPRNG)
  (sequence : list position) (p' : ChaosPRNG) :
  okPRNG p -> 0 < prng_width p <= 2 ^ 27 -> 0 < prng_height p <= 2 ^ 27 ->
  generatePixelSequence fuel count p = Done (sequence, p') ->
  incl sequence (reachable (prng_width p) (prng_height p)).
Proof.
  intros Hok HW HH Hg. unfold generatePixelSequence in Hg.
  assert (HW' : 0 < prng_width p < 2 ^ 53).
  { split; [lia|]. eapply Z.le_lt_trans; [apply HW | reflexivity]. }
  assert (HH' : 0 < prng_height p < 2 ^ 53).
  { split; [lia|]. eapply Z.le_lt_trans; [apply HH | reflexivity]. }
  destruct (generateLoop_inv
              (fun p0 => okPRNG p0 /\ prng_width p0 = prng_width p /\
                         prng_height p0 = prng_height p)
              (fun q => In q (reachable (prng_width p) (prng_height p))))
    with (fuel := fuel) (n := Z.to_nat count) (usedPositions := @nil position)
         (sequence := @nil position) (p := p) (sequence' := sequence) (p' := p')
    as (fresh & Heq & _ & _ & Hall & _ & _); auto.
  - intros p0 (Hok0 & Hw0 & Hh0).
    destruct (drawPosition_wf p0 Hok0) as (_ & Hok1 & Hw1 & Hh1);
      try (rewrite ?Hw0, ?Hh0; assumption).
    pose proof (drawPosition_reachable p0 Hok0) as Hr. rewrite Hw0, Hh0 in Hr.
    rewrite Hw1, Hh1. auto.
  - cbn [app] in Heq. subst fresh. intros q Hq. rewrite Forall_forall in Hall. auto.
Qed.

(** A call for more locations than the stream can reach never returns. *)
Lemma generatePixelSequence_starves (fuel : nat) (count : Z) (p : ChaosPRNG) :
  okPRNG p -> 0 < prng_width p <= 2 ^ 27 -> 0 < prng_height p <= 2 ^ 27 ->
  Z.of_nat (length (reachable (prng_width p) (prng_height p))) < count ->
  generatePixelSequence fuel count p = Timeout.
Proof.
  intros Hok HW HH Hcount.
  destruct (generatePixelSequence fuel count p) as [[sequence p'] | msg | ] eqn:Hg.
  - exfalso.
    assert (HW' : 0 < prng_width p < 2 ^ 53).
    { split; [lia|]. eapply Z.le_lt_trans; [apply HW | reflexivity]. }
    assert (HH' : 0 < prng_height p < 2 ^ 53).
    { split; [lia|]. eapply Z.le_lt_trans; [apply HH | reflexivity]. }
    destruct (generatePixelSequence_sound _ _ _ _ _ Hok (conj HW' HH') Hg) as (Hlen & Hnd & _).
    pose proof (generatePixelSequence_reachable _ _ _ _ _ Hok HW HH Hg) as Hincl.
    pose proof (NoDup_incl_length Hnd Hincl). lia.
  - exfalso. exact (generatePixelSequence_no_throw _ _ _ _ Hg).
  - reflexivity.
Qed.

Lemma length_zrange (lo n : Z) : length (zrange lo n) = Z.to_nat n.
Proof. unfold zrange. rewrite length_map, length_seq. reflexivity. Qed.

Lemma length_flat_map_const {A B : Type} (f : A -> list B) (l : list A) (k : nat) :
  (forall a, length (f a) = k) -> length (flat_map f l) = (length l * k)%nat.
Proof.
  intros H. induction l as [ | a l IH]; cbn [flat_map length]; [reflexivity|].
  rewrite length_app, H, IH. lia.
Qed.

Lemma length_allPositions (width height : Z) :
  0 <= width -> 0 <= height ->
  Z.of_nat (length (allPositions width height)) = width * height * 3.
Proof.
  intros HW HH. unfold allPositions.
  rewrite (length_flat_map_const _ _ (Z.to_nat height * 3)%nat).
  - rewrite length_zrange. lia.
  - intros x. rewrite (length_flat_map_const _ _ 3%nat).
    + rewrite length_zrange. reflexivity.
    + intros y. rewrite length_map, length_zrange. reflexivity.
Qed.

(** A call for more than [width * height * 3] locations never returns. *)
Lemma generatePixelSequence_overfull (fuel : nat) (count : Z) (p : ChaosPRNG) :
  okPRNG p -> dimsOK p ->
  prng_width p * prng_height p * 3 < count ->
  generatePixelSequence fuel count p = Timeout.
Proof.
  intros Hok Hd Hcount.
  destruct (generatePixelSequence fuel count p) as [[sequence p'] | msg | ] eqn:Hg.
  - exfalso.
    destruct (generatePixelSequence_sound _ _ _ _ _ Hok Hd Hg) as (Hlen & Hnd & Hwf & _).
    assert (Hincl : incl sequence (allPositions (prng_width p) (prng_height p))).
    { intros q Hq. apply in_allPositions. rewrite Forall_forall in Hwf. auto. }
    pose proof (NoDup_incl_length Hnd Hincl) as Hle.
    destruct Hd as [HW HH].
    pose proof (length_allPositions (prng_width p) (prng_height p) ltac:(lia) ltac:(lia)). lia.
  - exfalso. exact (generatePixelSequence_no_throw _ _ _ _ Hg).
  - reflexivity.
Qed.

(** *** The key is read by [generateSeed] only *)

Lemma next_rekey (k : jsstring) (p : ChaosPRNG) :
  next (rekey k p) = (fst (next p), rekey k (snd (next p))).
Proof. reflexivity. Qed.

Lemma nextInt_rekey (k : jsstring) (max : Z) (p : ChaosPRNG) :
  nextInt max (rekey k p) = (fst (nextInt max p), rekey k (snd (nextInt max p))).
Proof. reflexivity. Qed.

Lemma drawPosition_rekey (k : jsstring) (p : ChaosPRNG) :
  drawPosition (rekey k p) = (fst (drawPosition p), rekey k (snd (drawPosition p))).
Proof.
  unfold drawPosition.
  rewrite nextInt_rekey. change (prng_width (rekey k p)) with (prng_width p).
  destruct (nextInt (prng_width p) p) as [x p1]. cbn [fst snd].
  rewrite nextInt_rekey. change (prng_height (rekey k p1)) with (prng_height p1).
  destruct (nextInt (prng_height p1) p1) as [y p2]. cbn [fst snd].
  rewrite nextInt_rekey.
  destruct (nextInt 3 p2) as [c p3]. reflexivity.
Qed.

Lemma drawUnique_rekey (k : jsstring) (fuel : nat) (usedPositions : list position) :
  forall p,
    drawUnique fuel usedPositions (rekey k p) =
    mapOutcome (fun r => (fst r, rekey k (snd r))) (drawUnique fuel usedPositions p).
Proof.
  induction fuel as [ | fuel IH]; intros p; cbn [drawUnique]; [reflexivity|].
  rewrite drawPosition_rekey. destruct (drawPosition p) as [q p']. cbn [fst snd].
  destruct (has usedPositions q); [apply IH | reflexivity].
Qed.

Lemma generateLoop_rekey (k : jsstring) (fuel n : nat) :
  forall usedPositions sequence p,
    generateLoop fuel n usedPositions sequence (rekey k p) =
    mapOutcome (fun r => (fst r, rekey k (snd r)))
               (generateLoop fuel n usedPositions sequence p).
Proof.
  induction n as [ | n IH]; intros used sequence p; cbn [generateLoop]; [reflexivity|].
  rewrite drawUnique_rekey. unfold bind.
  destruct (drawUnique fuel used p) as [[q p1] | | ]; cbn [mapOutcome fst snd];
    [apply IH | reflexivity | reflexivity].
Qed.

Lemma generatePixelSequence_rekey (k : jsstring) (fuel : nat) (count : Z) (p : ChaosPRNG) :
  generatePixelSequence fuel count (rekey k p) =
  mapOutcome (fun r => (fst r, rekey k (snd r))) (generatePixelSequence fuel count p).
Proof. apply generateLoop_rekey. Qed.

Lemma newChaosPRNG_rekey (k1 k2 : jsstring) (width height : Z) :
  keyAccumulator k1 = keyAccumulator k2 ->
  newChaosPRNG k2 width height = rekey k2 (newChaosPRNG k1 width height).
Proof.
  intros H. unfold newChaosPRNG, rekey, generateSeed.
  cbn [prng_key prng_width prng_height prng_totalPixels prng_seed prng_state].
  rewrite H. reflexivity.
Qed.

Lemma positionsOf_rekey (k : jsstring) (fuel : nat) (count : Z) (p : ChaosPRNG) :
  positionsOf (generatePixelSequence fuel count (rekey k p)) =
  positionsOf (generatePixelSequence fuel count p).
Proof.
  rewrite generatePixelSequence_rekey.
  destruct (generatePixelSequence fuel count p) as [[sequence p'] | | ]; reflexivity.
Qed.

Lemma encode_rekey (fuel : nat) (im : ImageData) (message k1 k2 : jsstring) :
  keyAccumulator k1 = keyAccumulator k2 ->
  encode fuel im message k2 = encode fuel im message k1.
Proof.
  intros H. unfold encode. rewrite (newChaosPRNG_rekey k1 k2 _ _ H).
  rewrite generatePixelSequence_rekey. unfold bind.
  destruct (generatePixelSequence _ _ (newChaosPRNG k1 _ _)) as [[sequence p'] | | ];
    reflexivity.
Qed.

Lemma decode_try_rekey (fuel : nat) (im : ImageData) (k : jsstring) (p : ChaosPRNG) :
  decode_try fuel im (rekey k p) = decode_try fuel im p.
Proof.
  unfold decode_try. rewrite generatePixelSequence_rekey. unfold bind.
  destruct (generatePixelSequence fuel 32 p) as [[lengthSequence p1] | | ];
    cbn [mapOutcome fst snd]; try reflexivity.
  destruct (_ || _); [reflexivity|].
  rewrite generatePixelSequence_rekey.
  destruct (generatePixelSequence fuel _ p1) as [[messageSequence p2] | | ]; reflexivity.
Qed.

Lemma decode_rekey (fuel : nat) (im : ImageData) (k1 k2 : jsstring) :
  keyAccumulator k1 = keyAccumulator k2 ->
  decode fuel im k2 = decode fuel im k1.
Proof.
  intros H. unfold decode. rewrite (newChaosPRNG_rekey k1 k2 _ _ H).
  rewrite decode_try_rekey. reflexivity.
Qed.

(** *** Fuel and results of [encode] and [decode] *)

Lemma encode_no_throw (fuel : nat) (im : ImageData) (message key : jsstring) (msg : string) :
  encode fuel im message key <> Thrown msg.
Proof.
  unfold encode, bind.
  destruct (generatePixelSequence _ _ _) as [[sequence p'] | m | ] eqn:Hg; try discriminate.
  exfalso. exact (generatePixelSequence_no_throw _ _ _ _ Hg).
Qed.

Lemma encode_mono (fuel fuel' : nat) (im : ImageData) (message key : jsstring) r :
  (fuel <= fuel')%nat ->
  encode fuel im message key = Done r -> encode fuel' im message key = Done r.
Proof.
  intros Hle. unfold encode, bind.
  destruct (generatePixelSequence fuel _ _) as [[sequence p'] | m | ] eqn:Hg; try discriminate.
  rewrite (generatePixelSequence_mono _ _ _ _ _ Hle Hg). auto.
Qed.

Lemma decode_mono (fuel fuel' : nat) (im : ImageData) (key : jsstring) r :
  (fuel <= fuel')%nat ->
  decode fuel im key = Done r -> decode fuel' im key = Done r.
Proof.
  intros Hle. unfold decode, decode_try, bind, try_catch_null.
  destruct (generatePixelSequence fuel 32 _) as [[lengthSequence p1] | m | ] eqn:Hg.
  - rewrite (generatePixelSequence_mono _ _ _ _ _ Hle Hg).
    destruct (_ || _); [auto|].
    destruct (generatePixelSequence fuel _ p1) as [[messageSequence p2] | m | ] eqn:Hg2.
    + rewrite (generatePixelSequence_mono _ _ _ _ _ Hle Hg2). auto.
    + exfalso. exact (generatePixelSequence_no_throw _ _ _ _ Hg2).
    + discriminate.
  - exfalso. exact (generatePixelSequence_no_throw _ _ _ _ Hg).
  - discriminate.
Qed.

(** *** The payload *)

Lemma length_padStart_ge (len : nat) (s : binary) : (len <= length (padStart len s))%nat.
Proof. unfold padStart. rewrite length_app, repeat_length. lia. Qed.

Lemma length_stringToBinary_ge (str : jsstring) :
  (16 * length str <= length (stringToBinary str))%nat.
Proof.
  induction str as [ | c str IH]; cbn [stringToBinary length]; [lia|].
  rewrite length_app. pose proof (length_padStart_ge 16 (toString2 c)). lia.
Qed.

Lemma length_payload_ge (message : jsstring) :
  32 + 16 * Z.of_nat (length message) <= Z.of_nat (length (payload message)).
Proof.
  unfold payload. rewrite length_app.
  pose proof (length_padStart_ge 32 (toString2 (N.of_nat (length (stringToBinary message))))).
  pose proof (length_stringToBinary_ge message). lia.
Qed.

Lemma encode_payload (fuel : nat) (im : ImageData) (message key : jsstring) :
  encode fuel im message key =
  mapOutcome (fun r => mkImage (embed (img_width im) (fst r) (payload message) (img_data im))
                               (img_width im) (img_height im))
    (generatePixelSequence fuel (Z.of_nat (length (payload message)))
       (newChaosPRNG key (img_width im) (img_height im))).
Proof.
  unfold encode, payload, bind.
  destruct (generatePixelSequence _ _ _) as [[sequence p'] | | ]; reflexivity.
Qed.

(** *** Reads and writes of a typed array *)

Lemma length_replaceNth (n : nat) (v : Z) (l : list Z) :
  length (replaceNth n v l) = length l.
Proof.
  revert n. induction l as [ | h t IH]; intros [ | n]; cbn [replaceNth length]; auto.
Qed.

Lemma nth_error_replaceNth_same (n : nat) (v : Z) (l : list Z) :
  (n < length l)%nat -> nth_error (replaceNth n v l) n = Some v.
Proof.
  revert n. induction l as [ | h t IH]; intros [ | n] Hn; cbn [replaceNth length nth_error] in *;
    try lia; auto. apply IH. lia.
Qed.

Lemma nth_error_replaceNth_other (n m : nat) (v : Z) (l : list Z) :
  n <> m -> nth_error (replaceNth n v l) m = nth_error l m.
Proof.
  revert n m. induction l as [ | h t IH]; intros [ | n] [ | m] Hnm;
    cbn [replaceNth nth_error]; auto; try congruence.
Qed.

Lemma length_setIndex (data : list Z) (i v : Z) : length (setIndex data i v) = length data.
Proof. unfold setIndex. destruct (i <? 0); [reflexivity | apply length_replaceNth]. Qed.

Lemma getIndex_setIndex_other (data : list Z) (i j v : Z) :
  i <> j -> getIndex (setIndex data i v) j = getIndex data j.
Proof.
  intros Hij. unfold getIndex, setIndex.
  destruct (j <? 0) eqn:Hj; [reflexivity|]. destruct (i <? 0) eqn:Hi; [reflexivity|].
  apply Z.ltb_ge in Hi, Hj. apply nth_error_replaceNth_other. lia.
Qed.

Lemma getIndex_setIndex_same (data : list Z) (i v : Z) :
  0 <= i < Z.of_nat (length data) -> getIndex (setIndex data i v) i = Some (clamp8 v).
Proof.
  intros Hi. unfold getIndex, setIndex.
  destruct (i <? 0) eqn:Hneg; [apply Z.ltb_lt in Hneg; lia|].
  apply nth_error_replaceNth_same. lia.
Qed.

Lemma getIndex_Some_range (data : list Z) (i v : Z) :
  getIndex data i = Some v -> 0 <= i < Z.of_nat (length data).
Proof.
  unfold getIndex. destruct (i <? 0) eqn:Hneg; [discriminate|].
  intros H. apply Z.ltb_ge in Hneg.
  assert (nth_error data (Z.to_nat i) <> None) by congruence.
  apply nth_error_Some in H0. lia.
Qed.

Lemma getIndex_forallb (data : list Z) (i v : Z) (f : Z -> bool) :
  forallb f data = true -> getIndex data i = Some v -> f v = true.
Proof.
  intros Hall Hget. unfold getIndex in Hget. destruct (i <? 0); [discriminate|].
  apply nth_error_In in Hget. rewrite forallb_forall in Hall. auto.
Qed.

Lemma stego_byte_checked :
  forallb (fun old => isByte (Z.lor (Z.land old 254) 0) && isByte (Z.lor (Z.land old 254) 1)
                      && (Z.land (Z.lor (Z.land old 254) 0) 254 =? Z.land old 254)
                      && (Z.land (Z.lor (Z.land old 254) 1) 254 =? Z.land old 254))
          (zrange 0 256) = true.
Proof. vm_compute. reflexivity. Qed.

(** The new byte is a byte, and keeps the seven high bits of the old one. *)
Lemma stego_byte (old : Z) (b : bool) :
  isByte old = true ->
  isByte (Z.lor (Z.land old 254) (bitOf b)) = true /\
  Z.land (Z.lor (Z.land old 254) (bitOf b)) 254 = Z.land old 254.
Proof.
  intros Hb. unfold isByte in Hb. apply andb_true_iff in Hb. destruct Hb as [H0 H1].
  apply Z.leb_le in H0. apply Z.ltb_lt in H1.
  pose proof (proj1 (forallb_forall _ _) stego_byte_checked old) as H.
  cbv beta in H. rewrite !andb_true_iff, !Z.eqb_eq in H.
  destruct H as [[[Ha Hb] Hc] Hd]; [apply in_zrange; lia|].
  destruct b; cbn [bitOf]; auto.
Qed.

Lemma clamp8_byte (v : Z) : isByte v = true -> clamp8 v = v.
Proof.
  unfold isByte, clamp8. rewrite andb_true_iff, Z.leb_le, Z.ltb_lt. lia.
Qed.

(** *** The embedding loop *)

Lemma embed_length (width : Z) (pixelSequence : list position) :
  forall fullBinary data,
    length (embed width pixelSequence fullBinary data) = length data.
Proof.
  induction pixelSequence as [ | q qs IH]; intros [ | b bs] data; cbn [embed]; auto.
  rewrite IH. apply length_setIndex.
Qed.

Lemma embed_other (width : Z) (pixelSequence : list position) (i : Z) :
  forall fullBinary data,
    (forall q, In q pixelSequence -> offsetOf width q <> i) ->
    getIndex (embed width pixelSequence fullBinary data) i = getIndex data i.
Proof.
  induction pixelSequence as [ | q qs IH]; intros [ | b bs] data Hall; cbn [embed]; auto.
  rewrite IH by (intros q' Hq'; apply Hall; right; exact Hq').
  apply getIndex_setIndex_other. apply Hall. left. reflexivity.
Qed.

Lemma embed_selected (width : Z) (pixelSequence : list position) :
  forall fullBinary data j q b old,
    NoDup (map (offsetOf width) pixelSequence) ->
    nth_error pixelSequence j = Some q -> nth_error fullBinary j = Some b ->
    getIndex data (offsetOf width q) = Some old -> isByte old = true ->
    getIndex (embed width pixelSequence fullBinary data) (offsetOf width q)
      = Some (Z.lor (Z.land old 254) (bitOf b)).
Proof.
  induction pixelSequence as [ | q0 qs IH]; intros bits data j q b old Hnd Hq Hb Hold Hbyte.
  - destruct j; discriminate.
  - destruct bits as [ | b0 bs]; [destruct j; discriminate|].
    cbn [map] in Hnd. inversion Hnd as [ | ? ? Hnotin Hnd']; subst.
    cbn [embed]. fold (offsetOf width q0).
    destruct j as [ | j]; cbn [nth_error] in Hq, Hb.
    + inversion Hq; inversion Hb; subst.
      rewrite embed_other.
      * rewrite getIndex_setIndex_same by (eapply getIndex_Some_range; eassumption).
        rewrite Hold. cbn [bitAnd]. rewrite clamp8_byte; [reflexivity|].
        apply stego_byte. exact Hbyte.
      * intros q' Hq' Heq. apply Hnotin. rewrite <- Heq. apply in_map. exact Hq'.
    + assert (Hne : offsetOf width q0 <> offsetOf width q).
      { intros Heq. apply Hnotin. rewrite Heq. apply in_map.
        eapply nth_error_In. exact Hq. }
      eapply IH; try eassumption.
      rewrite getIndex_setIndex_other by exact Hne. exact Hold.
Qed.

(** *** Offsets of well-formed locations *)

Lemma offsetOf_range (width height : Z) (q : position) :
  0 < width -> 0 < height -> wf_position width height q ->
  0 <= offsetOf width q < width * height * 4 /\
  offsetOf width q mod 4 = pos_channel q.
Proof.
  intros HW HH (Hx & Hy & Hc). unfold offsetOf, pixelIndex. split.
  - nia.
  - rewrite Z.add_comm, Z.mod_add by lia. apply Z.mod_small. lia.
Qed.

Lemma offsetOf_inj (width height : Z) (q1 q2 : position) :
  0 < width -> wf_position width height q1 -> wf_position width height q2 ->
  offsetOf width q1 = offsetOf width q2 -> q1 = q2.
Proof.
  intros HW (Hx1 & Hy1 & Hc1) (Hx2 & Hy2 & Hc2) Heq.
  unfold offsetOf, pixelIndex in Heq.
  destruct q1 as [x1 y1 c1], q2 as [x2 y2 c2]. cbn [pos_x pos_y pos_channel] in *.
  assert (Hc : c1 = c2) by lia.
  assert (Hxy : y1 * width + x1 = y2 * width + x2) by lia.
  assert (Hy : y1 = y2) by nia.
  assert (Hx : x1 = x2) by nia.
  subst. reflexivity.
Qed.

Lemma NoDup_offsets (width height : Z) (sequence : list position) :
  0 < width -> Forall (wf_position width height) sequence -> NoDup sequence ->
  NoDup (map (offsetOf width) sequence).
Proof.
  intros HW Hwf Hnd. induction Hnd as [ | q l Hnotin Hnd IH]; cbn [map]; [constructor|].
  inversion Hwf as [ | ? ? Hq Hl]; subst.
  constructor; [|apply IH; exact Hl].
  intros Hin. apply in_map_iff in Hin. destruct Hin as (q' & Heq & Hq').
  rewrite Forall_forall in Hl.
  assert (q' = q) by (eapply offsetOf_inj; eauto). subst. contradiction.
Qed.

(** *** The store *)

Lemma length_updateAt {A : Type} (n : nat) (f : A -> A) (l : list A) :
  length (updateAt n f l) = length l.
Proof.
  revert n. induction l as [ | x t IH]; intros [ | n]; cbn [updateAt length]; auto.
Qed.

Lemma updateAt_app_last {A : Type} (f : A -> A) (l : list A) (x : A) :
  updateAt (length l) f (l ++ [x]) = l ++ [f x].
Proof.
  induction l as [ | y t IH]; cbn [updateAt length app]; [reflexivity|].
  rewrite IH. reflexivity.
Qed.

Lemma embedAt_last (width : Z) (pixelSequence : list position) :
  forall fullBinary (h : store) (arr : list Z),
    embedAt width pixelSequence fullBinary (length h) (h ++ [arr]) =
    h ++ [embed width pixelSequence fullBinary arr].
Proof.
  induction pixelSequence as [ | q qs IH]; intros [ | b bs] h arr; cbn [embedAt embed]; auto.
  unfold arrayAt. rewrite nth_middle, updateAt_app_last. apply IH.
Qed.

Lemma arrayAt_app_old (h : store) (arr : list Z) (a : nat) :
  (a < length h)%nat -> arrayAt (h ++ [arr]) a = arrayAt h a.
Proof. intros H. unfold arrayAt. apply app_nth1. exact H. Qed.

Lemma arrayAt_app_new (h : store) (arr : list Z) : arrayAt (h ++ [arr]) (length h) = arr.
Proof. unfold arrayAt. apply nth_middle. Qed.

(** *** Length and distinctness need no assumption on the state *)

Lemma generatePixelSequence_length (fuel : nat) (count : Z) (p : ChaosPRNG)
  (sequence : list position) (p' : ChaosPRNG) :
  generatePixelSequence fuel count p = Done (sequence, p') ->
  length sequence = Z.to_nat count /\ NoDup sequence.
Proof.
  intros Hg. unfold generatePixelSequence in Hg.
  destruct (generateLoop_inv (fun _ => True) (fun _ => True)) 
    with (fuel := fuel) (n := Z.to_nat count) (usedPositions := @nil position)
         (sequence := @nil position) (p := p) (sequence' := sequence) (p' := p')
    as (fresh & Heq & Hlen & Hnd & _); auto.
  cbn [app] in Heq. subst fresh. auto.
Qed.

Lemma positionsOf_Done (o : outcome (list position * ChaosPRNG)) (sequence : list position) :
  positionsOf o = Done sequence -> exists p', o = Done (sequence, p').
Proof.
  destruct o as [[s p'] | | ]; cbn [positionsOf]; intros H; inversion H; subst. eauto.
Qed.

Lemma roundTrip_mono (fuel fuel' : nat) (im : ImageData) (message key1 key2 : jsstring) r :
  (fuel <= fuel')%nat ->
  roundTrip fuel im message key1 key2 = Done r ->
  roundTrip fuel' im message key1 key2 = Done r.
Proof.
  intros Hle. unfold roundTrip, bind.
  destruct (encode fuel im message key1) as [enc | | ] eqn:He; try discriminate.
  rewrite (encode_mono _ _ _ _ _ _ Hle He). apply decode_mono. exact Hle.
Qed.

Lemma decode_via_sequences (fuel : nat) (im : ImageData) (key : jsstring) :
  decode fuel im key =
  try_catch_null
    (mapOutcome (fun r => Some (binaryToString (extract (img_width im) (img_data im) (snd r))))
                (decodeSequences fuel im key)).
Proof.
  unfold decode, decode_try, decodeSequences, bind.
  destruct (generatePixelSequence fuel 32 _) as [[lengthSequence p1] | | ]; try reflexivity.
  destruct (_ || _); [reflexivity|].
  destruct (generatePixelSequence fuel _ p1) as [[messageSequence p2] | | ]; reflexivity.
Qed.

Lemma length_binaryToString_from (groups : nat) :
  forall bin, (length bin <= 16 * groups)%nat ->
    Z.of_nat (length (binaryToString_from groups bin)) = (Z.of_nat (length bin) + 15) / 16.
Proof.
  induction groups as [ | g IH]; intros bin Hlen.
  - destruct bin; [reflexivity | cbn [length] in Hlen; lia].
  - cbn [binaryToString_from]. destruct bin as [ | b bin']; [reflexivity|].
    set (bin := b :: bin') in *. cbn [length]. rewrite Nat2Z.inj_succ, IH.
    + rewrite length_skipn.
      destruct (Nat.le_gt_cases 16 (length bin)) as [Hge | Hlt].
      * replace (Z.of_nat (length bin) + 15) with ((Z.of_nat (length bin - 16) + 15) + 1 * 16) by lia.
        rewrite Z.div_add by lia. lia.
      * replace (length bin - 16)%nat with 0%nat by lia.
        assert (0 < length bin)%nat by (unfold bin; cbn [length]; lia).
        change (Z.of_nat 0 + 15) with 15. change (15 / 16) with 0.
        apply Z.div_unique with (r := Z.of_nat (length bin) - 1); lia.
    + rewrite length_skipn. lia.
Qed.

Lemma length_binaryToString (bin : binary) :
  Z.of_nat (length (binaryToString bin)) = (Z.of_nat (length bin) + 15) / 16.
Proof. apply length_binaryToString_from. lia. Qed.

Lemma length_extract (width : Z) (data : list Z) (sequence : list position) :
  length (extract width data sequence) = length sequence.
Proof. unfold extract. apply length_map. Qed.

(** ** Blank strings *)





(** ** The claims *)

(** *** C1: round trip *)

(** C1 (the code fails it). Encoding the message "A" with key "abc" into a
    20x20 image whose bytes are all 100 returns, and decoding the result with
    the same key returns the one-unit string U+0000, not "A"; more fuel does
    not change that. *)
Theorem C1_round_trip_fails (fuel : nat) :
  (1000 <= fuel)%nat ->
  roundTrip fuel (solidImage 20 20 100) (js "A") (js "abc") (js "abc")
    = Done (Some [0%N]) /\
  [0%N] <> js "A".
Proof.
  intros Hfuel. split; [|discriminate].
  apply (roundTrip_mono 1000 fuel); [exact Hfuel|].
  vm_compute. reflexivity.
Qed.

Lemma C1_round_trip_fails_witness :
  roundTrip 1000 (solidImage 20 20 100) (js "A") (js "abc") (js "abc") = Done (Some [0%N]).
Proof. exact (proj1 (C1_round_trip_fails 1000 (le_n 1000))). Defined.

(** *** C2: the uniqueness set of [decode] *)

(** Each of the two calls of [decode] returns pairwise distinct locations:
    32 for the header and as many as the header says for the body. *)
Lemma decodeSequences_distinct_per_call (fuel : nat) (im : ImageData)
  (key : jsstring) (lengthSequence messageSequence : list position) :
  decodeSequences fuel im key = Done (lengthSequence, messageSequence) ->
  length lengthSequence = 32%nat /\ NoDup lengthSequence /\
  NoDup messageSequence /\
  length messageSequence =
    N.to_nat (parseInt2 (extract (img_width im) (img_data im) lengthSequence)).
Proof.
  unfold decodeSequences, bind. intros H.
  destruct (generatePixelSequence fuel 32 _) as [[hdr p1] | | ] eqn:Hh; try discriminate.
  destruct (_ || _); [discriminate|].
  destruct (generatePixelSequence fuel _ p1) as [[body p2] | | ] eqn:Hb; try discriminate.
  inversion H; subst.
  destruct (generatePixelSequence_length _ _ _ _ _ Hh) as [Hl1 Hn1].
  destruct (generatePixelSequence_length _ _ _ _ _ Hb) as [Hl2 Hn2].
  repeat split; try assumption.
  rewrite Hl2. lia.
Qed.

(** C2 (the code fails it). [decode] draws the header and the body in two
    calls, each with a fresh [usedPositions]: decoding the image that
    [encode] made from "A" and key "abc" (a 20x20 image of bytes 100) draws
    the location (9, 19, red) for header bit 4 and again for body bit 1. *)
Theorem C2_body_reuses_header_location :
  match encode 1000 (solidImage 20 20 100) (js "A") (js "abc") with
  | Done encoded =>
      match decodeSequences 1000 encoded (js "abc") with
      | Done (lengthSequence, messageSequence) =>
          nth_error lengthSequence 4 = Some (mkPos 9 19 0) /\
          nth_error messageSequence 1 = Some (mkPos 9 19 0)
      | _ => False
      end
  | _ => False
  end.
Proof. vm_compute. split; reflexivity. Qed.

(** *** C3: capacity *)

(** C3 fails in the code: [encode] makes no capacity check and throws
    nothing, so no call fails with a capacity error; when the payload has
    more bits than [width * height * 3] the call does not return, whatever
    the fuel. *)
Theorem C3_encode_over_capacity (fuel : nat) (im : ImageData) (message key : jsstring) :
  0 < img_width im < 2 ^ 53 -> 0 < img_height im < 2 ^ 53 ->
  (forall msg, encode fuel im message key <> Thrown msg) /\
  (img_width im * img_height im * 3 < 32 + 16 * Z.of_nat (length message) ->
   encode fuel im message key = Timeout).
Proof.
  intros HW HH. split; [intros msg; apply encode_no_throw|].
  intros Hcap. rewrite encode_payload.
  rewrite generatePixelSequence_overfull; [reflexivity | apply newChaosPRNG_ok | split; assumption |].
  cbn [newChaosPRNG prng_width prng_height].
  pose proof (length_payload_ge message). lia.
Qed.

Lemma C3_encode_over_capacity_witness :
  encode 5000 (solidImage 2 2 100) (js "Hi") (js "abc") = Timeout.
Proof.
  apply (C3_encode_over_capacity 5000 (solidImage 2 2 100) (js "Hi") (js "abc"));
    cbn [solidImage img_width img_height]; try (split; [lia | reflexivity]).
  vm_compute. reflexivity.
Defined.

Lemma reachable_2_2 : length (reachable 2 2) = 10%nat.
Proof. vm_compute. reflexivity. Qed.

Lemma reachable_4_4 : length (reachable 4 4) = 15%nat.
Proof. vm_compute. reflexivity. Qed.

Lemma starved_2_2 (key : jsstring) (fuel : nat) (count : Z) :
  10 < count -> generatePixelSequence fuel count (newChaosPRNG key 2 2) = Timeout.
Proof.
  intros Hc. apply generatePixelSequence_starves.
  - apply newChaosPRNG_ok.
  - cbn [newChaosPRNG prng_width]. split; [lia | discriminate].
  - cbn [newChaosPRNG prng_height]. split; [lia | discriminate].
  - cbn [newChaosPRNG prng_width prng_height]. rewrite reachable_2_2. exact Hc.
Qed.

Lemma starved_4_4 (key : jsstring) (fuel : nat) (count : Z) :
  15 < count -> generatePixelSequence fuel count (newChaosPRNG key 4 4) = Timeout.
Proof.
  intros Hc. apply generatePixelSequence_starves.
  - apply newChaosPRNG_ok.
  - cbn [newChaosPRNG prng_width]. split; [lia | discriminate].
  - cbn [newChaosPRNG prng_height]. split; [lia | discriminate].
  - cbn [newChaosPRNG prng_width prng_height]. rewrite reachable_4_4. exact Hc.
Qed.

(** Both halves of C3 on the inputs it names: "Hi" with key "abc" on a 2x2
    image (64 bits for 12 places) never fails with an error, and "A" with
    key "abc" on a 4x4 image (48 bits for 48 places) never succeeds: neither
    call returns. *)
Lemma C3_no_error_and_no_success_at_capacity :
  ~ (exists fuel, encode fuel (solidImage 2 2 100) (js "Hi") (js "abc") <> Timeout) /\
  ~ (exists fuel, encode fuel (solidImage 4 4 100) (js "A") (js "abc") <> Timeout).
Proof.
  split; intros [fuel H]; apply H; rewrite encode_payload;
    cbn [solidImage img_width img_height].
  - rewrite starved_2_2; [reflexivity | vm_compute; reflexivity].
  - rewrite starved_4_4; [reflexivity | vm_compute; reflexivity].
Qed.

(** *** C4: termination of the sequencer *)

(** C4 fails in the code: [generatePixelSequence] throws nothing, so it never
    fails fast; a call for more than [width * height * 3] locations does not
    return, whatever the fuel; a call that returns has drawn exactly [count]
    locations. *)
Theorem C4_sequencer_never_fails_fast (fuel : nat) (key : jsstring)
  (width height count : Z) :
  0 < width < 2 ^ 53 -> 0 < height < 2 ^ 53 ->
  let call := generatePixelSequence fuel count (newChaosPRNG key width height) in
  (forall msg, call <> Thrown msg) /\
  (width * height * 3 < count -> call = Timeout) /\
  (forall sequence p', call = Done (sequence, p') -> length sequence = Z.to_nat count).
Proof.
  intros HW HH call. split; [|split].
  - intros msg. apply generatePixelSequence_no_throw.
  - intros Hc. apply generatePixelSequence_overfull;
      [apply newChaosPRNG_ok | split; assumption | exact Hc].
  - intros sequence p' Hd. apply (generatePixelSequence_length _ _ _ _ _ Hd).
Qed.

Lemma C4_sequencer_witness :
  generatePixelSequence 100 4 (newChaosPRNG (js "abc") 1 1) = Timeout.
Proof.
  apply (C4_sequencer_never_fails_fast 100 (js "abc") 1 1 4);
    try (split; [lia | reflexivity]). reflexivity.
Defined.

(** Both halves of C4 on a 2x2 image: a call for 13 locations (one more
    than [width * height * 3]) raises no error, and a call for 12 (within the
    bound) is not total: neither ever returns. *)
Lemma C4_spins_without_error :
  ~ (exists fuel, generatePixelSequence fuel 13 (newChaosPRNG (js "abc") 2 2) <> Timeout) /\
  ~ (exists fuel, generatePixelSequence fuel 12 (newChaosPRNG (js "abc") 2 2) <> Timeout).
Proof.
  split; intros [fuel H]; apply H; apply starved_2_2; reflexivity.
Qed.

(** *** C5: key sensitivity *)

(** C5, as the code has it: a key acts only through its accumulator. Two
    keys with the same accumulator encode alike and decode alike, so decoding
    with the second what was encoded with the first gives what decoding with
    the first gives. *)
Theorem C5_keys_with_equal_accumulators (fuel : nat) (im : ImageData)
  (message key1 key2 : jsstring) :
  keyAccumulator key1 = keyAccumulator key2 ->
  encode fuel im message key2 = encode fuel im message key1 /\
  decode fuel im key2 = decode fuel im key1 /\
  roundTrip fuel im message key1 key2 = roundTrip fuel im message key1 key1.
Proof.
  intros H. split; [apply encode_rekey; exact H|]. split; [apply decode_rekey; exact H|].
  unfold roundTrip, bind. destruct (encode fuel im message key1); try reflexivity.
  apply decode_rekey. exact H.
Qed.

Lemma C5_keys_with_equal_accumulators_witness :
  decode 10 (solidImage 2 2 100) (js "vd") = decode 10 (solidImage 2 2 100) (js "j").
Proof.
  exact (proj1 (proj2 (C5_keys_with_equal_accumulators 10 (solidImage 2 2 100) (js "A")
                         (js "j") (js "vd") eq_refl))).
Defined.

(** C5 fails as stated: the keys "j" and "vd" differ, and decoding with "vd"
    the 128x128 image that holds "A" under key "j" returns "A". *)
Lemma C5_another_key_decodes :
  js "j" <> js "vd" /\
  roundTrip 1000 (solidImage 128 128 100) (js "A") (js "j") (js "vd")
    = Done (Some (js "A")).
Proof. split; [discriminate | vm_compute; reflexivity]. Qed.

(** *** C6: the seed *)

(** C6. The accumulator of every key is an integer of [[0, 1000)]; the seed
    is a function of it, so it is one of the 1000 values
    [seedOfAccumulator 0 .. seedOfAccumulator 999]; and two keys with the same
    accumulator have the same seed and draw the same locations on images of
    the same dimensions. *)
Theorem C6_seed_is_a_function_of_the_accumulator (key1 key2 : jsstring)
  (fuel : nat) (count width height : Z) :
  0 <= keyAccumulator key1 < 1000 /\
  generateSeed key1 = seedOfAccumulator (keyAccumulator key1) /\
  In (generateSeed key1) (map seedOfAccumulator (zrange 0 1000)) /\
  (keyAccumulator key1 = keyAccumulator key2 ->
   generateSeed key1 = generateSeed key2 /\
   positionsOf (generatePixelSequence fuel count (newChaosPRNG key1 width height)) =
   positionsOf (generatePixelSequence fuel count (newChaosPRNG key2 width height))).
Proof.
  pose proof (keyAccumulator_range key1) as Hr.
  split; [exact Hr|]. split; [reflexivity|]. split.
  - unfold generateSeed. apply in_map. apply in_zrange. lia.
  - intros H. split; [unfold generateSeed; rewrite H; reflexivity|].
    rewrite (newChaosPRNG_rekey key1 key2 _ _ H). symmetry. apply positionsOf_rekey.
Qed.

Lemma C6_seed_witness : generateSeed (js "j") = generateSeed (js "vd").
Proof.
  exact (proj1 (proj2 (proj2 (proj2
    (C6_seed_is_a_function_of_the_accumulator (js "j") (js "vd") 0 0 1 1))) eq_refl)).
Defined.

(** *** C7: decode failures *)

(** C7, as the code has it: once the 32 header locations are drawn,
    [decode] returns [null] exactly when the header value [n] is 0 or
    exceeds [width * height * 3]; and a call that returns text returns
    [ceil(n / 16)] code units, the last one read from a group of fewer than
    16 bits when [n] is not a multiple of 16. *)
Theorem C7_decode_null_iff_header_out_of_range (fuel : nat) (im : ImageData)
  (key : jsstring) (lengthSequence : list position) :
  positionsOf (generatePixelSequence fuel 32
                 (newChaosPRNG key (img_width im) (img_height im)))
    = Done lengthSequence ->
  let n := Z.of_N (parseInt2 (extract (img_width im) (img_data im) lengthSequence)) in
  ((n <= 0 \/ img_width im * img_height im * 3 < n) <-> decode fuel im key = Done None) /\
  (forall text, decode fuel im key = Done (Some text) ->
                Z.of_nat (length text) = (n + 15) / 16).
Proof.
  intros Hh n. apply positionsOf_Done in Hh. destruct Hh as [p1 Hh].
  unfold decode, decode_try, bind. rewrite Hh. fold n.
  destruct ((n <=? 0) || (n >? img_width im * img_height im * 3)) eqn:Hbad.
  - cbn [try_catch_null]. split.
    + split; [reflexivity|]. intros _.
      apply orb_true_iff in Hbad. rewrite Z.leb_le, Z.gtb_lt in Hbad. lia.
    + intros text H. discriminate.
  - apply orb_false_iff in Hbad. rewrite Z.leb_gt, Z.gtb_ltb, Z.ltb_ge in Hbad.
    destruct (generatePixelSequence fuel n p1) as [[messageSequence p2] | msg | ] eqn:Hb;
      cbn [try_catch_null].
    + split.
      * split; [lia | discriminate].
      * intros text H. inversion H; subst.
        rewrite length_binaryToString, length_extract.
        destruct (generatePixelSequence_length _ _ _ _ _ Hb) as [Hl _].
        rewrite Hl. rewrite Z2Nat.id by lia. reflexivity.
    + exfalso. exact (generatePixelSequence_no_throw _ _ _ _ Hb).
    + split; [split; [lia | discriminate] | discriminate].
Qed.

Lemma C7_decode_null_witness :
  decode 1000 (solidImage 20 20 100) (js "abc") = Done None.
Proof.
  let v := eval vm_compute in
    (positionsOf (generatePixelSequence 1000 32 (newChaosPRNG (js "abc") 20 20))) in
  match v with
  | Done ?hdr =>
      assert (E : positionsOf (generatePixelSequence 1000 32
                    (newChaosPRNG (js "abc") (img_width (solidImage 20 20 100))
                                  (img_height (solidImage 20 20 100)))) = Done hdr)
        by (vm_compute; reflexivity);
      apply (proj1 (C7_decode_null_iff_header_out_of_range 1000 (solidImage 20 20 100)
                      (js "abc") hdr E));
      left; vm_compute; discriminate
  end.
Defined.

(** C7 fails as stated: under key "abc" the header of [headerFiveImage]
    reads 5, which is not a multiple of 16, and [decode] does not fail: it
    returns a one-unit string read from five bits. *)
Lemma C7_partial_group_is_decoded :
  mapOutcome (fun r => Z.of_N (parseInt2 (extract 20 (img_data headerFiveImage) (fst r))))
             (decodeSequences 1000 headerFiveImage (js "abc")) = Done 5 /\
  decode 1000 headerFiveImage (js "abc") = Done (Some [0%N]).
Proof. split; vm_compute; reflexivity. Qed.

(** *** C8: empty message or key *)




(** *** C9: what [encode] writes *)

(** C9. [encode] leaves every array of the caller as it was and returns a
    new one of the same length. In it, a byte that no location of the
    sequence selects is the input byte, and so is every alpha byte; the byte
    at the [j]-th location is [(old & 0xFE) | bit j]; so every byte keeps the
    seven high bits of the input byte. *)
Theorem C9_encode_frame (fuel : nat) (h : store) (imageData : ImageRef)
  (message key : jsstring) (out : ImageRef) (h' : store) :
  wf_image (imageOf h imageData) ->
  encodeAt fuel h imageData message key = Done (out, h') ->
  let width := ref_width imageData in
  let old := arrayAt h (ref_data imageData) in
  let new := arrayAt h' (ref_data out) in
  (forall a, (a < length h)%nat -> arrayAt h' a = arrayAt h a) /\
  ref_data out = length h /\
  ref_width out = width /\ ref_height out = ref_height imageData /\
  length new = length old /\
  exists pixelSequence,
    positionsOf (generatePixelSequence fuel (Z.of_nat (length (payload message)))
                   (newChaosPRNG key width (ref_height imageData)))
      = Done pixelSequence /\
    (forall i, (forall q, In q pixelSequence -> offsetOf width q <> i) ->
               getIndex new i = getIndex old i) /\
    (forall i, i mod 4 = 3 -> getIndex new i = getIndex old i) /\
    (forall j q b oldByte,
        nth_error pixelSequence j = Some q -> nth_error (payload message) j = Some b ->
        getIndex old (offsetOf width q) = Some oldByte ->
        getIndex new (offsetOf width q) = Some (Z.lor (Z.land oldByte 254) (bitOf b))) /\
    (forall i oldByte newByte,
        getIndex old i = Some oldByte -> getIndex new i = Some newByte ->
        Z.land newByte 254 = Z.land oldByte 254).
Proof.
  intros (Hbytes & HW & HH & Hlen) Henc width old new. subst width old new.
  cbn [imageOf img_data img_width img_height] in Hbytes, HW, HH, Hlen.
  unfold encodeAt, bind in Henc. fold (payload message) in Henc.
  destruct (generatePixelSequence _ _ _) as [[pixelSequence p'] | | ] eqn:Hg; try discriminate.
  unfold allocCopy in Henc. inversion Henc; subst out h'. clear Henc.
  cbn [ref_data ref_width ref_height]. rewrite embedAt_last, arrayAt_app_new.
  set (width := ref_width imageData) in *.
  set (old := arrayAt h (ref_data imageData)) in *.
  destruct (generatePixelSequence_sound _ _ _ _ _ (newChaosPRNG_ok _ _ _)
              (conj HW HH) Hg) as (Hl & Hnd & Hwf & _).
  cbn [newChaosPRNG prng_width prng_height] in Hwf.
  assert (Hoff : NoDup (map (offsetOf width) pixelSequence)).
  { eapply NoDup_offsets; [unfold width; lia | exact Hwf | exact Hnd]. }
  assert (Hsel : forall j q b oldByte,
             nth_error pixelSequence j = Some q -> nth_error (payload message) j = Some b ->
             getIndex old (offsetOf width q) = Some oldByte ->
             getIndex (embed width pixelSequence (payload message) old) (offsetOf width q)
               = Some (Z.lor (Z.land oldByte 254) (bitOf b))).
  { intros j q b oldByte Hq Hb Hold. eapply embed_selected; try eassumption.
    eapply getIndex_forallb; eassumption. }
  split; [intros a Ha; apply arrayAt_app_old; exact Ha|].
  repeat (split; [reflexivity|]).
  split; [apply embed_length|].
  exists pixelSequence. split; [reflexivity|].
  split; [intros i Hi; apply embed_other; exact Hi|].
  split; [|split; [exact Hsel|]].
  - intros i Hi. apply embed_other. intros q Hq Heq.
    rewrite Forall_forall in Hwf. pose proof (Hwf q Hq) as Hq'.
    destruct (offsetOf_range width (ref_height imageData) q) as [_ Hmod];
      [unfold width; lia | lia | exact Hq' |].
    destruct Hq' as (_ & _ & Hc). rewrite Heq in Hmod. lia.
  - intros i oldByte newByte Hold Hnew.
    destruct (in_dec Z.eq_dec i (map (offsetOf width) pixelSequence)) as [Hin | Hnin].
    + apply in_map_iff in Hin. destruct Hin as (q & Heq & Hq). subst i.
      apply In_nth_error in Hq. destruct Hq as [j Hj].
      assert (Hjlt : (j < length (payload message))%nat).
      { assert (Hs : nth_error pixelSequence j <> None) by congruence.
        apply nth_error_Some in Hs. rewrite Hl in Hs. lia. }
      destruct (nth_error (payload message) j) as [b | ] eqn:Hb;
        [|apply nth_error_None in Hb; lia].
      rewrite (Hsel j q b oldByte Hj Hb Hold) in Hnew. inversion Hnew; subst.
      apply stego_byte. eapply getIndex_forallb; eassumption.
    + rewrite embed_other in Hnew.
      * congruence.
      * intros q Hq Heq. apply Hnin. rewrite <- Heq. apply in_map. exact Hq.
Qed.

Lemma C9_encode_frame_witness :
  exists out h',
    encodeAt 1000 [img_data (solidImage 20 20 100)] (mkImageRef 0 20 20)
             (js "A") (js "abc") = Done (out, h') /\
    arrayAt h' 0 = arrayAt [img_data (solidImage 20 20 100)] 0 /\
    ref_data out = 1%nat.
Proof.
  let v := eval vm_compute in
    (encodeAt 1000 [img_data (solidImage 20 20 100)] (mkImageRef 0 20 20)
              (js "A") (js "abc")) in
  match v with
  | Done (?o, ?s) =>
      exists o, s;
      assert (E : encodeAt 1000 [img_data (solidImage 20 20 100)] (mkImageRef 0 20 20)
                    (js "A") (js "abc") = Done (o, s)) by (vm_compute; reflexivity);
      assert (W : wf_image (imageOf [img_data (solidImage 20 20 100)] (mkImageRef 0 20 20)))
        by (unfold wf_image; repeat split; vm_compute; reflexivity);
      split; [exact E|];
      pose proof (C9_encode_frame _ _ _ _ _ _ _ W E) as (Hkeep & Hfresh & _);
      split; [apply Hkeep; cbn [length]; lia | exact Hfresh]
  end.
Defined.

(** *** C10: the locations of one call *)

(** What holds of the locations of a call: a call for at most one location
    returns as soon as it has fuel for one draw, and every call that returns
    has drawn exactly [count] locations, pairwise distinct, each with [x] in
    [[0, width)], [y] in [[0, height)] and channel 0, 1 or 2. *)
Lemma returned_locations (fuel : nat) (key : jsstring) (width height count : Z) :
  0 < width < 2 ^ 53 -> 0 < height < 2 ^ 53 ->
  let call := positionsOf (generatePixelSequence fuel count (newChaosPRNG key width height)) in
  (count <= 1 -> (0 < fuel)%nat -> exists sequence, call = Done sequence) /\
  (forall sequence, call = Done sequence ->
     length sequence = Z.to_nat count /\ NoDup sequence /\
     Forall (wf_position width height) sequence).
Proof.
  intros HW HH call. split.
  - intros Hc Hf. unfold call, generatePixelSequence.
    destruct (Z.to_nat count) as [ | [ | n]] eqn:Hn; try lia.
    + cbn [generateLoop positionsOf]. eauto.
    + destruct fuel as [ | fuel]; [lia|].
      cbn [generateLoop drawUnique bind].
      destruct (drawPosition _) as [q p']. cbn [has existsb bind generateLoop positionsOf].
      eauto.
  - intros sequence Hd. apply positionsOf_Done in Hd. destruct Hd as [p' Hd].
    destruct (generatePixelSequence_sound _ _ _ _ _ (newChaosPRNG_ok _ _ _)
                (conj HW HH) Hd) as (Hl & Hnd & Hwf & _).
    auto.
Qed.

Lemma returned_locations_example :
  exists sequence,
    positionsOf (generatePixelSequence 1000 48 (newChaosPRNG (js "abc") 20 20))
      = Done sequence /\
    length sequence = 48%nat /\ NoDup sequence /\ Forall (wf_position 20 20) sequence.
Proof.
  let v := eval vm_compute in
    (positionsOf (generatePixelSequence 1000 48 (newChaosPRNG (js "abc") 20 20))) in
  match v with
  | Done ?s =>
      exists s;
      assert (E : positionsOf (generatePixelSequence 1000 48 (newChaosPRNG (js "abc") 20 20))
                  = Done s) by (vm_compute; reflexivity);
      split; [exact E|];
      apply (proj2 (returned_locations 1000 (js "abc") 20 20 48
                      (conj eq_refl eq_refl) (conj eq_refl eq_refl)) s E)
  end.
Defined.

(** C10 fails in the code: 12 is within [width * height * 3] for a 2x2
    image, and no call for 12 locations under key "abc" ever returns a
    sequence, whatever the fuel. *)
Theorem C10_call_within_bound_never_returns :
  ~ (exists fuel sequence,
       positionsOf (generatePixelSequence fuel 12 (newChaosPRNG (js "abc") 2 2))
         = Done sequence).
Proof.
  intros (fuel & sequence & H). rewrite starved_2_2 in H by reflexivity. discriminate.
Qed.

(** ** Further properties *)

(** *** Binary digits *)

Lemma parseInt2_app (a b : binary) :
  parseInt2 (a ++ b) =
  fold_left (fun acc (d : bool) => (2 * acc + (if d then 1 else 0))%N) b (parseInt2 a).
Proof. unfold parseInt2. apply fold_left_app. Qed.

Lemma parseInt2_posDigits (p : positive) : parseInt2 (posDigits p) = Npos p.
Proof.
  induction p as [p IH | p IH | ]; cbn [posDigits].
  - rewrite parseInt2_app, IH. reflexivity.
  - rewrite parseInt2_app, IH. reflexivity.
  - reflexivity.
Qed.

Lemma parseInt2_toString2 (n : N) : parseInt2 (toString2 n) = n.
Proof. destruct n as [ | p]; [reflexivity | apply parseInt2_posDigits]. Qed.

Lemma parseInt2_zeros (k : nat) (s : binary) : parseInt2 (repeat false k ++ s) = parseInt2 s.
Proof.
  rewrite parseInt2_app.
  replace (parseInt2 (repeat false k)) with 0%N; [reflexivity|].
  induction k as [ | k IH]; [reflexivity|].
  change (repeat false (S k)) with ([false] ++ repeat false k).
  rewrite parseInt2_app. exact IH.
Qed.

Lemma parseInt2_padStart (len : nat) (s : binary) : parseInt2 (padStart len s) = parseInt2 s.
Proof. apply parseInt2_zeros. Qed.

Lemma length_posDigits_le (p : positive) :
  forall n : nat, (Npos p < 2 ^ N.of_nat n)%N -> (length (posDigits p) <= n)%nat.
Proof.
  induction p as [p IH | p IH | ]; intros n Hn.
  - destruct n as [ | n]; [cbn in Hn; lia|].
    cbn [posDigits]. rewrite length_app. cbn [length].
    rewrite Nat2N.inj_succ, N.pow_succ_r' in Hn.
    specialize (IH n). assert (Npos p < 2 ^ N.of_nat n)%N by lia. apply IH in H. lia.
  - destruct n as [ | n]; [cbn in Hn; lia|].
    cbn [posDigits]. rewrite length_app. cbn [length].
    rewrite Nat2N.inj_succ, N.pow_succ_r' in Hn.
    specialize (IH n). assert (Npos p < 2 ^ N.of_nat n)%N by lia. apply IH in H. lia.
  - destruct n as [ | n]; [cbn in Hn; lia|]. cbn. lia.
Qed.

Lemma length_toString2_le (v : N) (n : nat) :
  (0 < n)%nat -> (v < 2 ^ N.of_nat n)%N -> (length (toString2 v) <= n)%nat.
Proof.
  intros Hn Hv. destruct v as [ | p]; [cbn; lia|]. apply length_posDigits_le. exact Hv.
Qed.

Lemma length_padStart (len : nat) (s : binary) :
  (length s <= len)%nat -> length (padStart len s) = len.
Proof. intros H. unfold padStart. rewrite length_app, repeat_length. lia. Qed.

Lemma length_group (c : codeunit) :
  (c < 65536)%N -> length (padStart 16 (toString2 c)) = 16%nat.
Proof.
  intros Hc. apply length_padStart. apply length_toString2_le; [lia | exact Hc].
Qed.

Lemma length_stringToBinary (str : jsstring) :
  wf_string str -> length (stringToBinary str) = (16 * length str)%nat.
Proof.
  induction 1 as [ | c str Hc _ IH]; [reflexivity|].
  cbn [stringToBinary length]. rewrite length_app, length_group, IH by exact Hc. lia.
Qed.

Lemma binaryToString_from_stringToBinary (str : jsstring) :
  wf_string str ->
  forall groups, (length str <= groups)%nat ->
    binaryToString_from groups (stringToBinary str) = str.
Proof.
  induction 1 as [ | c str Hc _ IH]; intros groups Hg.
  - destruct groups; reflexivity.
  - destruct groups as [ | g]; [cbn in Hg; lia|].
    cbn [stringToBinary binaryToString_from].
    pose proof (length_group c Hc) as Hl.
    destruct (padStart 16 (toString2 c) ++ stringToBinary str) as [ | b0 rest] eqn:Hb.
    { apply (f_equal (@length bool)) in Hb. rewrite length_app, Hl in Hb. cbn in Hb. lia. }
    rewrite <- Hb.
    rewrite <- Hl at 1. rewrite firstn_app, firstn_all, Nat.sub_diag, firstn_O, app_nil_r.
    rewrite <- Hl at 2. rewrite skipn_app, skipn_all, Nat.sub_diag, skipn_O. cbn [app].
    rewrite parseInt2_padStart, parseInt2_toString2.
    unfold fromCharCode. rewrite N.mod_small by exact Hc.
    f_equal. apply IH. cbn [length] in Hg. lia.
Qed.

(** X1. [binaryToString] undoes [stringToBinary]: a string of 16-bit code
    units comes back from its binary form. *)
Theorem binaryToString_stringToBinary (str : jsstring) :
  wf_string str -> binaryToString (stringToBinary str) = str.
Proof.
  intros H. unfold binaryToString. apply binaryToString_from_stringToBinary; [exact H|].
  rewrite length_stringToBinary by exact H. lia.
Qed.

Lemma binaryToString_stringToBinary_witness :
  binaryToString (stringToBinary (js "Hi")) = js "Hi".
Proof.
  apply (binaryToString_stringToBinary (js "Hi")). repeat constructor.
Defined.

(** *** Calls of the sequencer for fewer locations *)

Lemma generateLoop_extends (fuel n : nat) (usedPositions sequence : list position)
  (p : ChaosPRNG) (sequence' : list position) (p' : ChaosPRNG) :
  generateLoop fuel n usedPositions sequence p = Done (sequence', p') ->
  exists fresh, sequence' = sequence ++ fresh /\ length fresh = n.
Proof.
  intros Hg.
  destruct (generateLoop_inv (fun _ => True) (fun _ => True)) 
    with (fuel := fuel) (n := n) (usedPositions := usedPositions)
         (sequence := sequence) (p := p) (sequence' := sequence') (p' := p')
    as (fresh & Heq & Hlen & _); auto.
  exists fresh. auto.
Qed.

(** The loop for [a + b] locations is the loop for [a] followed by the loop
    for [b], which starts with the set the first one has filled. *)
Lemma generateLoop_split (fuel a b : nat) :
  forall usedPositions sequence p,
    generateLoop fuel (a + b) usedPositions sequence p =
    match generateLoop fuel a usedPositions sequence p with
    | Done (s1, p1) =>
        generateLoop fuel b (rev (skipn (length sequence) s1) ++ usedPositions) s1 p1
    | Thrown msg => Thrown msg
    | Timeout => Timeout
    end.
Proof.
  induction a as [ | a IH]; intros used sequence p.
  - cbn [Nat.add generateLoop]. rewrite skipn_all. reflexivity.
  - cbn [Nat.add generateLoop]. unfold bind.
    destruct (drawUnique fuel used p) as [[q p1] | | ] eqn:Hd; try reflexivity.
    rewrite IH.
    destruct (generateLoop fuel a (q :: used) (sequence ++ [q]) p1)
      as [[s1 p2] | | ] eqn:Hg; try reflexivity.
    destruct (generateLoop_extends _ _ _ _ _ _ _ Hg) as (fresh & -> & _).
    assert (A : skipn (length (sequence ++ [q])) ((sequence ++ [q]) ++ fresh) = fresh).
    { rewrite skipn_app, skipn_all, Nat.sub_diag. reflexivity. }
    assert (B : skipn (length sequence) ((sequence ++ [q]) ++ fresh) = q :: fresh).
    { rewrite <- List.app_assoc, skipn_app, skipn_all, Nat.sub_diag. reflexivity. }
    rewrite A, B. cbn [rev].
    replace ((rev fresh ++ [q]) ++ used) with (rev fresh ++ q :: used)
      by (rewrite <- List.app_assoc; reflexivity).
    reflexivity.
Qed.

Lemma generatePixelSequence_firstn (fuel : nat) (m n : Z) (p : ChaosPRNG)
  (sequence : list position) (p' : ChaosPRNG) :
  0 <= m <= n ->
  generatePixelSequence fuel n p = Done (sequence, p') ->
  exists p1,
    generatePixelSequence fuel m p = Done (firstn (Z.to_nat m) sequence, p1) /\
    generateLoop fuel (Z.to_nat (n - m)) (rev (firstn (Z.to_nat m) sequence))
                 (firstn (Z.to_nat m) sequence) p1 = Done (sequence, p').
Proof.
  intros Hm Hg. unfold generatePixelSequence in *.
  replace (Z.to_nat n) with (Z.to_nat m + Z.to_nat (n - m))%nat in Hg by lia.
  rewrite generateLoop_split in Hg.
  destruct (generateLoop fuel (Z.to_nat m) [] [] p) as [[s1 p1] | | ] eqn:H1; try discriminate.
  cbn [length skipn] in Hg. rewrite app_nil_r in Hg.
  destruct (generateLoop_extends _ _ _ _ _ _ _ H1) as (f1 & E1 & L1). cbn [app] in E1. subst f1.
  destruct (generateLoop_extends _ _ _ _ _ _ _ Hg) as (f2 & E2 & L2).
  assert (Hf : firstn (Z.to_nat m) sequence = s1).
  { rewrite E2, <- L1. rewrite firstn_app, firstn_all, Nat.sub_diag, firstn_O. apply app_nil_r. }
  rewrite Hf. exists p1. split; [reflexivity | exact Hg].
Qed.

(** X2. From one sequencer state, a call for [m <= n] locations returns the
    first [m] locations of the call for [n], whenever the latter returns:
    the locations of a short payload are those a longer payload starts
    with. *)
Theorem shorter_call_returns_a_prefix (fuel : nat) (m n : Z) (p : ChaosPRNG)
  (sequence : list position) :
  0 <= m <= n ->
  positionsOf (generatePixelSequence fuel n p) = Done sequence ->
  positionsOf (generatePixelSequence fuel m p) = Done (firstn (Z.to_nat m) sequence).
Proof.
  intros Hm Hd. apply positionsOf_Done in Hd. destruct Hd as [p' Hg].
  destruct (generatePixelSequence_firstn fuel m n p sequence p' Hm Hg) as (p1 & -> & _).
  reflexivity.
Qed.

Lemma shorter_call_returns_a_prefix_witness :
  exists sequence,
    positionsOf (generatePixelSequence 1000 48 (newChaosPRNG (js "abc") 20 20))
      = Done sequence /\
    positionsOf (generatePixelSequence 1000 32 (newChaosPRNG (js "abc") 20 20))
      = Done (firstn 32 sequence).
Proof.
  let v := eval vm_compute in
    (positionsOf (generatePixelSequence 1000 48 (newChaosPRNG (js "abc") 20 20))) in
  match v with
  | Done ?s =>
      exists s;
      assert (E : positionsOf (generatePixelSequence 1000 48 (newChaosPRNG (js "abc") 20 20))
                  = Done s) by (vm_compute; reflexivity);
      split; [exact E|];
      apply (shorter_call_returns_a_prefix 1000 32 48 (newChaosPRNG (js "abc") 20 20) s);
        [lia | exact E]
  end.
Defined.

(** *** Reading back what the embedding loop wrote *)

Lemma lsb_of_stego_byte (old : Z) (b : bool) :
  Z.eqb (Z.land (Z.lor (Z.land old 254) (bitOf b)) 1) 1 = b.
Proof.
  rewrite Z.land_lor_distr_l, <- Z.land_assoc.
  change (Z.land 254 1) with 0. rewrite Z.land_0_r, Z.lor_0_l.
  destruct b; reflexivity.
Qed.

Lemma getIndex_in_range (data : list Z) (i : Z) :
  0 <= i < Z.of_nat (length data) -> exists v, getIndex data i = Some v.
Proof.
  intros Hi. unfold getIndex. destruct (i <? 0) eqn:Hneg; [apply Z.ltb_lt in Hneg; lia|].
  destruct (nth_error data (Z.to_nat i)) as [v | ] eqn:Hn; [eauto|].
  apply nth_error_None in Hn. lia.
Qed.

Lemma extract_embed (width : Z) (pixelSequence : list position) (fullBinary : binary)
  (data : list Z) :
  NoDup (map (offsetOf width) pixelSequence) ->
  length fullBinary = length pixelSequence ->
  forallb isByte data = true ->
  (forall q, In q pixelSequence -> 0 <= offsetOf width q < Z.of_nat (length data)) ->
  extract width (embed width pixelSequence fullBinary data) pixelSequence = fullBinary.
Proof.
  intros Hnd Hlen Hbytes Hrange. apply nth_error_ext. intros j.
  unfold extract. rewrite nth_error_map.
  destruct (nth_error pixelSequence j) as [q | ] eqn:Hq; cbn [option_map].
  - destruct (nth_error fullBinary j) as [b | ] eqn:Hb.
    + destruct (getIndex_in_range data (offsetOf width q)) as [old Hold].
      { apply Hrange. eapply nth_error_In. exact Hq. }
      fold (offsetOf width q).
      rewrite (embed_selected width pixelSequence fullBinary data j q b old Hnd Hq Hb Hold)
        by (eapply getIndex_forallb; eassumption).
      cbn [bitAnd]. rewrite lsb_of_stego_byte. reflexivity.
    + apply nth_error_None in Hb.
      assert (nth_error pixelSequence j <> None) by congruence.
      apply nth_error_Some in H. lia.
  - apply nth_error_None in Hq. symmetry. apply nth_error_None. lia.
Qed.

Lemma extract_firstn (width : Z) (data : list Z) (sequence : list position) (k : nat) :
  extract width data (firstn k sequence) = firstn k (extract width data sequence).
Proof. unfold extract. symmetry. apply firstn_map. Qed.

Lemma extract_skipn (width : Z) (data : list Z) (sequence : list position) (k : nat) :
  extract width data (skipn k sequence) = skipn k (extract width data sequence).
Proof. unfold extract. symmetry. apply skipn_map. Qed.

(** *** The payload of a well-formed message *)

Lemma payload_header (message : jsstring) :
  payload message = header message ++ stringToBinary message.
Proof. reflexivity. Qed.

Lemma length_header (message : jsstring) :
  wf_string message -> 16 * Z.of_nat (length message) < 2 ^ 32 ->
  length (header message) = 32%nat.
Proof.
  intros Hwf Hlen. unfold header. apply length_padStart.
  apply length_toString2_le; [lia|].
  rewrite length_stringToBinary by exact Hwf.
  change (2 ^ N.of_nat 32)%N with (Z.to_N (2 ^ 32)). lia.
Qed.

Lemma parseInt2_header (message : jsstring) :
  wf_string message ->
  Z.of_N (parseInt2 (header message)) = 16 * Z.of_nat (length message).
Proof.
  intros Hwf. unfold header. rewrite parseInt2_padStart, parseInt2_toString2.
  rewrite length_stringToBinary by exact Hwf. lia.
Qed.

Lemma length_payload (message : jsstring) :
  wf_string message -> 16 * Z.of_nat (length message) < 2 ^ 32 ->
  Z.of_nat (length (payload message)) = 32 + 16 * Z.of_nat (length message).
Proof.
  intros Hwf Hlen. rewrite payload_header, length_app, length_header by assumption.
  rewrite length_stringToBinary by exact Hwf. lia.
Qed.

(** *** What [encode] returns, and what [decode] reads in it *)

Lemma encode_Done (fuel : nat) (im : ImageData) (message key : jsstring)
  (encoded : ImageData) :
  wf_image im ->
  encode fuel im message key = Done encoded ->
  exists pixelSequence p',
    generatePixelSequence fuel (Z.of_nat (length (payload message)))
      (newChaosPRNG key (img_width im) (img_height im)) = Done (pixelSequence, p') /\
    encoded = mkImage (embed (img_width im) pixelSequence (payload message) (img_data im))
                      (img_width im) (img_height im) /\
    length pixelSequence = length (payload message) /\
    NoDup pixelSequence /\
    Forall (wf_position (img_width im) (img_height im)) pixelSequence /\
    NoDup (map (offsetOf (img_width im)) pixelSequence) /\
    (forall q, In q pixelSequence ->
       0 <= offsetOf (img_width im) q < Z.of_nat (length (img_data im))) /\
    extract (img_width im) (img_data encoded) pixelSequence = payload message.
Proof.
  intros (Hbytes & HW & HH & Hlen) He. rewrite encode_payload in He.
  destruct (generatePixelSequence _ _ _) as [[pixelSequence p'] | | ] eqn:Hg; try discriminate.
  cbn [mapOutcome fst] in He. inversion He; subst encoded. clear He.
  destruct (generatePixelSequence_sound _ _ _ _ _ (newChaosPRNG_ok _ _ _)
              (conj HW HH) Hg) as (Hl & Hnd & Hwf & _).
  cbn [newChaosPRNG prng_width prng_height] in Hwf.
  rewrite Nat2Z.id in Hl.
  assert (Hoff : NoDup (map (offsetOf (img_width im)) pixelSequence)).
  { eapply NoDup_offsets; [lia | exact Hwf | exact Hnd]. }
  assert (Hrange : forall q, In q pixelSequence ->
             0 <= offsetOf (img_width im) q < Z.of_nat (length (img_data im))).
  { intros q Hq. rewrite Forall_forall in Hwf.
    destruct (offsetOf_range (img_width im) (img_height im) q) as [Hr _];
      [lia | lia | auto | lia]. }
  exists pixelSequence, p'. repeat split; auto.
  - apply Hrange; assumption.
  - apply Hrange; assumption.
  - cbn [img_data]. apply extract_embed; auto.
Qed.

(** The header call of [decode] on an encoded image. *)
Lemma decode_header_of_encoded (fuel : nat) (im : ImageData) (message key : jsstring)
  (encoded : ImageData) :
  wf_image im -> wf_string message -> 16 * Z.of_nat (length message) < 2 ^ 32 ->
  encode fuel im message key = Done encoded ->
  img_width encoded = img_width im /\ img_height encoded = img_height im /\
  32 + 16 * Z.of_nat (length message) <= img_width im * img_height im * 3 /\
  exists pixelSequence p1 p',
    generatePixelSequence fuel (Z.of_nat (length (payload message)))
      (newChaosPRNG key (img_width im) (img_height im)) = Done (pixelSequence, p') /\
    generatePixelSequence fuel 32 (newChaosPRNG key (img_width im) (img_height im))
      = Done (firstn 32 pixelSequence, p1) /\
    extract (img_width im) (img_data encoded) pixelSequence = payload message /\
    extract (img_width im) (img_data encoded) (firstn 32 pixelSequence) = header message.
Proof.
  intros Him Hwf Hlen He. pose proof Him as (Hbytes & HW & HH & Hdata).
  destruct (encode_Done _ _ _ _ _ Him He)
    as (pixelSequence & p' & Hg & -> & Hl & Hnd & Hpos & Hoff & Hrange & Hex).
  cbn [img_width img_height]. split; [reflexivity|]. split; [reflexivity|].
  pose proof (length_payload message Hwf Hlen) as Hpl.
  split.
  - destruct (Z.le_gt_cases (32 + 16 * Z.of_nat (length message))
                            (img_width im * img_height im * 3)) as [Hle | Hgt]; [exact Hle|].
    rewrite generatePixelSequence_overfull in Hg; [discriminate | apply newChaosPRNG_ok | |].
    + split; assumption.
    + cbn [newChaosPRNG prng_width prng_height]. lia.
  - assert (H32 : 0 <= 32 <= Z.of_nat (length (payload message))) by lia.
    destruct (generatePixelSequence_firstn fuel 32 _ _ _ _ H32 Hg) as (p1 & Hh & _).
    exists pixelSequence, p1, p'. split; [exact Hg|]. split; [exact Hh|]. split; [exact Hex|].
    rewrite extract_firstn, Hex, payload_header.
    rewrite <- (length_header message Hwf Hlen) at 1.
    rewrite firstn_app, firstn_all, Nat.sub_diag, firstn_O. apply app_nil_r.
Qed.

(** X3. On an image that [encode] returned, the header call of [decode]
    under the same key returns, and the 32 bits it reads are the length that
    [encode] wrote: 16 times the number of code units of the message. *)
Theorem decode_reads_the_header (fuel : nat) (im : ImageData) (message key : jsstring)
  (encoded : ImageData) :
  wf_image im -> wf_string message -> 16 * Z.of_nat (length message) < 2 ^ 32 ->
  encode fuel im message key = Done encoded ->
  exists lengthSequence prng1,
    generatePixelSequence fuel 32
      (newChaosPRNG key (img_width encoded) (img_height encoded))
      = Done (lengthSequence, prng1) /\
    Z.of_N (parseInt2 (extract (img_width encoded) (img_data encoded) lengthSequence))
      = 16 * Z.of_nat (length message).
Proof.
  intros Him Hwf Hlen He.
  destruct (decode_header_of_encoded _ _ _ _ _ Him Hwf Hlen He)
    as (-> & -> & _ & pixelSequence & p1 & p' & _ & Hh & _ & Hx).
  exists (firstn 32 pixelSequence), p1. split; [exact Hh|].
  rewrite Hx. apply parseInt2_header. exact Hwf.
Qed.

Lemma decode_reads_the_header_witness :
  exists encoded lengthSequence prng1,
    encode 1000 (solidImage 20 20 100) (js "A") (js "abc") = Done encoded /\
    generatePixelSequence 1000 32 (newChaosPRNG (js "abc") 20 20)
      = Done (lengthSequence, prng1) /\
    Z.of_N (parseInt2 (extract 20 (img_data encoded) lengthSequence)) = 16.
Proof.
  let v := eval vm_compute in (encode 1000 (solidImage 20 20 100) (js "A") (js "abc")) in
  match v with
  | Done ?e =>
      assert (E : encode 1000 (solidImage 20 20 100) (js "A") (js "abc") = Done e)
        by (vm_compute; reflexivity);
      assert (W : wf_image (solidImage 20 20 100))
        by (unfold wf_image; repeat split; vm_compute; reflexivity);
      assert (S : wf_string (js "A")) by (repeat constructor);
      assert (L : 16 * Z.of_nat (length (js "A")) < 2 ^ 32) by reflexivity;
      destruct (decode_reads_the_header 1000 (solidImage 20 20 100) (js "A") (js "abc") e
                  W S L E) as (ls & p1 & Hh & Hn);
      exists e, ls, p1; split; [exact E | split; [exact Hh | exact Hn]]
  end.
Defined.

(** X4. On an image that [encode] returned, [decode] under the same key
    returns [null] exactly when the message was empty, and every text it
    returns has as many code units as the message. *)
Theorem decode_of_encoded (fuel : nat) (im : ImageData) (message key : jsstring)
  (encoded : ImageData) :
  wf_image im -> wf_string message -> 16 * Z.of_nat (length message) < 2 ^ 32 ->
  encode fuel im message key = Done encoded ->
  (decode fuel encoded key = Done None <-> message = []) /\
  (forall text, decode fuel encoded key = Done (Some text) ->
                length text = length message).
Proof.
  intros Him Hwf Hlen He.
  destruct (decode_header_of_encoded _ _ _ _ _ Him Hwf Hlen He)
    as (HW & HH & Hcap & pixelSequence & p1 & p' & _ & Hh & _ & Hx).
  unfold decode, decode_try, bind. rewrite HW, HH, Hh, Hx.
  rewrite (parseInt2_header message Hwf).
  set (n := 16 * Z.of_nat (length message)) in *.
  destruct ((n <=? 0) || (n >? img_width im * img_height im * 3)) eqn:Hbad.
  - cbn [try_catch_null]. apply orb_true_iff in Hbad. rewrite Z.leb_le, Z.gtb_lt in Hbad.
    assert (Hm : message = []) by (destruct message; [reflexivity | cbn [length] in n; lia]).
    split; [tauto | discriminate].
  - apply orb_false_iff in Hbad. rewrite Z.leb_gt in Hbad. destruct Hbad as [Hpos _].
    assert (Hm : message <> []) by (intros ->; cbn in Hpos; lia).
    destruct (generatePixelSequence fuel n p1) as [[messageSequence p2] | msg | ] eqn:Hb;
      cbn [try_catch_null].
    + split; [split; [discriminate | contradiction]|].
      intros text H. inversion H; subst text. clear H.
      apply Nat2Z.inj. rewrite length_binaryToString, length_extract.
      destruct (generatePixelSequence_length _ _ _ _ _ Hb) as [Hl _].
      rewrite Hl, Z2Nat.id by lia. unfold n.
      replace (16 * Z.of_nat (length message) + 15)
        with (15 + Z.of_nat (length message) * 16) by lia.
      rewrite Z.div_add by lia. reflexivity.
    + exfalso. exact (generatePixelSequence_no_throw _ _ _ _ Hb).
    + split; [split; [discriminate | contradiction] | discriminate].
Qed.

Lemma decode_of_encoded_witness :
  roundTrip 1000 (solidImage 20 20 100) [] (js "abc") (js "abc") = Done None.
Proof.
  unfold roundTrip.
  let v := eval vm_compute in (encode 1000 (solidImage 20 20 100) [] (js "abc")) in
  match v with
  | Done ?e =>
      assert (E : encode 1000 (solidImage 20 20 100) [] (js "abc") = Done e)
        by (vm_compute; reflexivity);
      assert (W : wf_image (solidImage 20 20 100))
        by (unfold wf_image; repeat split; vm_compute; reflexivity);
      assert (S : wf_string []) by constructor;
      assert (L : 16 * Z.of_nat (length (@nil codeunit)) < 2 ^ 32) by reflexivity;
      rewrite E; cbn [bind];
      apply (proj2 (proj1 (decode_of_encoded 1000 (solidImage 20 20 100) [] (js "abc") e
                             W S L E)));
      reflexivity
  end.
Defined.

(** X5. When the two sequences that [decode] draws, put end to end, are the
    sequence that [encode] drew, [decode] returns the message. *)
Theorem round_trip_when_locations_agree (fuel : nat) (im : ImageData)
  (message key : jsstring) (encoded : ImageData)
  (pixelSequence lengthSequence messageSequence : list position) :
  wf_image im -> wf_string message -> 16 * Z.of_nat (length message) < 2 ^ 32 ->
  encode fuel im message key = Done encoded ->
  positionsOf (generatePixelSequence fuel (Z.of_nat (length (payload message)))
                 (newChaosPRNG key (img_width im) (img_height im)))
    = Done pixelSequence ->
  decodeSequences fuel encoded key = Done (lengthSequence, messageSequence) ->
  lengthSequence ++ messageSequence = pixelSequence ->
  decode fuel encoded key = Done (Some message).
Proof.
  intros Him Hwf Hlen He Hseq Hdec Happ.
  destruct (decode_header_of_encoded _ _ _ _ _ Him Hwf Hlen He)
    as (HW & HH & _ & pixelSequence' & p1 & p' & Hg & _ & Hx & _).
  rewrite Hg in Hseq. cbn [positionsOf] in Hseq. inversion Hseq; subst pixelSequence'.
  clear Hseq.
  rewrite decode_via_sequences, Hdec. cbn [mapOutcome try_catch_null snd].
  assert (Hl : length lengthSequence = 32%nat).
  { unfold decodeSequences, bind in Hdec.
    destruct (generatePixelSequence fuel 32 _) as [[hs ph] | | ] eqn:Hh; try discriminate.
    destruct (generatePixelSequence_length _ _ _ _ _ Hh) as [Hl _].
    destruct (_ || _); [discriminate|].
    destruct (generatePixelSequence fuel _ ph) as [[bs pb] | | ]; try discriminate.
    inversion Hdec; subst. exact Hl. }
  assert (Hm : messageSequence = skipn 32 pixelSequence).
  { rewrite <- Happ, <- Hl, skipn_app, skipn_all, Nat.sub_diag. reflexivity. }
  rewrite HW, Hm, extract_skipn, Hx, payload_header.
  rewrite <- (length_header message Hwf Hlen) at 1.
  rewrite skipn_app, skipn_all, Nat.sub_diag. cbn [app skipn].
  rewrite binaryToString_stringToBinary by exact Hwf. reflexivity.
Qed.

Lemma round_trip_when_locations_agree_witness :
  roundTrip 1000 (solidImage 64 64 100) (js "A") (js "ra") (js "ra") = Done (Some (js "A")).
Proof.
  unfold roundTrip.
  let v := eval vm_compute in (encode 1000 (solidImage 64 64 100) (js "A") (js "ra")) in
  match v with
  | Done ?e =>
      let s := eval vm_compute in
        (positionsOf (generatePixelSequence 1000 (Z.of_nat (length (payload (js "A"))))
                        (newChaosPRNG (js "ra") (img_width (solidImage 64 64 100))
                                      (img_height (solidImage 64 64 100))))) in
      let d := eval vm_compute in (decodeSequences 1000 e (js "ra")) in
      match s with
      | Done ?ps =>
          match d with
          | Done (?hs, ?bs) =>
              assert (E : encode 1000 (solidImage 64 64 100) (js "A") (js "ra") = Done e)
                by (vm_compute; reflexivity);
              assert (W : wf_image (solidImage 64 64 100))
                by (unfold wf_image; repeat split; vm_compute; reflexivity);
              assert (S : wf_string (js "A")) by (repeat constructor);
              assert (L : 16 * Z.of_nat (length (js "A")) < 2 ^ 32) by reflexivity;
              rewrite E; cbn [bind];
              apply (round_trip_when_locations_agree 1000 (solidImage 64 64 100) (js "A")
                       (js "ra") e ps hs bs W S L E);
                [vm_compute; reflexivity | vm_compute; reflexivity | reflexivity]
          end
      end
  end.
Defined.

Lemma In_firstn_In {A : Type} (k : nat) (l : list A) (a : A) :
  In a (firstn k l) -> In a l.
Proof. intros H. rewrite <- (firstn_skipn k l). apply in_or_app. left. exact H. Qed.

Lemma NoDup_firstn_of {A : Type} (k : nat) (l : list A) : NoDup l -> NoDup (firstn k l).
Proof.
  intros H. rewrite <- (firstn_skipn k l) in H. exact (NoDup_app_remove_r _ _ H).
Qed.

(** *** Bytes of the embedded array *)

Lemma clamp8_isByte (v : Z) : isByte (clamp8 v) = true.
Proof. unfold isByte, clamp8. apply andb_true_iff. rewrite Z.leb_le, Z.ltb_lt. lia. Qed.

Lemma forallb_replaceNth (f : Z -> bool) (n : nat) (v : Z) (l : list Z) :
  f v = true -> forallb f l = true -> forallb f (replaceNth n v l) = true.
Proof.
  intros Hv. revert n. induction l as [ | a l IH]; intros n Hl; [destruct n; exact Hl|].
  cbn [forallb] in Hl. apply andb_true_iff in Hl. destruct Hl as [Ha Hl].
  destruct n as [ | n]; cbn [replaceNth forallb]; apply andb_true_iff; auto.
Qed.

Lemma setIndex_bytes (data : list Z) (i v : Z) :
  forallb isByte data = true -> forallb isByte (setIndex data i v) = true.
Proof.
  intros H. unfold setIndex. destruct (i <? 0); [exact H|].
  apply forallb_replaceNth; [apply clamp8_isByte | exact H].
Qed.

Lemma embed_bytes (width : Z) (pixelSequence : list position) :
  forall fullBinary data,
    forallb isByte data = true ->
    forallb isByte (embed width pixelSequence fullBinary data) = true.
Proof.
  induction pixelSequence as [ | q qs IH]; intros [ | b bs] data H; cbn [embed]; auto.
  apply IH. apply setIndex_bytes. exact H.
Qed.

Lemma In_offsets (width : Z) (pixelSequence : list position) (i : Z) :
  In i (map (offsetOf width) pixelSequence) ->
  exists j q, nth_error pixelSequence j = Some q /\ offsetOf width q = i.
Proof.
  intros Hin. apply in_map_iff in Hin. destruct Hin as (q & Hq & Hin).
  apply In_nth_error in Hin. destruct Hin as [j Hj]. eauto.
Qed.

Lemma not_In_offsets (width : Z) (pixelSequence : list position) (i : Z) :
  ~ In i (map (offsetOf width) pixelSequence) ->
  forall q, In q pixelSequence -> offsetOf width q <> i.
Proof. intros Hn q Hq Heq. apply Hn. rewrite <- Heq. apply in_map. exact Hq. Qed.

Lemma nth_error_bit (pixelSequence : list position) (fullBinary : binary)
  (j : nat) (q : position) :
  length fullBinary = length pixelSequence ->
  nth_error pixelSequence j = Some q -> exists b, nth_error fullBinary j = Some b.
Proof.
  intros Hlen Hq. destruct (nth_error fullBinary j) as [b | ] eqn:Hb; [eauto|].
  apply nth_error_None in Hb.
  assert (nth_error pixelSequence j <> None) by congruence.
  apply nth_error_Some in H. lia.
Qed.

(** Every byte of the result is the input byte, or the input byte with its
    last bit replaced. *)
Lemma getIndex_embed_cases (width : Z) (pixelSequence : list position)
  (fullBinary : binary) (data : list Z) (i old : Z) :
  NoDup (map (offsetOf width) pixelSequence) ->
  length fullBinary = length pixelSequence ->
  forallb isByte data = true ->
  getIndex data i = Some old ->
  getIndex (embed width pixelSequence fullBinary data) i = Some old \/
  exists b, getIndex (embed width pixelSequence fullBinary data) i
            = Some (Z.lor (Z.land old 254) (bitOf b)).
Proof.
  intros Hnd Hlen Hbytes Hold.
  destruct (in_dec Z.eq_dec i (map (offsetOf width) pixelSequence)) as [Hin | Hnin].
  - right. destruct (In_offsets _ _ _ Hin) as (j & q & Hq & <-).
    destruct (nth_error_bit _ _ _ _ Hlen Hq) as [b Hb]. exists b.
    eapply embed_selected; try eassumption. eapply getIndex_forallb; eassumption.
  - left. rewrite embed_other; [exact Hold | apply not_In_offsets; exact Hnin].
Qed.

Lemma stego_byte_near_checked :
  forallb (fun old => (Z.abs (Z.lor (Z.land old 254) 0 - old) <=? 1) &&
                      (Z.abs (Z.lor (Z.land old 254) 1 - old) <=? 1))
          (zrange 0 256) = true.
Proof. vm_compute. reflexivity. Qed.

Lemma stego_byte_near (old : Z) (b : bool) :
  isByte old = true -> Z.abs (Z.lor (Z.land old 254) (bitOf b) - old) <= 1.
Proof.
  intros Hb. unfold isByte in Hb. apply andb_true_iff in Hb. destruct Hb as [H0 H1].
  apply Z.leb_le in H0. apply Z.ltb_lt in H1.
  pose proof (proj1 (forallb_forall _ _) stego_byte_near_checked old) as H.
  cbv beta in H. rewrite andb_true_iff, !Z.leb_le in H.
  destruct H as [Ha Hc]; [apply in_zrange; lia|].
  destruct b; cbn [bitOf]; assumption.
Qed.

(** Writing a payload over an array that holds an earlier payload at some of
    the same locations gives what writing it over the original array gives. *)
Lemma embed_over_embed (width : Z) (seq1 seq2 : list position) (bits1 bits2 : binary)
  (data : list Z) :
  NoDup (map (offsetOf width) seq1) -> NoDup (map (offsetOf width) seq2) ->
  incl seq1 seq2 ->
  length bits1 = length seq1 -> length bits2 = length seq2 ->
  forallb isByte data = true ->
  (forall q, In q seq2 -> 0 <= offsetOf width q < Z.of_nat (length data)) ->
  embed width seq2 bits2 (embed width seq1 bits1 data) = embed width seq2 bits2 data.
Proof.
  intros Hnd1 Hnd2 Hincl Hl1 Hl2 Hbytes Hrange.
  apply nth_error_ext. intros n.
  assert (G : forall l : list Z, nth_error l n = getIndex l (Z.of_nat n)).
  { intros l. unfold getIndex. destruct (Z.of_nat n <? 0) eqn:Hneg.
    - apply Z.ltb_lt in Hneg. lia.
    - rewrite Nat2Z.id. reflexivity. }
  rewrite !G. set (i := Z.of_nat n).
  destruct (in_dec Z.eq_dec i (map (offsetOf width) seq2)) as [Hin | Hnin].
  - destruct (In_offsets _ _ _ Hin) as (j & q & Hq & Hi).
    destruct (nth_error_bit _ _ _ _ Hl2 Hq) as [b Hb].
    destruct (getIndex_in_range data i) as [old Hold].
    { rewrite <- Hi. apply Hrange. eapply nth_error_In. exact Hq. }
    assert (Hbyte : isByte old = true) by (eapply getIndex_forallb; eassumption).
    rewrite <- Hi in *.
    rewrite (embed_selected width seq2 bits2 data j q b old Hnd2 Hq Hb Hold Hbyte).
    destruct (getIndex_embed_cases width seq1 bits1 data _ old Hnd1 Hl1 Hbytes Hold)
      as [H1 | [b1 H1]].
    + rewrite (embed_selected width seq2 bits2 _ j q b old Hnd2 Hq Hb H1 Hbyte). reflexivity.
    + rewrite (embed_selected width seq2 bits2 _ j q b _ Hnd2 Hq Hb H1)
        by (apply stego_byte; exact Hbyte).
      destruct (stego_byte old b1 Hbyte) as [_ ->]. reflexivity.
  - pose proof (not_In_offsets _ _ _ Hnin) as Hno.
    rewrite !embed_other; auto.
Qed.

(** X6. Encoding again under the same key overwrites: when encoding
    [message2] returns [encoded2], encoding a message that is not longer
    returns too, and encoding [message2] into that result gives [encoded2]
    again. With [message1 = message2], encoding twice is encoding once. *)
Theorem encode_over_an_encoded_image (fuel : nat) (im : ImageData)
  (message1 message2 key : jsstring) (encoded2 : ImageData) :
  wf_image im -> wf_string message1 -> wf_string message2 ->
  16 * Z.of_nat (length message2) < 2 ^ 32 ->
  (length message1 <= length message2)%nat ->
  encode fuel im message2 key = Done encoded2 ->
  exists encoded1,
    encode fuel im message1 key = Done encoded1 /\
    encode fuel encoded1 message2 key = Done encoded2.
Proof.
  intros Him Hwf1 Hwf2 Hlen2 Hle He2. pose proof Him as (Hbytes & HW & HH & Hdata).
  assert (Hlen1 : 16 * Z.of_nat (length message1) < 2 ^ 32) by lia.
  destruct (encode_Done _ _ _ _ _ Him He2)
    as (seq2 & p2 & Hg2 & -> & Hl2 & Hnd2 & Hpos2 & Hoff2 & Hrange2 & _).
  pose proof (length_payload message1 Hwf1 Hlen1) as Hp1.
  pose proof (length_payload message2 Hwf2 Hlen2) as Hp2.
  assert (Hm : 0 <= Z.of_nat (length (payload message1))
               <= Z.of_nat (length (payload message2))) by lia.
  destruct (generatePixelSequence_firstn fuel _ _ _ _ _ Hm Hg2) as (p1 & Hg1 & _).
  rewrite Nat2Z.id in Hg1.
  set (seq1 := firstn (length (payload message1)) seq2) in *.
  exists (mkImage (embed (img_width im) seq1 (payload message1) (img_data im))
                  (img_width im) (img_height im)).
  split.
  - rewrite encode_payload, Hg1. reflexivity.
  - rewrite encode_payload. cbn [img_width img_height img_data]. rewrite Hg2.
    cbn [mapOutcome fst]. f_equal. f_equal.
    assert (Hincl : incl seq1 seq2) by (intros q Hq; eapply In_firstn_In; exact Hq).
    assert (Hl1 : length (payload message1) = length seq1).
    { unfold seq1. rewrite length_firstn. lia. }
    apply embed_over_embed; auto.
    eapply NoDup_offsets; [lia | | ].
    + rewrite Forall_forall in *. intros q Hq. apply Hpos2. apply Hincl. exact Hq.
    + unfold seq1. apply NoDup_firstn_of. exact Hnd2.
Qed.

Lemma encode_over_an_encoded_image_witness :
  exists encoded1 encoded2,
    encode 1000 (solidImage 20 20 100) [] (js "abc") = Done encoded1 /\
    encode 1000 (solidImage 20 20 100) (js "A") (js "abc") = Done encoded2 /\
    encode 1000 encoded1 (js "A") (js "abc") = Done encoded2.
Proof.
  let v := eval vm_compute in (encode 1000 (solidImage 20 20 100) (js "A") (js "abc")) in
  match v with
  | Done ?e2 =>
      assert (E : encode 1000 (solidImage 20 20 100) (js "A") (js "abc") = Done e2)
        by (vm_compute; reflexivity);
      assert (W : wf_image (solidImage 20 20 100))
        by (unfold wf_image; repeat split; vm_compute; reflexivity);
      assert (S1 : wf_string []) by constructor;
      assert (S2 : wf_string (js "A")) by (repeat constructor);
      assert (L : 16 * Z.of_nat (length (js "A")) < 2 ^ 32) by reflexivity;
      assert (M : (length (@nil codeunit) <= length (js "A"))%nat) by (cbn; lia);
      destruct (encode_over_an_encoded_image 1000 (solidImage 20 20 100) [] (js "A")
                  (js "abc") e2 W S1 S2 L M E) as (e1 & H1 & H2);
      exists e1, e2; split; [exact H1 | split; [exact E | exact H2]]
  end.
Defined.

(** *** The encoded image *)

(** X7. The image [encode] returns is a well-formed image of the same
    dimensions, and each of its bytes differs from the input byte by at
    most 1. *)
Theorem encode_keeps_the_image_close (fuel : nat) (im : ImageData)
  (message key : jsstring) (encoded : ImageData) :
  wf_image im ->
  encode fuel im message key = Done encoded ->
  wf_image encoded /\
  img_width encoded = img_width im /\ img_height encoded = img_height im /\
  forall i old, getIndex (img_data im) i = Some old ->
    exists new, getIndex (img_data encoded) i = Some new /\ Z.abs (new - old) <= 1.
Proof.
  intros Him He. pose proof Him as (Hbytes & HW & HH & Hdata).
  destruct (encode_Done _ _ _ _ _ Him He)
    as (pixelSequence & p' & Hg & -> & Hl & Hnd & Hpos & Hoff & Hrange & _).
  cbn [img_width img_height img_data].
  split; [|split; [reflexivity | split; [reflexivity|]]].
  - unfold wf_image. cbn [img_width img_height img_data].
    rewrite embed_length. repeat split; try lia; try assumption.
    apply embed_bytes. exact Hbytes.
  - intros i old Hold.
    assert (Hbyte : isByte old = true) by (eapply getIndex_forallb; eassumption).
    destruct (getIndex_embed_cases (img_width im) pixelSequence (payload message)
                (img_data im) i old Hoff (eq_sym Hl) Hbytes Hold) as [H | [b H]].
    + exists old. split; [exact H|]. rewrite Z.sub_diag. cbn. lia.
    + eexists. split; [exact H|]. apply stego_byte_near. exact Hbyte.
Qed.

Lemma encode_keeps_the_image_close_witness :
  exists encoded,
    encode 1000 (solidImage 20 20 100) (js "A") (js "abc") = Done encoded /\
    wf_image encoded /\
    exists new, getIndex (img_data encoded) 0 = Some new /\ Z.abs (new - 100) <= 1.
Proof.
  let v := eval vm_compute in (encode 1000 (solidImage 20 20 100) (js "A") (js "abc")) in
  match v with
  | Done ?e =>
      assert (E : encode 1000 (solidImage 20 20 100) (js "A") (js "abc") = Done e)
        by (vm_compute; reflexivity);
      assert (W : wf_image (solidImage 20 20 100))
        by (unfold wf_image; repeat split; vm_compute; reflexivity);
      destruct (encode_keeps_the_image_close 1000 (solidImage 20 20 100) (js "A")
                  (js "abc") e W E) as (We & _ & _ & Hnear);
      exists e; split; [exact E | split; [exact We | apply Hnear; reflexivity]]
  end.
Defined.

(** *** What [decode] reads *)

Lemma extract_ext (width : Z) (data1 data2 : list Z) (sequence : list position) :
  (forall q, In q sequence ->
     bitAnd (getIndex data1 (offsetOf width q)) 1 = bitAnd (getIndex data2 (offsetOf width q)) 1) ->
  extract width data1 sequence = extract width data2 sequence.
Proof.
  intros H. unfold extract. apply map_ext_in. intros q Hq.
  fold (offsetOf width q). rewrite (H q Hq). reflexivity.
Qed.

Lemma getIndex_repeat (v : Z) (n : nat) (i : Z) :
  getIndex (repeat v n) i = Some v \/ getIndex (repeat v n) i = None.
Proof.
  unfold getIndex. destruct (i <? 0); [right; reflexivity|].
  destruct (nth_error (repeat v n) (Z.to_nat i)) as [b | ] eqn:H; [left | right; reflexivity].
  apply nth_error_In, repeat_spec in H. subst. reflexivity.
Qed.

Lemma getIndex_repeat_same (v v' : Z) (n : nat) (i : Z) :
  getIndex (repeat v n) i = None <-> getIndex (repeat v' n) i = None.
Proof.
  unfold getIndex. destruct (i <? 0); [tauto|].
  rewrite !nth_error_None, !repeat_length. tauto.
Qed.

(** X8. [decode] reads the least significant bits of the colour bytes and
    nothing else: two images of the same dimensions whose bytes agree in
    that bit outside the alpha channel decode alike under every key. *)
Theorem decode_reads_colour_lsbs_only (fuel : nat) (im1 im2 : ImageData) (key : jsstring) :
  0 < img_width im1 < 2 ^ 53 -> 0 < img_height im1 < 2 ^ 53 ->
  img_width im2 = img_width im1 -> img_height im2 = img_height im1 ->
  (forall i, i mod 4 <> 3 ->
     bitAnd (getIndex (img_data im1) i) 1 = bitAnd (getIndex (img_data im2) i) 1) ->
  decode fuel im1 key = decode fuel im2 key.
Proof.
  intros HW HH Ew Eh Hlsb.
  assert (Hext : forall sequence,
             Forall (wf_position (img_width im1) (img_height im1)) sequence ->
             extract (img_width im1) (img_data im1) sequence
             = extract (img_width im1) (img_data im2) sequence).
  { intros sequence Hwf. apply extract_ext. intros q Hq. apply Hlsb.
    rewrite Forall_forall in Hwf.
    destruct (offsetOf_range (img_width im1) (img_height im1) q) as [_ Hmod];
      [lia | lia | auto|].
    rewrite Hmod. destruct (Hwf q Hq) as (_ & _ & Hc). lia. }
  unfold decode, decode_try, bind. rewrite Ew, Eh.
  destruct (generatePixelSequence fuel 32 _) as [[lengthSequence p1] | | ] eqn:Hh;
    try reflexivity.
  destruct (generatePixelSequence_sound _ _ _ _ _ (newChaosPRNG_ok _ _ _)
              (conj HW HH) Hh) as (_ & _ & Hwf1 & Hok1 & Hw1 & Hh1).
  cbn [newChaosPRNG prng_width prng_height] in Hwf1, Hw1, Hh1.
  rewrite (Hext _ Hwf1).
  destruct (_ || _); [reflexivity|].
  destruct (generatePixelSequence fuel _ p1) as [[messageSequence p2] | | ] eqn:Hb;
    try reflexivity.
  assert (Hd1 : dimsOK p1) by (unfold dimsOK; rewrite Hw1, Hh1; split; assumption).
  destruct (generatePixelSequence_sound _ _ _ _ _ Hok1 Hd1 Hb) as (_ & _ & Hwf2 & _).
  rewrite Hw1, Hh1 in Hwf2. rewrite (Hext _ Hwf2). reflexivity.
Qed.

Lemma decode_reads_colour_lsbs_only_witness :
  decode 1000 (solidImage 20 20 100) (js "abc") = decode 1000 (solidImage 20 20 102) (js "abc").
Proof.
  apply (decode_reads_colour_lsbs_only 1000 (solidImage 20 20 100) (solidImage 20 20 102)
           (js "abc")); try reflexivity; try (split; reflexivity).
  intros i _. cbn [solidImage img_data].
  destruct (getIndex_repeat 100 (Z.to_nat (20 * 20 * 4)) i) as [H | H].
  - destruct (getIndex_repeat 102 (Z.to_nat (20 * 20 * 4)) i) as [H' | H'].
    + rewrite H, H'. reflexivity.
    + apply (getIndex_repeat_same 100 102) in H'. congruence.
  - rewrite H. apply (getIndex_repeat_same 100 102) in H. rewrite H. reflexivity.
Defined.

(** *** The states of [next] *)

Lemma afterNext_ok (n : nat) (p : ChaosPRNG) : okPRNG p -> okPRNG (afterNext n p).
Proof.
  intros Hp. induction n as [ | n IH]; [exact Hp|].
  change (okPRNG (snd (next (afterNext n p)))).
  destruct (next_ok _ IH) as [-> Hok]. exact Hok.
Qed.

Lemma okState_interval (s : float) :
  okState s -> (72 # 1024 <= B2Q (Prim2SF s))%Q /\ (B2Q (Prim2SF s) <= 1003 # 1024)%Q.
Proof.
  intros (_ & Hlo & Hhi).
  assert (72 # 1024 <= onGrid la)%Q by qle.
  assert (onGrid ub <= 1003 # 1024)%Q by qle.
  split; lra.
Qed.

(** X9. For every key, the seed and every later state lie in
    [[72/1024, 1003/1024]]; so the guard [state <= 0 || state >= 1] of [next]
    never fires, and [next] returns [r * state * (1 - state)]. *)
Theorem next_stays_inside_the_unit_interval (key : jsstring) (width height : Z) (n : nat) :
  let p := afterNext n (newChaosPRNG key width height) in
  (72 # 1024 <= B2Q (Prim2SF (prng_state p)))%Q /\
  (B2Q (Prim2SF (prng_state p)) <= 1003 # 1024)%Q /\
  next p = (logistic (prng_state p), with_state p (logistic (prng_state p))) /\
  (72 # 1024 <= B2Q (Prim2SF (fst (next p))))%Q /\
  (B2Q (Prim2SF (fst (next p))) <= 1003 # 1024)%Q.
Proof.
  intros p.
  assert (Hp : okPRNG p) by (apply afterNext_ok, newChaosPRNG_ok).
  destruct (okState_interval _ Hp) as [S1 S2].
  destruct (next_ok p Hp) as [Hn Hok].
  split; [exact S1|]. split; [exact S2|]. split; [exact Hn|].
  rewrite Hn. cbn [fst]. apply okState_interval. exact Hok.
Qed.

(** X10. [nextInt(max)] returns an integer of [[0, max)] for every
    [max] in [[1, 2^53)], and advances the state as one call of [next]. *)
Theorem nextInt_is_below_max (key : jsstring) (width height : Z) (n : nat) (max : Z) :
  0 < max < 2 ^ 53 ->
  let p := afterNext n (newChaosPRNG key width height) in
  0 <= fst (nextInt max p) < max /\ snd (nextInt max p) = snd (next p).
Proof.
  intros Hmax p.
  assert (Hp : okPRNG p) by (apply afterNext_ok, newChaosPRNG_ok).
  rewrite (nextInt_ok max p Hp). destruct (next_ok p Hp) as [-> Hok]. cbn [fst snd].
  split; [|reflexivity]. apply floor_mul_range; assumption.
Qed.

Lemma nextInt_is_below_max_witness :
  0 <= fst (nextInt 3 (newChaosPRNG (js "abc") 20 20)) < 3.
Proof.
  apply (nextInt_is_below_max (js "abc") 20 20 0 3). split; reflexivity.
Defined.

(** *** Keys and seeds *)

Lemma sameDouble_eq (a b : float) : sameDouble a b = true -> a = b.
Proof.
  unfold sameDouble. intros H. apply Prim2SF_inj.
  destruct (Prim2SF a) as [ | | | s m e]; try discriminate.
  destruct (Prim2SF b) as [ | | | s' m' e']; try discriminate.
  rewrite !andb_true_iff in H. destruct H as [[Hs Hm] He].
  apply Bool.eqb_prop in Hs. apply Pos.eqb_eq in Hm. apply Z.eqb_eq in He.
  subst. reflexivity.
Qed.

Lemma In_dedupSeeds (l : list float) (s : float) : In s l -> In s (dedupSeeds l).
Proof.
  induction l as [ | a l IH]; intros Hin; [contradiction|].
  cbn [dedupSeeds]. destruct (existsb (sameDouble a) l) eqn:Hex.
  - destruct Hin as [<- | Hin]; [|auto].
    apply existsb_exists in Hex. destruct Hex as (b & Hb & Hab).
    apply sameDouble_eq in Hab. subst b. auto.
  - destruct Hin as [<- | Hin]; [left; reflexivity | right; auto].
Qed.

Lemma length_seedValues : length seedValues = 794%nat.
Proof. vm_compute. reflexivity. Qed.

Lemma In_dedupSeeds_incl (l : list float) (s : float) : In s (dedupSeeds l) -> In s l.
Proof.
  induction l as [ | a l IH]; cbn [dedupSeeds]; [tauto|].
  destruct (existsb (sameDouble a) l); cbn [In]; intuition.
Qed.

Lemma sameDouble_refl (s : float) : okState s -> sameDouble s s = true.
Proof.
  intros (Hn & _). unfold sameDouble. destruct Hn as [m e _ _].
  cbn [Bool.eqb]. rewrite Pos.eqb_refl, Z.eqb_refl. reflexivity.
Qed.

Lemma NoDup_dedupSeeds (l : list float) :
  (forall s, In s l -> sameDouble s s = true) -> NoDup (dedupSeeds l).
Proof.
  induction l as [ | a l IH]; intros Hl; cbn [dedupSeeds]; [constructor|].
  assert (IH' : NoDup (dedupSeeds l)) by (apply IH; intros s Hs; apply Hl; right; exact Hs).
  destruct (existsb (sameDouble a) l) eqn:Hex; [exact IH'|].
  constructor; [|exact IH'].
  intros Hin. apply In_dedupSeeds_incl in Hin.
  assert (Ht : existsb (sameDouble a) l = true).
  { apply existsb_exists. exists a. split; [exact Hin | apply Hl; left; reflexivity]. }
  congruence.
Qed.

Lemma keyOfAccumulator_checked :
  forallb (fun a => keyAccumulator (keyOfAccumulator a) =? a) (zrange 0 1000) = true.
Proof. vm_compute. reflexivity. Qed.

Lemma keyAccumulator_keyOfAccumulator (a : Z) :
  0 <= a < 1000 -> keyAccumulator (keyOfAccumulator a) = a.
Proof.
  intros Ha. apply Z.eqb_eq.
  apply (proj1 (forallb_forall _ _) keyOfAccumulator_checked a).
  apply in_zrange. lia.
Qed.

Lemma seedValues_eq : seedValues = dedupSeeds (map seedOfAccumulator (zrange 0 1000)).
Proof. reflexivity. Qed.

Lemma NoDup_seedValues : NoDup seedValues.
Proof.
  rewrite seedValues_eq. apply NoDup_dedupSeeds. intros s Hs.
  apply in_map_iff in Hs. destruct Hs as (a & <- & Ha).
  apply sameDouble_refl, inAttractor_ok, seedOK_all. exact Ha.
Qed.

Lemma seedValues_attained (s : float) : In s seedValues -> exists key, generateSeed key = s.
Proof.
  rewrite seedValues_eq. intros Hs. apply In_dedupSeeds_incl in Hs.
  apply in_map_iff in Hs. destruct Hs as (a & <- & Ha). apply in_zrange in Ha.
  exists (keyOfAccumulator a). unfold generateSeed.
  rewrite keyAccumulator_keyOfAccumulator by lia. reflexivity.
Qed.

Lemma seedValues_complete (key : jsstring) : In (generateSeed key) seedValues.
Proof.
  rewrite seedValues_eq. unfold generateSeed.
  apply In_dedupSeeds. apply in_map. apply in_zrange.
  pose proof (keyAccumulator_range key). lia.
Qed.

(** X11. Over all keys, [generateSeed] takes exactly 794 values: there is a
    list of 794 pairwise different doubles that holds the seed of every key
    and nothing else. *)
Theorem exactly_794_seeds :
  exists seeds : list float,
    length seeds = 794%nat /\ NoDup seeds /\
    forall s, In s seeds <-> exists key, generateSeed key = s.
Proof.
  exists seedValues. split; [exact length_seedValues|]. split; [exact NoDup_seedValues|].
  intros s. split; [apply seedValues_attained|].
  intros [key <-]. apply seedValues_complete.
Qed.

Lemma newChaosPRNG_same_seed (k1 k2 : jsstring) (width height : Z) :
  generateSeed k1 = generateSeed k2 ->
  newChaosPRNG k2 width height = rekey k2 (newChaosPRNG k1 width height).
Proof.
  intros H. unfold newChaosPRNG, rekey.
  cbn [prng_key prng_width prng_height prng_totalPixels prng_seed prng_state].
  rewrite H. reflexivity.
Qed.

Lemma encode_same_seed (fuel : nat) (im : ImageData) (message k1 k2 : jsstring) :
  generateSeed k1 = generateSeed k2 ->
  encode fuel im message k2 = encode fuel im message k1.
Proof.
  intros H. unfold encode. rewrite (newChaosPRNG_same_seed k1 k2 _ _ H).
  rewrite generatePixelSequence_rekey. unfold bind.
  destruct (generatePixelSequence _ _ (newChaosPRNG k1 _ _)) as [[sequence p'] | | ];
    reflexivity.
Qed.

Lemma decode_same_seed (fuel : nat) (im : ImageData) (k1 k2 : jsstring) :
  generateSeed k1 = generateSeed k2 ->
  decode fuel im k2 = decode fuel im k1.
Proof.
  intros H. unfold decode. rewrite (newChaosPRNG_same_seed k1 k2 _ _ H).
  rewrite decode_try_rekey. reflexivity.
Qed.

Lemma seed_0_500 : seedOfAccumulator 0 = seedOfAccumulator 500.
Proof. apply sameDouble_eq. vm_compute. reflexivity. Qed.

(** X12. The guard of [generateSeed] replaces the value 0 by 0.5, which is
    the value of the accumulator 500: a key with accumulator 0 (the empty
    key is one) and a key with accumulator 500 have the same seed, and
    [encode] and [decode] do not tell them apart. *)
Theorem accumulators_0_and_500_share_a_seed (k1 k2 : jsstring) :
  keyAccumulator k1 = 0 -> keyAccumulator k2 = 500 ->
  generateSeed k1 = generateSeed k2 /\
  (forall fuel im message, encode fuel im message k2 = encode fuel im message k1) /\
  (forall fuel im, decode fuel im k2 = decode fuel im k1).
Proof.
  intros H1 H2.
  assert (Hs : generateSeed k1 = generateSeed k2).
  { unfold generateSeed. rewrite H1, H2. exact seed_0_500. }
  split; [exact Hs|]. split.
  - intros fuel im message. apply encode_same_seed. exact Hs.
  - intros fuel im. apply decode_same_seed. exact Hs.
Qed.

Lemma accumulators_0_and_500_share_a_seed_witness :
  generateSeed [] = generateSeed (js "Rj").
Proof.
  apply (accumulators_0_and_500_share_a_seed [] (js "Rj")); reflexivity.
Defined.

Lemma accumulate_mod (v : Z) (c d : codeunit) :
  0 <= v -> (c mod 1000 = d mod 1000)%N -> accumulate v c = accumulate v d.
Proof.
  intros Hv Hcd. unfold accumulate.
  rewrite !Z.rem_mod_nonneg by lia.
  assert (E : Z.of_N c mod 1000 = Z.of_N d mod 1000).
  { change 1000 with (Z.of_N 1000). rewrite <- !N2Z.inj_mod. f_equal. exact Hcd. }
  rewrite (Z.mul_mod (v + Z.of_N c)), (Z.mul_mod (v + Z.of_N d)) by lia.
  rewrite (Z.add_mod v (Z.of_N c)), (Z.add_mod v (Z.of_N d)) by lia.
  rewrite E. reflexivity.
Qed.

(** X13. [generateSeed] reads the code units of the key modulo 1000: two
    keys whose code units are congruent one by one have the same
    accumulator, and [encode] and [decode] do not tell them apart. *)
Theorem code_units_count_modulo_1000 (k1 k2 : jsstring) :
  Forall2 (fun c d => (c mod 1000 = d mod 1000)%N) k1 k2 ->
  keyAccumulator k1 = keyAccumulator k2 /\
  (forall fuel im message, encode fuel im message k2 = encode fuel im message k1) /\
  (forall fuel im, decode fuel im k2 = decode fuel im k1).
Proof.
  intros H.
  assert (Ha : keyAccumulator k1 = keyAccumulator k2).
  { unfold keyAccumulator.
    assert (G : forall v, 0 <= v -> fold_left accumulate k1 v = fold_left accumulate k2 v).
    { induction H as [ | c d k1 k2 Hcd _ IH]; intros v Hv; [reflexivity|].
      cbn [fold_left]. rewrite (accumulate_mod v c d Hv Hcd). apply IH.
      apply accumulate_range. exact Hv. }
    apply G. lia. }
  split; [exact Ha|]. split.
  - intros fuel im message. apply encode_rekey. exact Ha.
  - intros fuel im. apply decode_rekey. exact Ha.
Qed.

Lemma code_units_count_modulo_1000_witness :
  keyAccumulator (js "a") = keyAccumulator [1097%N].
Proof.
  apply (code_units_count_modulo_1000 (js "a") [1097%N]).
  repeat constructor.
Defined.

(** *** Where the locations lie *)

Lemma floor_mul_band (s : float) (max : Z) :
  okState s -> 0 < max <= 2 ^ 27 ->
  72 * max <= 1024 * (floor (s * Z2F max)%float + 1) /\
  1024 * floor (s * Z2F max)%float <= 1003 * max.
Proof.
  intros Hok Hmax. pose proof Hok as (_ & Hlo & Hhi).
  pose proof (floor_mul_box s max la ub Hok Hmax) as H.
  specialize (H ltac:(unfold la, kLo, cellW; lia) ltac:(unfold ub, kHi, cellW, grid; lia) Hlo Hhi).
  unfold idxLo, idxHi in H. rewrite !Z.shiftr_div_pow2 in H by lia.
  change (2 ^ 24) with 16777216 in H. unfold la, ub, kLo, kHi, cellW in H.
  set (x := floor (s * Z2F max)%float) in *.
  destruct H as [L U].
  assert (L' : 72 * 16384 * max - 1 < 16777216 * (x + 1)).
  { pose proof (Z.mul_succ_div_gt (72 * 16384 * max - 1) 16777216 ltac:(lia)). nia. }
  assert (U' : 16777216 * x <= 1003 * 16384 * max + 1).
  { pose proof (Z.mul_div_le (1003 * 16384 * max + 1) 16777216 ltac:(lia)). nia. }
  lia.
Qed.

(** X14. Every location a call returns has its column in
    [[72/1024 * width - 1, 1003/1024 * width]] and its row in the same band
    of the height: the first columns and rows of a large image, and the
    last ones, are never used. *)
Theorem locations_avoid_the_borders (fuel : nat) (key : jsstring)
  (width height count : Z) (sequence : list position) :
  0 < width <= 2 ^ 27 -> 0 < height <= 2 ^ 27 ->
  positionsOf (generatePixelSequence fuel count (newChaosPRNG key width height))
    = Done sequence ->
  Forall (fun q => 72 * width <= 1024 * (pos_x q + 1) /\ 1024 * pos_x q <= 1003 * width /\
                   72 * height <= 1024 * (pos_y q + 1) /\ 1024 * pos_y q <= 1003 * height)
         sequence.
Proof.
  intros HW HH Hd. apply positionsOf_Done in Hd. destruct Hd as [p' Hg].
  unfold generatePixelSequence in Hg.
  destruct (generateLoop_inv
              (fun p0 => okPRNG p0 /\ prng_width p0 = width /\ prng_height p0 = height)
              (fun q => 72 * width <= 1024 * (pos_x q + 1) /\
                        1024 * pos_x q <= 1003 * width /\
                        72 * height <= 1024 * (pos_y q + 1) /\
                        1024 * pos_y q <= 1003 * height))
    with (fuel := fuel) (n := Z.to_nat count) (usedPositions := @nil position)
         (sequence := @nil position) (p := newChaosPRNG key width height)
         (sequence' := sequence) (p' := p')
    as (fresh & Heq & _ & _ & Hall & _ & _); auto.
  - intros p0 (Hok0 & Hw0 & Hh0).
    destruct (drawPosition_eq p0 Hok0) as (-> & H1 & H2 & H3). cbn [fst snd pos_x pos_y].
    rewrite Hw0, Hh0.
    destruct (floor_mul_band _ width H1 HW). destruct (floor_mul_band _ height H2 HH).
    split; [tauto|]. split; [exact H3 | split; assumption].
  - split; [apply newChaosPRNG_ok | split; reflexivity].
  - cbn [app] in Heq. subst fresh. exact Hall.
Qed.

Lemma locations_avoid_the_borders_witness :
  exists sequence,
    positionsOf (generatePixelSequence 1000 32 (newChaosPRNG (js "abc") 20 20))
      = Done sequence /\
    Forall (fun q => 1 <= pos_x q <= 19 /\ 1 <= pos_y q <= 19) sequence.
Proof.
  let v := eval vm_compute in
    (positionsOf (generatePixelSequence 1000 32 (newChaosPRNG (js "abc") 20 20))) in
  match v with
  | Done ?s =>
      exists s;
      assert (E : positionsOf (generatePixelSequence 1000 32 (newChaosPRNG (js "abc") 20 20))
                  = Done s) by (vm_compute; reflexivity);
      split; [exact E|];
      assert (W : 0 < 20 <= 2 ^ 27) by (split; [reflexivity | discriminate]);
      pose proof (locations_avoid_the_borders 1000 (js "abc") 20 20 32 s W W E) as H;
      eapply Forall_impl; [|exact H]; cbv beta; intros q Hq; lia
  end.
Defined.

(** X15. [encode] does not return when the payload has more bits than the
    image has locations in [reachable]. *)
Theorem encode_needs_reachable_locations (fuel : nat) (im : ImageData)
  (message key : jsstring) :
  0 < img_width im <= 2 ^ 27 -> 0 < img_height im <= 2 ^ 27 ->
  Z.of_nat (length (reachable (img_width im) (img_height im)))
    < 32 + 16 * Z.of_nat (length message) ->
  encode fuel im message key = Timeout.
Proof.
  intros HW HH Hcap. rewrite encode_payload.
  rewrite generatePixelSequence_starves; [reflexivity | apply newChaosPRNG_ok | | |];
    cbn [newChaosPRNG prng_width prng_height]; try assumption.
  pose proof (length_payload_ge message). lia.
Qed.

Lemma encode_needs_reachable_locations_witness :
  encode 5000 (solidImage 32 32 100) (js "Hello") (js "abc") = Timeout.
Proof.
  apply (encode_needs_reachable_locations 5000 (solidImage 32 32 100) (js "Hello") (js "abc"));
    cbn [solidImage img_width img_height]; try (split; [reflexivity | discriminate]).
  vm_compute. reflexivity.
Defined.

(** *** The rows of a column *)

Lemma col_width (w x : Z) : 0 < w -> (colHi w x - colLo w x) * w <= grid + 4 * w.
Proof.
  intros Hw. unfold colLo, colHi.
  set (t := ((x + 1) * grid + w - 1) / w). set (u := x * grid / w).
  assert (Ht : w * t <= (x + 1) * grid + w - 1) by (apply Z.mul_div_le; lia).
  assert (Hu : x * grid < w * Z.succ u) by (apply Z.mul_succ_div_gt; lia).
  assert (H1 : Z.min ub (t + 1) <= t + 1) by lia.
  assert (H2 : u - 1 <= Z.max la (u - 1)) by lia.
  assert (H3 : (Z.min ub (t + 1) - Z.max la (u - 1)) * w <= (t + 1 - (u - 1)) * w).
  { apply Z.mul_le_mono_nonneg_r; lia. }
  unfold grid in *. nia.
Qed.

Lemma enclosure_width (a b : Z) :
  0 <= a <= grid -> 0 <= b <= grid ->
  grid * (logUp a b - logDn a b - 5) < RdnN * (b - a).
Proof.
  intros Ha Hb. unfold logUp, logDn. rewrite !Z.shiftr_div_pow2 by lia.
  set (P := RupN * b * (grid - a)). set (Q := RdnN * a * (grid - b)).
  assert (HP : 2 ^ 48 * (P / 2 ^ 48) <= P) by (apply Z.mul_div_le; lia).
  assert (HQ : Q < 2 ^ 48 * Z.succ (Q / 2 ^ 48)) by (apply Z.mul_succ_div_gt; lia).
  assert (HPQ : P - Q = RdnN * grid * (b - a) + b * (grid - a)).
  { unfold P, Q, RupN, RdnN. ring. }
  assert (Hbg : b * (grid - a) <= grid * grid).
  { apply Z.mul_le_mono_nonneg; lia. }
  set (U := P / 2 ^ 48) in *. set (L := Q / 2 ^ 48) in *.
  assert (E48 : 2 ^ 48 = grid * grid) by reflexivity.
  assert (H : grid * (grid * (U + 2 - (L - 1) - 5)) < grid * (RdnN * (b - a))).
  { rewrite E48 in HP, HQ. nia. }
  apply Z.mul_lt_mono_pos_l in H; [exact H | unfold grid; lia].
Qed.

Lemma rows_per_column (w h x : Z) :
  0 < w <= 2 ^ 16 -> 0 < h -> 0 <= x < w ->
  rowHi w h x - rowLo w h x + 1 <= 4 * h / w + 4.
Proof.
  intros Hw Hh Hx.
  pose proof (col_width w x ltac:(lia)) as Hcw.
  assert (Ha : 0 <= colLo w x <= grid).
  { unfold colLo. assert (x * grid / w < grid).
    { apply Z.div_lt_upper_bound; [lia|]. unfold grid. nia. }
    unfold la, kLo, cellW, grid in *. lia. }
  assert (Hb : 0 <= colHi w x <= grid).
  { unfold colHi. assert (0 <= ((x + 1) * grid + w - 1) / w).
    { apply Z.div_pos; [unfold grid; nia | lia]. }
    unfold ub, kHi, cellW, grid in *. lia. }
  pose proof (enclosure_width _ _ Ha Hb) as He.
  unfold rowHi, rowLo, idxHi, idxLo. rewrite !Z.shiftr_div_pow2 by lia.
  set (a := colLo w x) in *. set (b := colHi w x) in *.
  set (D := logUp a b - logDn a b) in *.
  set (A2 := Z.max la (logDn a b)). set (B2 := Z.min ub (logUp a b)).
  assert (HD : B2 - A2 <= D) by (unfold A2, B2, D; lia).
  change (2 ^ 24) with grid.
  set (RH := (B2 * h + 1) / grid). set (RL := (A2 * h - 1) / grid).
  assert (HRH : grid * RH <= B2 * h + 1) by (apply Z.mul_div_le; unfold grid; lia).
  assert (HRL : A2 * h - 1 < grid * Z.succ RL) by (apply Z.mul_succ_div_gt; unfold grid; lia).
  assert (HK : 4 * h < w * Z.succ (4 * h / w)) by (apply Z.mul_succ_div_gt; lia).
  set (K := 4 * h / w) in *.
  assert (H1 : (B2 - A2) * h <= D * h) by (apply Z.mul_le_mono_nonneg_r; lia).
  assert (H2 : grid * (RH - RL - 1) <= D * h + 1) by lia.
  destruct (Z.le_gt_cases (RH - RL + 1) (K + 4)) as [Hle | Hgt]; [exact Hle | exfalso].
  assert (H3 : 4 * h + w + 1 <= (RH - RL - 1) * w) by nia.
  assert (H4 : grid * (4 * h + w + 1) <= (D * h + 1) * w).
  { transitivity (grid * ((RH - RL - 1) * w)); [apply Z.mul_le_mono_nonneg_l; unfold grid; lia|].
    replace (grid * ((RH - RL - 1) * w)) with (grid * (RH - RL - 1) * w) by ring.
    apply Z.mul_le_mono_nonneg_r; lia. }
  assert (H5 : grid * (D - 5) * w < RdnN * (grid + 4 * w)).
  { apply Z.lt_le_trans with (RdnN * (b - a) * w).
    - apply Z.mul_lt_mono_pos_r; lia.
    - replace (RdnN * (b - a) * w) with (RdnN * ((b - a) * w)) by ring.
      apply Z.mul_le_mono_nonneg_l; [unfold RdnN; lia | exact Hcw]. }
  assert (H6 : grid * (grid * (4 * h + w + 1)) <= grid * ((D * h + 1) * w)).
  { apply Z.mul_le_mono_nonneg_l; [unfold grid; lia | exact H4]. }
  assert (H7 : grid * (D - 5) * w * h < RdnN * (grid + 4 * w) * h).
  { apply Z.mul_lt_mono_pos_r; lia. }
  assert (H8 : 345610648 * w * h <= 345610648 * 65536 * h).
  { apply Z.mul_le_mono_nonneg_r; [lia|]. change (2 ^ 16) with 65536 in Hw. lia. }
  unfold grid, RdnN in *. nia.
Qed.

Open Scope Q_scope.

Lemma Qfloor_bounds (y : Q) : inject_Z (Qfloor y) <= y /\ y < inject_Z (Qfloor y + 1).
Proof. split; [apply Qfloor_le | apply Qlt_floor]. Qed.

(** A state that draws column [x] lies in the grid interval of [x]. *)
Lemma column_states (s : float) (w : Z) :
  okState s -> (0 < w <= 2 ^ 27)%Z ->
  let x := floor (s * Z2F w)%float in
  onGrid (colLo w x) <= B2Q (Prim2SF s) /\ B2Q (Prim2SF s) <= onGrid (colHi w x).
Proof.
  intros Hok Hw x.
  assert (Hw' : (0 < w < 2 ^ 53)%Z).
  { split; [lia|]. eapply Z.le_lt_trans; [apply Hw | reflexivity]. }
  destruct (floor_mul_Q s w Hok Hw') as (y & Hy & L & U).
  fold x in Hy.
  destruct (okState_bounds s Hok) as (B1 & _ & B3).
  pose proof Hok as (_ & Hlo & Hhi).
  assert (E4 : 2 ^ (-4) == 1 # 16) by reflexivity. rewrite E4 in B1.
  destruct (Qfloor_bounds y) as [F1 F2]. rewrite <- Hy in F1, F2.
  set (v := B2Q (Prim2SF s)) in *. set (W := inject_Z w) in *.
  assert (HW : 0 < W).
  { change 0 with (inject_Z 0). unfold W. rewrite <- Zlt_Qlt. lia. }
  unfold eps in *.
  split.
  - unfold colLo. apply onGrid_max; [exact Hlo|].
    set (u := (x * grid / w)%Z).
    assert (Hu : (w * u <= x * grid)%Z) by (apply Z.mul_div_le; lia).
    assert (HuQ : inject_Z u * W <= inject_Z x * 16777216).
    { unfold W. rewrite <- !inject_Z_mult.
      change 16777216 with (inject_Z grid). rewrite <- inject_Z_mult.
      rewrite <- Zle_Qle. lia. }
    assert (G1 : inject_Z u * W <= ((1 + (1 # 4503599627370496)) * v * 16777216) * W).
    { assert (inject_Z x * 16777216 <= y * 16777216) by (apply Qmult_le_compat_r; lra).
      lra. }
    apply Qmult_le_r in G1; [|exact HW].
    unfold onGrid. rewrite inject_Z_minus. change (inject_Z 1) with 1. lra.
  - unfold colHi. apply onGrid_min; [exact Hhi|].
    set (t := (((x + 1) * grid + w - 1) / w)%Z).
    assert (Ht : ((x + 1) * grid + w - 1 < w * Z.succ t)%Z) by (apply Z.mul_succ_div_gt; lia).
    assert (HtQ : inject_Z (x + 1) * 16777216 <= inject_Z t * W).
    { unfold W. rewrite <- !inject_Z_mult.
      change 16777216 with (inject_Z grid). rewrite <- inject_Z_mult.
      rewrite <- Zle_Qle. lia. }
    assert (G1 : ((1 - (1 # 4503599627370496)) * v * 16777216) * W <= inject_Z t * W).
    { assert (y * 16777216 <= inject_Z (x + 1) * 16777216) by (apply Qmult_le_compat_r; lra).
      lra. }
    apply Qmult_le_r in G1; [|exact HW].
    unfold onGrid. rewrite inject_Z_plus. change (inject_Z 1) with 1. lra.
Qed.

Close Scope Q_scope.

(** One iteration of the rejection loop draws, in column [x], a row of
    [[rowLo x, rowHi x]]. *)
Lemma drawPosition_row (p : ChaosPRNG) :
  okPRNG p -> 0 < prng_width p <= 2 ^ 27 -> 0 < prng_height p <= 2 ^ 27 ->
  let q := fst (drawPosition p) in
  rowLo (prng_width p) (prng_height p) (pos_x q) <= pos_y q
    <= rowHi (prng_width p) (prng_height p) (pos_x q).
Proof.
  intros Hok HW HH.
  destruct (drawPosition_eq p Hok) as (-> & H1 & H2 & _). cbn [fst pos_x pos_y].
  set (s1 := logistic (prng_state p)) in *. set (s2 := logistic s1) in *.
  set (x := floor (s1 * Z2F (prng_width p))%float).
  destruct (column_states s1 (prng_width p) H1 HW) as [Ca Cb]. fold x in Ca, Cb.
  assert (Ha : 0 <= colLo (prng_width p) x).
  { unfold colLo, la, kLo, cellW. lia. }
  assert (Hb : colHi (prng_width p) x <= grid).
  { unfold colHi, ub, kHi, cellW, grid. lia. }
  destruct (logistic_enclosed s1 _ _ H1 Ha Hb Ca Cb) as (_ & L2 & U2). fold s2 in L2, U2.
  pose proof H2 as (_ & Hlo2 & Hhi2).
  unfold rowLo, rowHi.
  apply floor_mul_box; try assumption.
  - unfold la, kLo, cellW. lia.
  - unfold ub, kHi, cellW, grid. lia.
  - apply onGrid_max; assumption.
  - apply onGrid_min; assumption.
Qed.

Lemma generatePixelSequence_rows (fuel : nat) (count : Z) (p : ChaosPRNG)
  (sequence : list position) (p' : ChaosPRNG) :
  okPRNG p -> 0 < prng_width p <= 2 ^ 27 -> 0 < prng_height p <= 2 ^ 27 ->
  generatePixelSequence fuel count p = Done (sequence, p') ->
  Forall (fun q => rowLo (prng_width p) (prng_height p) (pos_x q) <= pos_y q
                   <= rowHi (prng_width p) (prng_height p) (pos_x q)) sequence.
Proof.
  intros Hok HW HH Hg. unfold generatePixelSequence in Hg.
  assert (HW' : 0 < prng_width p < 2 ^ 53).
  { split; [lia|]. eapply Z.le_lt_trans; [apply HW | reflexivity]. }
  assert (HH' : 0 < prng_height p < 2 ^ 53).
  { split; [lia|]. eapply Z.le_lt_trans; [apply HH | reflexivity]. }
  destruct (generateLoop_inv
              (fun p0 => okPRNG p0 /\ prng_width p0 = prng_width p /\
                         prng_height p0 = prng_height p)
              (fun q => rowLo (prng_width p) (prng_height p) (pos_x q) <= pos_y q
                        <= rowHi (prng_width p) (prng_height p) (pos_x q)))
    with (fuel := fuel) (n := Z.to_nat count) (usedPositions := @nil position)
         (sequence := @nil position) (p := p) (sequence' := sequence) (p' := p')
    as (fresh & Heq & _ & _ & Hall & _ & _); auto.
  - intros p0 (Hok0 & Hw0 & Hh0).
    destruct (drawPosition_wf p0 Hok0) as (_ & Hok1 & Hw1 & Hh1);
      try (rewrite ?Hw0, ?Hh0; assumption).
    pose proof (drawPosition_row p0 Hok0) as Hr. rewrite Hw0, Hh0 in Hr.
    rewrite Hw1, Hh1. auto.
  - cbn [app] in Heq. subst fresh. exact Hall.
Qed.

Lemma rowInColumn_inj (w h : Z) (q1 q2 : position) :
  rowInColumn w h q1 = rowInColumn w h q2 -> q1 = q2.
Proof.
  destruct q1 as [x1 y1 c1], q2 as [x2 y2 c2]. unfold rowInColumn.
  cbn [pos_x pos_y pos_channel]. intros H. inversion H; subst.
  f_equal. lia.
Qed.

Lemma NoDup_map_injective {A B : Type} (f : A -> B) (l : list A) :
  (forall a b, f a = f b -> a = b) -> NoDup l -> NoDup (map f l).
Proof.
  intros Hinj Hnd. induction Hnd as [ | a l Hnotin Hnd IH]; cbn [map]; constructor.
  - intros Hin. apply in_map_iff in Hin. destruct Hin as (b & Hb & Hin).
    apply Hinj in Hb. subst. contradiction.
  - exact IH.
Qed.

(** A call for more than [12 * (width + height)] locations never returns. *)
Lemma generatePixelSequence_linear (fuel : nat) (count : Z) (p : ChaosPRNG) :
  okPRNG p -> 0 < prng_width p <= 2 ^ 16 -> 0 < prng_height p <= 2 ^ 27 ->
  12 * (prng_width p + prng_height p) < count ->
  generatePixelSequence fuel count p = Timeout.
Proof.
  intros Hok HW HH Hcount.
  destruct (generatePixelSequence fuel count p) as [[sequence p'] | msg | ] eqn:Hg.
  - exfalso.
    set (w := prng_width p) in *. set (h := prng_height p) in *.
    assert (HW27 : 0 < w <= 2 ^ 27).
    { split; [lia|]. eapply Z.le_trans; [apply HW | discriminate]. }
    assert (HW' : 0 < w < 2 ^ 53).
    { split; [lia|]. eapply Z.le_lt_trans; [apply HW | reflexivity]. }
    assert (HH' : 0 < h < 2 ^ 53).
    { split; [lia|]. eapply Z.le_lt_trans; [apply HH | reflexivity]. }
    destruct (generatePixelSequence_sound _ _ _ _ _ Hok (conj HW' HH') Hg)
      as (Hlen & Hnd & Hwf & _).
    pose proof (generatePixelSequence_rows _ _ _ _ _ Hok HW27 HH Hg) as Hrows.
    fold w h in Hwf, Hrows.
    set (K := 4 * h / w + 4).
    assert (HK0 : 0 <= 4 * h / w) by (apply Z.div_pos; lia).
    assert (Hincl : incl (map (rowInColumn w h) sequence) (allPositions w K)).
    { intros q' Hq'. apply in_map_iff in Hq'. destruct Hq' as (q & <- & Hq).
      apply in_allPositions. rewrite Forall_forall in Hwf, Hrows.
      destruct (Hwf q Hq) as (Hx & Hy & Hc). pose proof (Hrows q Hq) as Hr.
      pose proof (rows_per_column w h (pos_x q) HW ltac:(lia) Hx) as HR.
      unfold wf_position, rowInColumn. cbn [pos_x pos_y pos_channel]. fold K in HR. lia. }
    assert (Hnd' : NoDup (map (rowInColumn w h) sequence)).
    { apply NoDup_map_injective; [apply rowInColumn_inj | exact Hnd]. }
    pose proof (NoDup_incl_length Hnd' Hincl) as Hle.
    rewrite length_map in Hle.
    pose proof (length_allPositions w K ltac:(lia) ltac:(unfold K; lia)) as HA.
    assert (HwK : w * (4 * h / w) <= 4 * h) by (apply Z.mul_div_le; lia).
    unfold K in HA, Hle. set (d := 4 * h / w) in *.
    assert (Hb : w * (d + 4) * 3 <= 12 * (w + h)) by lia.
    lia.
  - exfalso. exact (generatePixelSequence_no_throw _ _ _ _ Hg).
  - reflexivity.
Qed.

(** X16. The row of a location is drawn from the state that follows the
    state of its column, so each column meets few rows: no call for more
    than [12 * (width + height)] locations returns, and [encode] does not
    return when the payload has more bits than that, far below
    [width * height * 3]. *)
Theorem capacity_is_linear_in_the_dimensions (fuel : nat) (im : ImageData)
  (message key : jsstring) :
  0 < img_width im <= 2 ^ 16 -> 0 < img_height im <= 2 ^ 27 ->
  (forall count, 12 * (img_width im + img_height im) < count ->
     generatePixelSequence fuel count (newChaosPRNG key (img_width im) (img_height im))
       = Timeout) /\
  (12 * (img_width im + img_height im) < 32 + 16 * Z.of_nat (length message) ->
   encode fuel im message key = Timeout).
Proof.
  intros HW HH. split.
  - intros count Hc. apply generatePixelSequence_linear; auto. apply newChaosPRNG_ok.
  - intros Hc. rewrite encode_payload.
    rewrite generatePixelSequence_linear; [reflexivity | apply newChaosPRNG_ok | | |];
      cbn [newChaosPRNG prng_width prng_height]; try assumption.
    pose proof (length_payload_ge message). lia.
Qed.

Lemma capacity_is_linear_in_the_dimensions_witness :
  encode 5000 (solidImage 16 16 100) (js "0123456789012345678901234") (js "abc") = Timeout.
Proof.
  apply (capacity_is_linear_in_the_dimensions 5000 (solidImage 16 16 100)
           (js "0123456789012345678901234") (js "abc"));
    cbn [solidImage img_width img_height]; try (split; [reflexivity | discriminate]).
  vm_compute. reflexivity.
Defined.

(** *** Position keys *)

Lemma noComma_uint (d : Decimal.uint) :
  noComma (DecimalString.NilEmpty.string_of_uint d) = true.
Proof. induction d; cbn [DecimalString.NilEmpty.string_of_uint noComma]; auto. Qed.

Lemma noComma_decimal (z : Z) : noComma (decimal z) = true.
Proof.
  unfold decimal. destruct (Z.to_int z) as [d | d];
    cbn [DecimalString.NilEmpty.string_of_int noComma]; [|cbn [Ascii.eqb Bool.eqb negb andb]];
    apply noComma_uint.
Qed.

Lemma decimal_inj (a b : Z) : decimal a = decimal b -> a = b.
Proof.
  unfold decimal. intros H.
  apply (f_equal DecimalString.NilEmpty.int_of_string) in H.
  rewrite !DecimalString.NilEmpty.isi in H. inversion H as [H'].
  apply (f_equal Z.of_int) in H'. rewrite !DecimalZ.of_to in H'. exact H'.
Qed.

Lemma append_comma_inj (a b r1 r2 : string) :
  noComma a = true -> noComma b = true ->
  (a ++ String "," r1)%string = (b ++ String "," r2)%string -> a = b /\ r1 = r2.
Proof.
  revert b. induction a as [ | c a IH]; intros [ | c' b] Ha Hb H; cbn [append] in H.
  - inversion H. auto.
  - inversion H; subst. cbn [noComma] in Hb. rewrite Ascii.eqb_refl in Hb. discriminate.
  - inversion H; subst. cbn [noComma] in Ha. rewrite Ascii.eqb_refl in Ha. discriminate.
  - inversion H; subst. cbn [noComma] in Ha, Hb.
    apply andb_true_iff in Ha, Hb. destruct (IH b (proj2 Ha) (proj2 Hb) H2) as [-> ->].
    auto.
Qed.

Lemma positionKey_inj (q1 q2 : position) : positionKey q1 = positionKey q2 -> q1 = q2.
Proof.
  destruct q1 as [x1 y1 c1], q2 as [x2 y2 c2]. unfold positionKey.
  cbn [pos_x pos_y pos_channel]. intros H.
  change ("," ++ ?s)%string with (String "," s) in H.
  apply append_comma_inj in H; try apply noComma_decimal. destruct H as [Hx H].
  change ("," ++ ?s)%string with (String "," s) in H.
  apply append_comma_inj in H; try apply noComma_decimal. destruct H as [Hy Hc].
  apply decimal_inj in Hx, Hy, Hc. subst. reflexivity.
Qed.

(** X17. The key [`${x},${y},${channel}`] determines the location, so the
    set of keys of [generatePixelSequence] rejects exactly the locations
    already drawn: on the keys, [has] answers as on the locations. *)
Theorem position_keys_identify_locations (usedPositions : list position) (q q' : position) :
  (positionKey q = positionKey q' <-> q = q') /\
  hasKey (map positionKey usedPositions) (positionKey q) = has usedPositions q.
Proof.
  split.
  - split; [apply positionKey_inj | intros ->; reflexivity].
  - unfold hasKey, has. induction usedPositions as [ | u used IH]; [reflexivity|].
    cbn [map existsb]. rewrite IH. f_equal.
    destruct (position_eqb q u) eqn:He.
    + apply position_eqb_eq in He. subst. apply String.eqb_refl.
    + apply String.eqb_neq. intros Hk. apply positionKey_inj in Hk.
      apply position_eqb_eq in Hk. congruence.
Qed.

Lemma position_keys_identify_locations_witness :
  positionKey (mkPos 1 23 0) <> positionKey (mkPos 12 3 0).
Proof.
  intros H.
  apply (proj1 (proj1 (position_keys_identify_locations [] (mkPos 1 23 0) (mkPos 12 3 0)))) in H.
  discriminate H.
Defined.

(** *** The handlers *)




(** *** A header beyond the capacity *)

(** X20. When the header that [decode] reads is accepted (at most
    [width * height * 3]) and exceeds [12 * (width + height)], [decode] does
    not return: it neither finds the locations of the body nor fails. *)
Theorem decode_spins_on_a_long_header (fuel : nat) (im : ImageData) (key : jsstring)
  (lengthSequence : list position) :
  0 < img_width im <= 2 ^ 16 -> 0 < img_height im <= 2 ^ 27 ->
  positionsOf (generatePixelSequence fuel 32
                 (newChaosPRNG key (img_width im) (img_height im)))
    = Done lengthSequence ->
  let n := Z.of_N (parseInt2 (extract (img_width im) (img_data im) lengthSequence)) in
  12 * (img_width im + img_height im) < n <= img_width im * img_height im * 3 ->
  decode fuel im key = Timeout.
Proof.
  intros HW HH Hh n Hn. apply positionsOf_Done in Hh. destruct Hh as [p1 Hh].
  assert (HW' : 0 < img_width im < 2 ^ 53).
  { split; [lia|]. eapply Z.le_lt_trans; [apply HW | reflexivity]. }
  assert (HH' : 0 < img_height im < 2 ^ 53).
  { split; [lia|]. eapply Z.le_lt_trans; [apply HH | reflexivity]. }
  destruct (generatePixelSequence_sound _ _ _ _ _ (newChaosPRNG_ok _ _ _)
              (conj HW' HH') Hh) as (_ & _ & _ & Hok1 & Hw1 & Hh1).
  cbn [newChaosPRNG prng_width prng_height] in Hw1, Hh1.
  unfold decode, decode_try, bind. rewrite Hh. fold n.
  replace ((n <=? 0) || (n >? img_width im * img_height im * 3)) with false.
  - rewrite generatePixelSequence_linear; [reflexivity | exact Hok1 | | |];
      rewrite ?Hw1, ?Hh1; try assumption; lia.
  - symmetry. apply orb_false_iff. rewrite Z.leb_gt, Z.gtb_ltb, Z.ltb_ge. lia.
Qed.

Lemma decode_spins_on_a_long_header_witness :
  decode 5000 headerLongImage (js "abc") = Timeout.
Proof.
  let v := eval vm_compute in
    (positionsOf (generatePixelSequence 5000 32 (newChaosPRNG (js "abc") 20 20))) in
  match v with
  | Done ?hdr =>
      apply (decode_spins_on_a_long_header 5000 headerLongImage (js "abc") hdr);
        [vm_compute; split; [reflexivity | discriminate]
        | vm_compute; split; [reflexivity | discriminate]
        | vm_compute; reflexivity
        | vm_compute; split; [reflexivity | discriminate]]
  end.
Defined.

(** *** Whole groups of digits *)

Lemma parseInt2_snoc (g : binary) (b : bool) :
  parseInt2 (g ++ [b]) = (2 * parseInt2 g + (if b then 1 else 0))%N.
Proof. rewrite parseInt2_app. reflexivity. Qed.

Lemma toString2_double (n : N) (b : bool) :
  (0 < n)%N -> toString2 (2 * n + (if b then 1 else 0)) = toString2 n ++ [b].
Proof.
  intros Hn. destruct n as [ | p]; [lia|]. destruct b; reflexivity.
Qed.

Lemma padStart_snoc (len : nat) (s : binary) (b : bool) :
  padStart (S len) (s ++ [b]) = padStart len s ++ [b].
Proof.
  unfold padStart. rewrite length_app. cbn [length].
  replace (S len - (length s + 1))%nat with (len - length s)%nat by lia.
  apply app_assoc.
Qed.

Lemma parseInt2_zero (g : binary) : parseInt2 g = 0%N -> g = repeat false (length g).
Proof.
  induction g as [ | b g IH] using rev_ind; intros H; [reflexivity|].
  rewrite parseInt2_snoc in H. destruct b; [lia|].
  assert (H0 : parseInt2 g = 0%N) by lia.
  rewrite length_app. cbn [length]. rewrite Nat.add_1_r.
  change (repeat false (S (length g))) with (false :: repeat false (length g)).
  rewrite repeat_cons, <- (IH H0). reflexivity.
Qed.

(** Padding the digits of its value gives a non-empty group back. *)
Lemma padStart_parseInt2 (g : binary) :
  g <> [] -> padStart (length g) (toString2 (parseInt2 g)) = g.
Proof.
  induction g as [ | b g IH] using rev_ind; intros Hne; [congruence|].
  rewrite parseInt2_snoc, length_app. cbn [length]. rewrite Nat.add_1_r.
  destruct (N.eq_dec (parseInt2 g) 0) as [H0 | Hpos].
  - rewrite H0. rewrite (parseInt2_zero g H0) at 2.
    destruct b; cbn [N.mul N.add toString2 posDigits]; unfold padStart; cbn [length];
      rewrite Nat.sub_succ, Nat.sub_0_r; reflexivity.
  - rewrite toString2_double by lia. rewrite padStart_snoc. f_equal.
    apply IH. intros ->. apply Hpos. reflexivity.
Qed.

Lemma parseInt2_lt (g : binary) : (parseInt2 g < 2 ^ N.of_nat (length g))%N.
Proof.
  induction g as [ | b g IH] using rev_ind; [cbn; lia|].
  rewrite parseInt2_snoc, length_app. cbn [length].
  rewrite Nat.add_1_r, Nat2N.inj_succ, N.pow_succ_r'. destruct b; lia.
Qed.

Lemma stringToBinary_binaryToString_from (groups : nat) :
  forall bin, length bin = (16 * groups)%nat ->
    stringToBinary (binaryToString_from groups bin) = bin.
Proof.
  induction groups as [ | g IH]; intros bin Hlen.
  - destruct bin; [reflexivity | cbn [length] in Hlen; lia].
  - cbn [binaryToString_from]. destruct bin as [ | b0 rest] eqn:Hb; [cbn [length] in Hlen; lia|].
    rewrite <- Hb in *. clear Hb b0 rest.
    cbn [stringToBinary].
    assert (Hf : length (firstn 16 bin) = 16%nat) by (rewrite length_firstn; lia).
    assert (Hne : firstn 16 bin <> []).
    { intros E. rewrite E in Hf. discriminate. }
    unfold fromCharCode. rewrite N.mod_small.
    + rewrite <- Hf at 1. rewrite padStart_parseInt2 by exact Hne.
      rewrite IH by (rewrite length_skipn; lia).
      apply firstn_skipn.
    + pose proof (parseInt2_lt (firstn 16 bin)) as H. rewrite Hf in H. exact H.
Qed.

(** X21. [stringToBinary] undoes [binaryToString] on whole groups: a digit
    string whose length is a multiple of 16 comes back from its text, so
    distinct such strings have distinct texts. *)
Theorem stringToBinary_binaryToString (bin : binary) :
  (length bin mod 16 = 0)%nat -> stringToBinary (binaryToString bin) = bin.
Proof.
  intros Hm. unfold binaryToString.
  assert (Hk : length bin = (16 * (length bin / 16))%nat).
  { pose proof (Nat.div_mod_eq (length bin) 16). lia. }
  assert (Hmore : forall a b bin', length bin' = (16 * a)%nat ->
             binaryToString_from (a + b) bin' = binaryToString_from a bin').
  { induction a as [ | a IHa]; intros b bin' Hl.
    - destruct bin'; [destruct b; reflexivity | cbn [length] in Hl; lia].
    - cbn [Nat.add binaryToString_from]. destruct bin' as [ | c bin'']; [reflexivity|].
      f_equal. apply IHa. rewrite length_skipn. lia. }
  replace (length bin) with (length bin / 16 + (length bin - length bin / 16))%nat at 1 by lia.
  rewrite Hmore by exact Hk.
  apply stringToBinary_binaryToString_from. exact Hk.
Qed.

Lemma stringToBinary_binaryToString_witness :
  stringToBinary (binaryToString (stringToBinary (js "Hi"))) = stringToBinary (js "Hi").
Proof.
  apply (stringToBinary_binaryToString (stringToBinary (js "Hi"))). reflexivity.
Defined.
